(** * A shallow embedding of the heap allocator of [mem_manage.c]

    The allocator manages one arena obtained from [sbrk].  Every block is a
    [Block] header followed by its payload; the free blocks are tracked by an
    array-backed binary min-heap of block addresses, ordered by the [size]
    field that is read from the header in memory.

    Modelling choices, all taken from the source:
    - the target is LP64, little endian: [size_t] and pointers are 64 bits,
      [sizeof(Block)] is 24 with [size] at offset 0, [is_free] at offset 8 and
      [next] at offset 16;
    - memory is byte addressed, a total function from addresses to bytes;
      headers live in that memory, so a header that is overwritten or left
      behind by a merge is read back exactly as the program would read it;
    - [size_t] arithmetic wraps modulo 2^64; addresses are integers, and the
      headers and payloads that [mm_init] and [mm_malloc] write lie at the
      addresses above the block's own; the two addresses that [mm_free]
      compares a pointer with, [(char* )heap_start + heap_size] and
      [(char* )current + sizeof(Block) + current->size], are computed as the
      64-bit machine computes them, reduced by 2^64 when the sum does not
      fit ([ptr_add]);
    - the array [heap] together with [heap_count] is the list of its live
      prefix [heap[0 .. heap_count)]: the program never reads a slot at or
      beyond [heap_count] that it has not just written;
    - [printf]/[fprintf] diagnostics are dropped, except that [mm_init]
      reports which of its messages it printed;
    - the value returned by [sbrk] is an input of [mm_init]. *)

From stdpp Require Import base numbers list sets.
From Stdlib Require Import ZArith Lia.

Local Open Scope Z_scope.

(** ** Machine integers and the block header *)

Definition SIZE_MAX_PLUS_1 : Z := 2 ^ 64.

(** [size_t] arithmetic: every result is reduced modulo 2^64. *)
Definition wrap (z : Z) : Z := z mod SIZE_MAX_PLUS_1.

Definition NULL : Z := 0.

(** [#define MAX_HEAP_SIZE 1024] *)
Definition MAX_HEAP_SIZE : nat := 1024.

(** [sizeof(Block)] and the offsets of its fields. *)
Definition SIZEOF_BLOCK : Z := 24.
Definition OFF_SIZE : Z := 0.
Definition OFF_IS_FREE : Z := 8.
Definition OFF_NEXT : Z := 16.

(** [#define MIN_BLOCK_SIZE (sizeof(Block))] *)
Definition MIN_BLOCK_SIZE : Z := SIZEOF_BLOCK.

(** [#define ALIGN(size) (((size) + 7) & ~7)], on a [size_t] argument: the
    sum wraps and [~7] is converted to the 64-bit mask [2^64 - 8]. *)
Definition ALIGN (size : Z) : Z := Z.land (wrap (size + 7)) (SIZE_MAX_PLUS_1 - 8).

(** [ALIGN(1)] is computed on [int]: no wrap-around is involved. *)
Definition ALIGN_1 : Z := Z.land (1 + 7) (-8).

(** ** Byte-addressed memory *)

Definition memory : Type := Z -> Z.

Definition load8 (m : memory) (a : Z) : Z := m a mod 256.

Fixpoint load_le (n : nat) (m : memory) (a : Z) : Z :=
  match n with
  | O => 0
  | S n' => load8 m a + 256 * load_le n' m (a + 1)
  end.

Definition load64 (m : memory) (a : Z) : Z := load_le 8 m a.

Definition store8 (m : memory) (a v : Z) : memory :=
  fun x => if x =? a then v mod 256 else m x.

Definition store64 (m : memory) (a v : Z) : memory :=
  fun x => if (a <=? x) && (x <? a + 8) then (v / 256 ^ (x - a)) mod 256 else m x.

(** [memset(p, c, n)] *)
Definition memset (m : memory) (p c n : Z) : memory :=
  fun x => if (p <=? x) && (x <? p + n) then c mod 256 else m x.

(** [memcpy(dst, src, n)]; the source bytes are those before the copy. *)
Definition memcpy (m : memory) (dst src n : Z) : memory :=
  fun x => if (dst <=? x) && (x <? dst + n) then m (src + (x - dst)) else m x.

(** Header field accessors: [b->size], [b->is_free], and the three stores. *)
Definition block_size (m : memory) (b : Z) : Z := load64 m (b + OFF_SIZE).
Definition block_is_free (m : memory) (b : Z) : bool := negb (load8 m (b + OFF_IS_FREE) =? 0).
Definition set_size (m : memory) (b v : Z) : memory := store64 m (b + OFF_SIZE) v.
Definition set_is_free (m : memory) (b : Z) (v : bool) : memory :=
  store8 m (b + OFF_IS_FREE) (if v then 1 else 0).
Definition set_next (m : memory) (b v : Z) : memory := store64 m (b + OFF_NEXT) v.

(** ** Allocator state: the four [static] variables and the memory *)

Record state : Type := mkState {
  mem : memory;
  heap_start : Z;
  heap_size : Z;
  heap : list Z
}.

Definition heap_count (st : state) : nat := length (heap st).

Definition with_mem (st : state) (m : memory) : state :=
  mkState m (heap_start st) (heap_size st) (heap st).
Definition with_heap (st : state) (h : list Z) : state :=
  mkState (mem st) (heap_start st) (heap_size st) h.

(** The state of the program before any call: the statics are zero. *)
Definition initial_state (m : memory) : state := mkState m NULL 0 [].

(** ** The min-heap of free blocks *)

(** [swap(i, j)] *)
Definition swap (h : list Z) (i j : nat) : list Z :=
  let temp := h !!! i in
  <[j := temp]> (<[i := h !!! j]> h).

(** [heapify_up(index)]: the loop runs at most [index] times, since
    [parent < index]; [fuel] bounds the iterations. *)
Fixpoint heapify_up_loop (fuel : nat) (m : memory) (h : list Z) (index : nat) : list Z :=
  match fuel with
  | O => h
  | S fuel' =>
      if (0 <? index)%nat then
        let parent := ((index - 1) / 2)%nat in
        if block_size m (h !!! index) <? block_size m (h !!! parent)
        then heapify_up_loop fuel' m (swap h index parent) parent
        else h
      else h
  end.

Definition heapify_up (m : memory) (h : list Z) (index : nat) : list Z :=
  heapify_up_loop index m h index.

(** [heapify_down(index)]: each recursive call is on a strictly larger
    index below [heap_count]; [fuel] bounds the recursion depth. *)
Fixpoint heapify_down_rec (fuel : nat) (m : memory) (h : list Z) (index : nat) : list Z :=
  match fuel with
  | O => h
  | S fuel' =>
      let smallest := index in
      let left := (2 * index + 1)%nat in
      let right := (2 * index + 2)%nat in
      let smallest :=
        if (left <? length h)%nat && (block_size m (h !!! left) <? block_size m (h !!! smallest))
        then left else smallest in
      let smallest :=
        if (right <? length h)%nat && (block_size m (h !!! right) <? block_size m (h !!! smallest))
        then right else smallest in
      if (smallest =? index)%nat then h
      else heapify_down_rec fuel' m (swap h index smallest) smallest
  end.

Definition heapify_down (m : memory) (h : list Z) (index : nat) : list Z :=
  heapify_down_rec (length h) m h index.

(** [heap_insert(block)] *)
Definition heap_insert (st : state) (block : Z) : state :=
  if (MAX_HEAP_SIZE <=? heap_count st)%nat then st
  else with_heap st (heapify_up (mem st) (heap st ++ [block]) (heap_count st)).

(** [heap[i] = heap[--heap_count]]: slot [i] receives the last live entry and
    the live prefix loses its last slot. *)
Definition take_last_into (h : list Z) (i : nat) : list Z :=
  removelast (<[i := h !!! (length h - 1)%nat]> h).

(** [heap_extract_min()]: the result is [NULL] on an empty heap. *)
Definition heap_extract_min (st : state) : Z * state :=
  match heap st with
  | [] => (NULL, st)
  | min_block :: _ =>
      let h := take_last_into (heap st) 0 in
      (min_block, with_heap st (heapify_down (mem st) h 0))
  end.

(** ** The public operations *)

(** What [mm_init] printed: nothing, or one of its two error messages. *)
Inductive init_status : Type :=
  | InitOk
  | InitTooSmall
  | InitSbrkFailed.

(** [(void* )-1], the failure value of [sbrk]. *)
Definition SBRK_FAILED : Z := SIZE_MAX_PLUS_1 - 1.

(** [mm_init(memory_size)]; [sbrk_ret] is what [sbrk(memory_size)] returns. *)
Definition mm_init (memory_size : Z) (sbrk_ret : Z) (st : state) : init_status * state :=
  if memory_size <? MIN_BLOCK_SIZE then (InitTooSmall, st)
  else
    let st := mkState (mem st) sbrk_ret (heap_size st) (heap st) in
    if heap_start st =? SBRK_FAILED then (InitSbrkFailed, st)
    else
      let st := mkState (mem st) (heap_start st) memory_size (heap st) in
      let initial_block := heap_start st in
      let m := set_size (mem st) initial_block (wrap (memory_size - SIZEOF_BLOCK)) in
      let m := set_is_free m initial_block true in
      let m := set_next m initial_block NULL in
      (InitOk, heap_insert (with_mem st m) initial_block).

(** [mm_malloc(size)] *)
Definition mm_malloc (size : Z) (st : state) : Z * state :=
  if size =? 0 then (NULL, st)
  else
    let size := ALIGN size in
    let '(block, st) := heap_extract_min st in
    if (block =? NULL) || (block_size (mem st) block <? size) then (NULL, st)
    else
      let st :=
        if wrap (wrap (size + SIZEOF_BLOCK) + ALIGN_1) <=? block_size (mem st) block then
          let new_block := block + SIZEOF_BLOCK + size in
          let m := set_size (mem st) new_block
                     (wrap (wrap (block_size (mem st) block - size) - SIZEOF_BLOCK)) in
          let m := set_is_free m new_block true in
          let st := heap_insert (with_mem st m) new_block in
          with_mem st (set_size (mem st) block size)
        else st in
      let m := set_is_free (mem st) block false in
      let m := memset m (block + SIZEOF_BLOCK) 0 size in
      (block + SIZEOF_BLOCK, with_mem st m).

(** [(char* )p + n], the sum of a pointer and a [size_t] offset on a 64-bit
    machine: both are below [2^64], so the sum is reduced by [2^64] when it
    does not fit. *)
Definition ptr_add (p n : Z) : Z :=
  if p + n <? SIZE_MAX_PLUS_1 then p + n else p + n - SIZE_MAX_PLUS_1.

(** [(char* )heap_start + heap_size], the bound [mm_free] compares pointers
    with. *)
Definition arena_end (st : state) : Z := ptr_add (heap_start st) (heap_size st).

(** [(char* )current + sizeof(Block) + current->size], the address right
    after block [current]. *)
Definition next_block (m : memory) (current : Z) : Z :=
  ptr_add (ptr_add current SIZEOF_BLOCK) (block_size m current).

(** The test of the coalescing loop at slot [i]: [current] is free, its
    right-hand neighbour starts below the end of the arena and is free. *)
Definition can_merge (st : state) (i : nat) : bool :=
  let current := heap st !!! i in
  if block_is_free (mem st) current then
    let next := next_block (mem st) current in
    (next <? arena_end st) && block_is_free (mem st) next
  else false.

(** The body of the loop when the test succeeds. *)
Definition merge_at (st : state) (i : nat) : state :=
  let current := heap st !!! i in
  let next := next_block (mem st) current in
  let m := set_size (mem st) current
             (wrap (block_size (mem st) current
                    + wrap (SIZEOF_BLOCK + block_size (mem st) next))) in
  let h := take_last_into (heap st) i in
  mkState m (heap_start st) (heap_size st) (heapify_down m h i).

(** One pass [for (i = ...; i < heap_count; i++)] up to the first slot whose
    test succeeds; nothing is written before that slot is found. *)
Fixpoint find_merge (todo : nat) (st : state) (i : nat) : option nat :=
  match todo with
  | O => None
  | S todo' => if can_merge st i then Some i else find_merge todo' st (S i)
  end.

(** The coalescing loop of [mm_free]: scan from slot 0; on a merge, restart
    ([i = -1]).  Every merge removes one entry, so [fuel] bounds the number
    of restarts. *)
Fixpoint coalesce (fuel : nat) (st : state) : state :=
  match fuel with
  | O => st
  | S fuel' =>
      match find_merge (heap_count st) st 0 with
      | None => st
      | Some i => coalesce fuel' (merge_at st i)
      end
  end.

(** [mm_free(ptr)] *)
Definition mm_free (ptr : Z) (st : state) : state :=
  if (ptr =? NULL) || (ptr <? heap_start st) || (arena_end st <=? ptr) then st
  else
    let block := ptr - SIZEOF_BLOCK in
    let st := with_mem st (set_is_free (mem st) block true) in
    let st := heap_insert st block in
    coalesce (heap_count st) st.

(** [mm_realloc(ptr, size)] *)
Definition mm_realloc (ptr size : Z) (st : state) : Z * state :=
  if ptr =? NULL then mm_malloc size st
  else if size =? 0 then (NULL, mm_free ptr st)
  else
    let block := ptr - SIZEOF_BLOCK in
    if size <=? block_size (mem st) block then (ptr, st)
    else
      let '(new_ptr, st) := mm_malloc size st in
      if negb (new_ptr =? NULL) then
        let st := with_mem st (memcpy (mem st) new_ptr ptr (block_size (mem st) block)) in
        (new_ptr, mm_free ptr st)
      else (new_ptr, st).

(** [mm_metadata_size()] *)
Definition mm_metadata_size : Z := SIZEOF_BLOCK.

(** [mm_cleanup()] *)
Definition mm_cleanup (st : state) : state :=
  mkState (mem st) NULL 0 [].

(** The caller filling a payload, as [tester.c] does with [memset]. *)
Definition client_memset (p c n : Z) (st : state) : state :=
  with_mem st (memset (mem st) p c n).


(** ** Well-formedness conditions used by the statements *)

(** Block [b], header and payload, lies inside the arena. *)
Definition block_in_arena (st : state) (b : Z) : Prop :=
  heap_start st <= b /\
  b + SIZEOF_BLOCK + block_size (mem st) b <= heap_start st + heap_size st.

(** The memory after a successful [mm_malloc] that does not split. *)
Definition mem_after_take (m : memory) (b a : Z) : memory :=
  memset (set_is_free m b false) (b + SIZEOF_BLOCK) 0 a.

(** The memory after [mm_malloc] has written the header of the remainder. *)
Definition mem_after_carve (m : memory) (b a : Z) : memory :=
  set_is_free
    (set_size m (b + SIZEOF_BLOCK + a) (wrap (wrap (block_size m b - a) - SIZEOF_BLOCK)))
    (b + SIZEOF_BLOCK + a) true.


(** Blocks [b1] and [b2] do not overlap. *)
Definition blocks_disjoint (m : memory) (b1 b2 : Z) : Prop :=
  b1 + SIZEOF_BLOCK + block_size m b1 <= b2 \/
  b2 + SIZEOF_BLOCK + block_size m b2 <= b1.

(** The min-heap order on the live entries: no entry is smaller than its
    parent. *)
Definition heap_ordered (m : memory) (h : list Z) : Prop :=
  forall i, (0 < i < length h)%nat ->
    block_size m (h !!! ((i - 1) / 2)%nat) <= block_size m (h !!! i).

(** The heap order may fail only between slot [k] and its parent; the
    children of [k] are not smaller than the parent of [k].  This is what
    [heapify_up] keeps while it moves an entry up. *)
Definition ordered_but_up (m : memory) (h : list Z) (k : nat) : Prop :=
  (forall i, (0 < i < length h)%nat -> i <> k ->
     block_size m (h !!! ((i - 1) / 2)%nat) <= block_size m (h !!! i)) /\
  (forall i, (0 < i < length h)%nat -> ((i - 1) / 2)%nat = k -> (0 < k)%nat ->
     block_size m (h !!! ((k - 1) / 2)%nat) <= block_size m (h !!! i)).

(** The heap order may fail only between slot [k] and its children; the
    children of [k] are not smaller than the parent of [k].  This is what
    [heapify_down] keeps while it moves an entry down. *)
Definition ordered_but_down (m : memory) (h : list Z) (k : nat) : Prop :=
  (forall i, (0 < i < length h)%nat -> ((i - 1) / 2)%nat <> k ->
     block_size m (h !!! ((i - 1) / 2)%nat) <= block_size m (h !!! i)) /\
  (forall i, (0 < i < length h)%nat -> ((i - 1) / 2)%nat = k -> (0 < k)%nat ->
     block_size m (h !!! ((k - 1) / 2)%nat) <= block_size m (h !!! i)).

(** ** Call sequences of a well-behaved caller *)

(** Address [x] lies inside block [b], past its first byte. *)
Definition strictly_inside (m : memory) (x b : Z) : Prop :=
  b < x < b + SIZEOF_BLOCK + block_size m b.

(** The entries of [h] are distinct blocks that do not overlap. *)
Definition index_disjoint (m : memory) (h : list Z) : Prop :=
  NoDup h /\
  forall b c, b ∈ h -> c ∈ h -> b <> c -> blocks_disjoint m b c.

(** Block [X] is out of reach of the index [h]: it is not an entry, and no
    entry is a block that contains the address [X]. *)
Definition lost_from (X : Z) (m : memory) (h : list Z) : Prop :=
  (X ∉ h) /\ index_disjoint m h /\
  forall b, b ∈ h -> ~ strictly_inside m X b.

(** A pointer the caller may pass to [mm_free] while [X] is lost: the
    payload of a block that is in use, hence not in the index and not
    overlapping any index block, other than [X] and not containing [X]. *)
Definition freeable (X : Z) (st : state) (q : Z) : Prop :=
  q - SIZEOF_BLOCK <> X /\
  (q - SIZEOF_BLOCK ∉ heap st) /\
  (forall b, b ∈ heap st -> blocks_disjoint (mem st) b (q - SIZEOF_BLOCK)) /\
  ~ strictly_inside (mem st) X (q - SIZEOF_BLOCK).

(** A request whose size arithmetic does not wrap. *)
Definition request_ok (s : Z) : Prop :=
  0 <= s /\ s + 7 + SIZEOF_BLOCK + ALIGN_1 < SIZE_MAX_PLUS_1.

Inductive call : Type :=
  | Malloc (s : Z)
  | Free (q : Z)
  | Realloc (q s : Z).

(** The pointer a call returns ([NULL] for [mm_free]) and the next state. *)
Definition do_call (c : call) (st : state) : Z * state :=
  match c with
  | Malloc s => mm_malloc s st
  | Free q => (NULL, mm_free q st)
  | Realloc q s => mm_realloc q s st
  end.

Definition call_ok (X : Z) (st : state) (c : call) : Prop :=
  match c with
  | Malloc s => request_ok s
  | Free q => freeable X st q
  | Realloc q s => request_ok s /\ (q = NULL \/ freeable X st q)
  end.

Fixpoint calls_ok (X : Z) (st : state) (cs : list call) : Prop :=
  match cs with
  | [] => True
  | c :: cs' => call_ok X st c /\ calls_ok X (snd (do_call c st)) cs'
  end.

Fixpoint run (cs : list call) (st : state) : state :=
  match cs with
  | [] => st
  | c :: cs' => run cs' (snd (do_call c st))
  end.

(** The non-null pointers returned along a run. *)
Fixpoint returned (cs : list call) (st : state) : list Z :=
  match cs with
  | [] => []
  | c :: cs' =>
      let '(p, st') := do_call c st in
      if p =? NULL then returned cs' st' else p :: returned cs' st'
  end.

(** Block [X] and the index [h] are kept apart: the entries of [h] are
    distinct blocks that overlap neither each other nor [X]. *)
Definition kept_apart (X : Z) (m : memory) (h : list Z) : Prop :=
  index_disjoint m h /\ forall b, b ∈ h -> blocks_disjoint m b X.

(** Memory [m'] holds the same bytes as [m] in block [X], header and
    payload. *)
Definition block_bytes_same (m m' : memory) (X : Z) : Prop :=
  forall x, X <= x < X + SIZEOF_BLOCK + block_size m X -> m' x = m x.

(** A call of a well-behaved caller that holds the live block [X]: besides
    [call_ok], a pointer it frees or reallocates belongs to a block that
    does not overlap [X]. *)
Definition call_apart (X : Z) (st : state) (c : call) : Prop :=
  call_ok X st c /\
  match c with
  | Malloc _ => True
  | Free q => blocks_disjoint (mem st) (q - SIZEOF_BLOCK) X
  | Realloc q _ => q = NULL \/ blocks_disjoint (mem st) (q - SIZEOF_BLOCK) X
  end.

Fixpoint calls_apart (X : Z) (st : state) (cs : list call) : Prop :=
  match cs with
  | [] => True
  | c :: cs' => call_apart X st c /\ calls_apart X (snd (do_call c st)) cs'
  end.

(** The pointers of successive allocations carved from one block at [r]:
    each payload starts [sizeof(Block)] bytes after the end of the previous
    one. *)
Fixpoint carve (r : Z) (sizes : list Z) : list Z :=
  match sizes with
  | [] => []
  | s :: sizes' => (r + SIZEOF_BLOCK) :: carve (r + SIZEOF_BLOCK + ALIGN s) sizes'
  end.

(** The block that is left at the end of [carve], and its payload size. *)
Fixpoint carve_rest (r : Z) (sizes : list Z) : Z :=
  match sizes with
  | [] => r
  | s :: sizes' => carve_rest (r + SIZEOF_BLOCK + ALIGN s) sizes'
  end.

Fixpoint carve_left (sz : Z) (sizes : list Z) : Z :=
  match sizes with
  | [] => sz
  | s :: sizes' => carve_left (sz - ALIGN s - SIZEOF_BLOCK) sizes'
  end.

(** Every request of [sizes] is positive, does not wrap, and leaves room
    for a split of the block that remains. *)
Fixpoint all_split (sz : Z) (sizes : list Z) : Prop :=
  match sizes with
  | [] => True
  | s :: sizes' =>
      0 < s /\ request_ok s /\ ALIGN s + SIZEOF_BLOCK + ALIGN_1 <= sz /\
      all_split (sz - ALIGN s - SIZEOF_BLOCK) sizes'
  end.


(** [q] is a pointer the caller holds: the payload of a block that lies
    inside the arena, is not an index entry and overlaps no index block. *)
Definition in_use_ptr (st : state) (q : Z) : Prop :=
  (q - SIZEOF_BLOCK ∉ heap st) /\
  (forall b, b ∈ heap st -> blocks_disjoint (mem st) b (q - SIZEOF_BLOCK)) /\
  block_in_arena st (q - SIZEOF_BLOCK).

(** The states of a program that calls [mm_init] once, on the uninitialised
    allocator, and from then on allocates, frees and reallocates pointers it
    holds and writes into their payloads. *)
Inductive single_arena : state -> Prop :=
  | sa_init (m : memory) (capacity base : Z) :
      SIZEOF_BLOCK <= capacity < SIZE_MAX_PLUS_1 ->
      0 < base -> base <> SBRK_FAILED ->
      single_arena (snd (mm_init capacity base (initial_state m)))
  | sa_malloc (st : state) (s : Z) :
      single_arena st -> request_ok s ->
      single_arena (snd (mm_malloc s st))
  | sa_free (st : state) (q : Z) :
      single_arena st -> in_use_ptr st q ->
      single_arena (mm_free q st)
  | sa_realloc (st : state) (q s : Z) :
      single_arena st -> request_ok s -> q = NULL \/ in_use_ptr st q ->
      single_arena (snd (mm_realloc q s st))
  | sa_write (st : state) (q off c n : Z) :
      single_arena st -> in_use_ptr st q ->
      0 <= off -> 0 <= n -> off + n <= block_size (mem st) (q - SIZEOF_BLOCK) ->
      single_arena (client_memset (q + off) c n st).


(** ** The index invariant of the specification *)

(** The blocks of the arena, found by walking the headers from [heap_start]:
    the block after [b] starts at [b + sizeof(Block) + b->size]. *)
Fixpoint walk_blocks (fuel : nat) (m : memory) (b limit : Z) : list Z :=
  match fuel with
  | O => []
  | S fuel' =>
      if b <? limit
      then b :: walk_blocks fuel' m (b + SIZEOF_BLOCK + block_size m b) limit
      else []
  end.

Definition arena_blocks (st : state) : list Z :=
  walk_blocks (Z.to_nat (heap_size st)) (mem st) (heap_start st)
    (heap_start st + heap_size st).

(** A block is in the index exactly when it is flagged free, no entry occurs
    twice, and every entry is an address inside the arena. *)
Definition index_invariant (st : state) : Prop :=
  (forall b, b ∈ arena_blocks st -> (b ∈ heap st <-> block_is_free (mem st) b = true)) /\
  NoDup (heap st) /\
  (forall b, b ∈ heap st -> heap_start st <= b < heap_start st + heap_size st).

(** ** Call sequences used as test scenarios *)

Definition zero_mem : memory := fun _ => 0.

(** [mm_malloc] for each size in turn; the pointers are collected in order. *)
Fixpoint mallocs (sizes : list Z) (st : state) : list Z * state :=
  match sizes with
  | [] => ([], st)
  | s :: sizes' =>
      let '(p, st1) := mm_malloc s st in
      let '(ps, st2) := mallocs sizes' st1 in
      (p :: ps, st2)
  end.

(** [mm_free] for each pointer in turn. *)
Definition frees (ptrs : list Z) (st : state) : state :=
  fold_left (fun st p => mm_free p st) ptrs st.

(** [mm_init(1024)] on a fresh allocator; [sbrk] returns [0x1000]. *)
Definition arena_1024 : state := snd (mm_init 1024 4096 (initial_state zero_mem)).

(** Two adjacent blocks that fill the arena: [p1 = mm_malloc(104)] and
    [p2 = mm_malloc(872)], then both freed, in either order. *)
Definition two_blocks : list Z * state := mallocs [104; 872] arena_1024.
Definition two_p1 : Z := nth 0 (fst two_blocks) NULL.
Definition two_p2 : Z := nth 1 (fst two_blocks) NULL.
Definition freed_p1 : state := mm_free two_p1 (snd two_blocks).
Definition freed_p1_p2 : state := mm_free two_p2 freed_p1.
Definition freed_p2_p1 : state := mm_free two_p1 (mm_free two_p2 (snd two_blocks)).






(** Thirteen blocks tiling the arena; the ones of size 8, 32, 16, 48, 56 and
    40 (indices 0, 2, 4, 6, 9, 11) are freed in that order, each next to a
    block still in use; then the block of size 24 (index 7), which follows
    the one of size 48, is freed; then 8 and 16 bytes are allocated again. *)
Definition tiled : list Z * state :=
  mallocs [8; 8; 32; 8; 16; 8; 48; 24; 8; 56; 8; 40; 448] arena_1024.
Definition tiled_ptr (i : nat) : Z := nth i (fst tiled) NULL.
Definition six_freed : state :=
  frees [tiled_ptr 0; tiled_ptr 2; tiled_ptr 4; tiled_ptr 6; tiled_ptr 9; tiled_ptr 11]
    (snd tiled).
Definition seven_freed : state := mm_free (tiled_ptr 7) six_freed.
Definition disordered : state := snd (mm_malloc 16 (snd (mm_malloc 8 seven_freed))).

(** One block of 8 bytes in use ([p = 0x1018]); the remainder of the arena,
    the block at [0x1020], is the only entry of the index. *)
Definition after_small : state := snd (mm_malloc 8 arena_1024).

(** [mm_init(24)] called [n] times in a row, [sbrk] returning consecutive
    regions from [base] on. *)
Fixpoint init_many (n : nat) (base : Z) (st : state) : state :=
  match n with
  | O => st
  | S n' => init_many n' (base + 24) (snd (mm_init 24 base st))
  end.

Definition full_index : state := init_many MAX_HEAP_SIZE 4096 (initial_state zero_mem).

(** ** The test program [tester.c]

    A test is a function of the allocator state and of what [sbrk] returns
    to its [mm_init]; a failing [assert] aborts the program, here [None]. *)

Definition test_basic_allocation (sbrk_ret : Z) (st : state) : option state :=
  let st := snd (mm_init 1024 sbrk_ret st) in
  let '(ptr1, st) := mm_malloc 100 st in
  if ptr1 =? NULL then None
  else
    let '(ptr2, st) := mm_malloc 200 st in
    if ptr2 =? NULL then None
    else
      let st := mm_free ptr1 st in
      let st := mm_free ptr2 st in
      Some (mm_cleanup st).

Definition test_realloc (sbrk_ret : Z) (st : state) : option state :=
  let st := snd (mm_init 1024 sbrk_ret st) in
  let '(ptr, st) := mm_malloc 100 st in
  if ptr =? NULL then None
  else
    let '(new_ptr, st) := mm_realloc ptr 200 st in
    if new_ptr =? NULL then None
    else
      let st := mm_free new_ptr st in
      Some (mm_cleanup st).

Definition test_free_and_coalesce (sbrk_ret : Z) (st : state) : option state :=
  let st := snd (mm_init 1024 sbrk_ret st) in
  let '(ptr1, st) := mm_malloc 100 st in
  let '(ptr2, st) := mm_malloc 200 st in
  let '(ptr3, st) := mm_malloc 100 st in
  let st := mm_free ptr2 st in
  let st := mm_free ptr1 st in
  let st := mm_free ptr3 st in
  Some (mm_cleanup st).

Definition test_zero_allocation (st : state) : option state :=
  let '(ptr, st) := mm_malloc 0 st in
  if ptr =? NULL then Some st else None.

Definition test_exact_size_allocation (sbrk_ret : Z) (st : state) : option state :=
  let st := snd (mm_init 1024 sbrk_ret st) in
  let overhead := mm_metadata_size in
  let '(ptr, st) := mm_malloc (wrap (1024 - overhead)) st in
  if ptr =? NULL then None
  else Some (mm_free ptr st).

(** [for (i = 0; i < size; i++) assert(ptr[i] == 0xAA)] *)
Definition pattern_holds (m : memory) (ptr : Z) (size : nat) : bool :=
  forallb (fun i => load8 m (ptr + Z.of_nat i) =? 170) (seq 0 size).

Definition test_memory_pattern (sbrk_ret : Z) (st : state) : option state :=
  let st := snd (mm_init 1024 sbrk_ret st) in
  let size := 256 in
  let '(ptr, st) := mm_malloc size st in
  if ptr =? NULL then None
  else
    let st := client_memset ptr 170 size st in
    if pattern_holds (mem st) ptr (Z.to_nat size) then Some (mm_free ptr st)
    else None.

(** [for (i = 0; i < n; i++) { ptrs[i] = mm_malloc(size); assert(ptrs[i] != NULL); }] *)
Fixpoint malloc_asserted (n : nat) (size : Z) (st : state) : option (list Z * state) :=
  match n with
  | O => Some ([], st)
  | S n' =>
      let '(p, st) := mm_malloc size st in
      if p =? NULL then None
      else
        match malloc_asserted n' size st with
        | Some (ps, st) => Some (p :: ps, st)
        | None => None
        end
  end.

Definition test_same_size_allocations (sbrk_ret : Z) (st : state) : option state :=
  let st := snd (mm_init 1024 sbrk_ret st) in
  match malloc_asserted 5 128 st with
  | Some (ptrs, st) => Some (mm_cleanup (frees ptrs st))
  | None => None
  end.


(** [main] without arguments: the seven tests in turn, each on the state
    the previous one left; [b1] ... [b7] are what the successive calls of
    [sbrk] return. *)
Definition main_all (b1 b2 b3 b5 b6 b7 : Z) (m : memory) : option state :=
  st ← test_basic_allocation b1 (initial_state m);
  st ← test_realloc b2 st;
  st ← test_free_and_coalesce b3 st;
  st ← test_zero_allocation st;
  st ← test_exact_size_allocation b5 st;
  st ← test_same_size_allocations b6 st;
  test_memory_pattern b7 st.

(** * Properties *)

(** ** Memory: reads after writes *)

Lemma store8_same (m : memory) (a v : Z) : store8 m a v a = v mod 256.
Proof. unfold store8. now rewrite Z.eqb_refl. Qed.

Lemma store8_other (m : memory) (a v x : Z) : x <> a -> store8 m a v x = m x.
Proof. intros Hx. unfold store8. destruct (Z.eqb_spec x a); [contradiction | reflexivity]. Qed.

Lemma store64_other (m : memory) (a v x : Z) :
  x < a \/ a + 8 <= x -> store64 m a v x = m x.
Proof.
  intros Hx. unfold store64.
  destruct (Z.leb_spec a x), (Z.ltb_spec x (a + 8)); simpl; try reflexivity; lia.
Qed.

Lemma store64_in (m : memory) (a v x : Z) :
  a <= x < a + 8 -> store64 m a v x = (v / 256 ^ (x - a)) mod 256.
Proof.
  intros Hx. unfold store64.
  destruct (Z.leb_spec a x), (Z.ltb_spec x (a + 8)); simpl; try reflexivity; lia.
Qed.

Lemma memset_in (m : memory) (p c n x : Z) :
  p <= x < p + n -> memset m p c n x = c mod 256.
Proof.
  intros Hx. unfold memset.
  destruct (Z.leb_spec p x), (Z.ltb_spec x (p + n)); simpl; try reflexivity; lia.
Qed.

Lemma memset_other (m : memory) (p c n x : Z) :
  x < p \/ p + n <= x -> memset m p c n x = m x.
Proof.
  intros Hx. unfold memset.
  destruct (Z.leb_spec p x), (Z.ltb_spec x (p + n)); simpl; try reflexivity; lia.
Qed.


Lemma memcpy_other (m : memory) (dst src n x : Z) :
  x < dst \/ dst + n <= x -> memcpy m dst src n x = m x.
Proof.
  intros Hx. unfold memcpy.
  destruct (Z.leb_spec dst x), (Z.ltb_spec x (dst + n)); simpl; try reflexivity; lia.
Qed.

(** A little-endian load only depends on the bytes it covers. *)
Lemma load_le_ext (n : nat) (m m' : memory) (a : Z) :
  (forall x, a <= x < a + Z.of_nat n -> m' x = m x) ->
  load_le n m' a = load_le n m a.
Proof.
  revert a. induction n as [|n IH]; intros a Hx; [reflexivity|].
  cbn [load_le]. unfold load8. rewrite Hx by lia. rewrite IH; [reflexivity|].
  intros x Hr. apply Hx. lia.
Qed.

Lemma load64_ext (m m' : memory) (a : Z) :
  (forall x, a <= x < a + 8 -> m' x = m x) -> load64 m' a = load64 m a.
Proof. intros Hx. unfold load64. apply load_le_ext. intros x Hr. apply Hx. lia. Qed.

Lemma load8_ext (m m' : memory) (a : Z) : m' a = m a -> load8 m' a = load8 m a.
Proof. unfold load8. now intros ->. Qed.

Lemma load_le_range (n : nat) (m : memory) (a : Z) :
  0 <= load_le n m a < 256 ^ Z.of_nat n.
Proof.
  revert a. induction n as [|n IH]; intros a.
  - cbn. lia.
  - cbn [load_le]. rewrite Nat2Z.inj_succ, Z.pow_succ_r by lia.
    specialize (IH (a + 1)). unfold load8.
    pose proof (Z.mod_pos_bound (m a) 256). lia.
Qed.

Lemma load64_range (m : memory) (a : Z) : 0 <= load64 m a < SIZE_MAX_PLUS_1.
Proof. exact (load_le_range 8 m a). Qed.

(** Reading back the bytes of a 64-bit store, from byte [k] on. *)
Lemma load_le_store64 (n : nat) (m : memory) (a v k : Z) :
  0 <= k -> k + Z.of_nat n <= 8 ->
  load_le n (store64 m a v) (a + k) = (v / 256 ^ k) mod 256 ^ Z.of_nat n.
Proof.
  revert k. induction n as [|n IH]; intros k Hk Hn.
  - cbn. now rewrite Z.mod_1_r.
  - cbn [load_le]. unfold load8. rewrite store64_in by lia.
    replace (a + k + 1) with (a + (k + 1)) by lia. rewrite IH by lia.
    replace (a + k - a) with k by lia.
    rewrite Nat2Z.inj_succ, Z.pow_succ_r by lia.
    rewrite Z.pow_add_r, Z.pow_1_r by lia.
    rewrite <- Z.div_div by lia.
    rewrite Z.mod_mod by lia.
    rewrite (Z.rem_mul_r (v / 256 ^ k) 256 (256 ^ Z.of_nat n)) by lia.
    reflexivity.
Qed.

Lemma load64_store64_same (m : memory) (a v : Z) :
  load64 (store64 m a v) a = wrap v.
Proof.
  unfold load64. replace a with (a + 0) at 2 by lia.
  rewrite load_le_store64 by lia. now rewrite Z.div_1_r.
Qed.

Lemma load64_store64_other (m : memory) (a b v : Z) :
  b + 8 <= a \/ a + 8 <= b -> load64 (store64 m a v) b = load64 m b.
Proof. intros H. apply load64_ext. intros x Hx. apply store64_other. lia. Qed.

Lemma load64_store8_other (m : memory) (a b v : Z) :
  a < b \/ b + 8 <= a -> load64 (store8 m a v) b = load64 m b.
Proof. intros H. apply load64_ext. intros x Hx. apply store8_other. lia. Qed.

Lemma wrap_small (z : Z) : 0 <= z < SIZE_MAX_PLUS_1 -> wrap z = z.
Proof. intros H. unfold wrap. now apply Z.mod_small. Qed.

Lemma wrap_range (z : Z) : 0 <= wrap z < SIZE_MAX_PLUS_1.
Proof. unfold wrap. apply Z.mod_pos_bound. reflexivity. Qed.

(** The header fields. *)
Lemma block_size_range (m : memory) (b : Z) : 0 <= block_size m b < SIZE_MAX_PLUS_1.
Proof. apply load64_range. Qed.

Lemma block_size_ext (m m' : memory) (b : Z) :
  (forall x, b <= x < b + 8 -> m' x = m x) -> block_size m' b = block_size m b.
Proof.
  intros H. unfold block_size, OFF_SIZE. apply load64_ext. intros x Hx. apply H. lia.
Qed.

Lemma block_is_free_ext (m m' : memory) (b : Z) :
  m' (b + 8) = m (b + 8) -> block_is_free m' b = block_is_free m b.
Proof. intros H. unfold block_is_free, OFF_IS_FREE, load8. now rewrite H. Qed.

Lemma block_size_set_size (m : memory) (b v : Z) :
  block_size (set_size m b v) b = wrap v.
Proof. unfold block_size, set_size. apply load64_store64_same. Qed.

Lemma block_is_free_set_is_free (m : memory) (b : Z) (v : bool) :
  block_is_free (set_is_free m b v) b = v.
Proof.
  unfold block_is_free, set_is_free, load8. rewrite store8_same. now destruct v.
Qed.

Lemma set_size_other (m : memory) (b v x : Z) :
  x < b \/ b + 8 <= x -> set_size m b v x = m x.
Proof. intros H. unfold set_size, OFF_SIZE. apply store64_other. lia. Qed.

Lemma set_is_free_other (m : memory) (b : Z) (v : bool) (x : Z) :
  x <> b + 8 -> set_is_free m b v x = m x.
Proof. intros H. unfold set_is_free, OFF_IS_FREE. now apply store8_other. Qed.

Lemma set_next_other (m : memory) (b v x : Z) :
  x < b + 16 \/ b + 24 <= x -> set_next m b v x = m x.
Proof. intros H. unfold set_next, OFF_NEXT. apply store64_other. lia. Qed.

(** ** Alignment *)

Lemma ALIGN_1_eq : ALIGN_1 = 8.
Proof. reflexivity. Qed.

Lemma land_mask_eq (x : Z) :
  0 <= x < SIZE_MAX_PLUS_1 -> Z.land x (SIZE_MAX_PLUS_1 - 8) = 8 * (x / 8).
Proof.
  intros Hx.
  replace (SIZE_MAX_PLUS_1 - 8) with (Z.ldiff (Z.ones 64) (Z.ones 3)) by reflexivity.
  rewrite Z.ldiff_land, Z.land_assoc, Z.land_ones by lia.
  rewrite Z.mod_small by exact Hx.
  rewrite <- Z.ldiff_land, Z.ldiff_ones_r by lia.
  rewrite Z.shiftl_mul_pow2, Z.shiftr_div_pow2 by lia.
  change (2 ^ 3) with 8. lia.
Qed.

Lemma ALIGN_eq (s : Z) : ALIGN s = 8 * (wrap (s + 7) / 8).
Proof. unfold ALIGN. apply land_mask_eq, wrap_range. Qed.

Lemma ALIGN_range (s : Z) : 0 <= ALIGN s < SIZE_MAX_PLUS_1.
Proof.
  rewrite ALIGN_eq. pose proof (wrap_range (s + 7)) as Hw.
  Z.div_mod_to_equations. lia.
Qed.

(** Without wrap-around the aligned size is the request rounded up. *)
Lemma ALIGN_bounds (s : Z) :
  0 <= s -> s + 7 < SIZE_MAX_PLUS_1 -> s <= ALIGN s < s + 8.
Proof.
  intros H0 H1. rewrite ALIGN_eq, wrap_small by lia.
  Z.div_mod_to_equations. lia.
Qed.

(** ** The heap array: every operation permutes the live entries *)

Lemma length_swap (h : list Z) (i j : nat) : length (swap h i j) = length h.
Proof. unfold swap. now rewrite !length_insert. Qed.

Lemma swap_perm (h : list Z) (i j : nat) :
  (i < length h)%nat -> (j < length h)%nat -> swap h i j ≡ₚ h.
Proof.
  intros Hi Hj. unfold swap.
  apply Permutation_insert_swap; now apply list_lookup_lookup_total_lt.
Qed.

Lemma half_le (i : nat) : ((i - 1) / 2 <= i)%nat.
Proof.
  transitivity (i - 1)%nat; [|lia].
  apply Nat.Div0.div_le_upper_bound. lia.
Qed.

Lemma half_lt (i : nat) : (0 < i)%nat -> ((i - 1) / 2 < i)%nat.
Proof.
  intros Hi. apply Nat.le_lt_trans with (i - 1)%nat; [|lia].
  apply Nat.Div0.div_le_upper_bound. lia.
Qed.

Lemma heapify_up_loop_perm (fuel : nat) (m : memory) (h : list Z) (index : nat) :
  (index < length h)%nat -> heapify_up_loop fuel m h index ≡ₚ h.
Proof.
  revert h index. induction fuel as [|fuel IH]; intros h index Hi; [reflexivity|].
  cbn [heapify_up_loop].
  destruct (0 <? index)%nat; [|reflexivity].
  destruct (block_size m (h !!! index) <? block_size m (h !!! ((index - 1) / 2)%nat));
    [|reflexivity].
  pose proof (half_le index) as Hp.
  rewrite IH by (rewrite length_swap; lia).
  apply swap_perm; lia.
Qed.

Lemma heapify_up_perm (m : memory) (h : list Z) (index : nat) :
  (index < length h)%nat -> heapify_up m h index ≡ₚ h.
Proof. apply heapify_up_loop_perm. Qed.

Lemma heapify_down_rec_perm (fuel : nat) (m : memory) (h : list Z) (index : nat) :
  heapify_down_rec fuel m h index ≡ₚ h.
Proof.
  revert h index. induction fuel as [|fuel IH]; intros h index; [reflexivity|].
  cbn [heapify_down_rec].
  match goal with |- context [Nat.eqb ?s index] =>
    assert (Hs : s = index \/ (s < length h /\ index < length h)%nat);
    [|destruct (Nat.eqb_spec s index) as [|Hne]; [reflexivity|]]
  end.
  { repeat match goal with |- context [if ?c then _ else _] => destruct c eqn:? end;
      repeat match goal with
             | H : _ && _ = true |- _ => apply andb_true_iff in H; destruct H as [H _]
             | H : (_ <? _)%nat = true |- _ => apply Nat.ltb_lt in H
             end; lia. }
  destruct Hs as [|[? ?]]; [contradiction|].
  rewrite IH. now apply swap_perm.
Qed.

Lemma heapify_down_perm (m : memory) (h : list Z) (index : nat) :
  heapify_down m h index ≡ₚ h.
Proof. apply heapify_down_rec_perm. Qed.

Lemma take_last_into_perm (h : list Z) (i : nat) :
  (i < length h)%nat -> h !!! i :: take_last_into h i ≡ₚ h.
Proof.
  intros Hi. unfold take_last_into.
  destruct h as [|x0 h0] using rev_ind; [simpl in Hi; lia|]. clear IHh0.
  rewrite length_app in *. cbn [length] in *.
  assert (Hlast : (h0 ++ [x0]) !!! (length h0 + 1 - 1)%nat = x0).
  { replace (length h0 + 1 - 1)%nat with (length h0) by lia.
    rewrite lookup_total_app_r, Nat.sub_diag by lia. reflexivity. }
  rewrite Hlast.
  destruct (Nat.eq_dec i (length h0)) as [->|Hne].
  - rewrite list_insert_id by (rewrite lookup_app_r, Nat.sub_diag by lia; reflexivity).
    rewrite removelast_last, lookup_total_app_r, Nat.sub_diag by lia.
    cbn. apply Permutation_cons_append.
  - assert (Hlt : (i < length h0)%nat) by lia.
    rewrite insert_app_l, removelast_last, lookup_total_app_l by lia.
    rewrite insert_take_drop by lia.
    rewrite <- (take_drop_middle h0 i (h0 !!! i)) at 4
      by now apply list_lookup_lookup_total_lt.
    rewrite <- (Permutation_cons_append _ x0), <- !Permutation_middle.
    apply perm_swap.
Qed.

Lemma length_take_last_into (h : list Z) (i : nat) :
  length (take_last_into h i) = (length h - 1)%nat.
Proof.
  unfold take_last_into.
  destruct h as [|x0 h0] using rev_ind; [reflexivity|]. clear IHh0.
  destruct (Nat.lt_ge_cases i (length h0)).
  - rewrite insert_app_l, removelast_last, length_insert, length_app by lia. simpl. lia.
  - destruct (Nat.eq_dec i (length h0)) as [->|Hne].
    + replace (length h0) with (length h0 + 0)%nat at 1 by lia.
      rewrite insert_app_r. cbn. rewrite removelast_last, length_app. simpl. lia.
    + rewrite list_insert_ge by (rewrite length_app; simpl; lia).
      rewrite removelast_last, length_app. simpl. lia.
Qed.

(** ** [heap_insert] and [heap_extract_min] *)

Lemma heap_insert_mem (st : state) (b : Z) : mem (heap_insert st b) = mem st.
Proof. unfold heap_insert. now destruct (_ <=? _)%nat. Qed.

Lemma heap_insert_heap_start (st : state) (b : Z) :
  heap_start (heap_insert st b) = heap_start st.
Proof. unfold heap_insert. now destruct (_ <=? _)%nat. Qed.

Lemma heap_insert_heap_size (st : state) (b : Z) :
  heap_size (heap_insert st b) = heap_size st.
Proof. unfold heap_insert. now destruct (_ <=? _)%nat. Qed.

Lemma heap_insert_full (st : state) (b : Z) :
  (MAX_HEAP_SIZE <= heap_count st)%nat -> heap_insert st b = st.
Proof.
  intros H. unfold heap_insert.
  destruct (Nat.leb_spec MAX_HEAP_SIZE (heap_count st)); [reflexivity | lia].
Qed.

Lemma heap_insert_perm (st : state) (b : Z) :
  (heap_count st < MAX_HEAP_SIZE)%nat -> heap (heap_insert st b) ≡ₚ b :: heap st.
Proof.
  intros H. unfold heap_insert.
  destruct (Nat.leb_spec MAX_HEAP_SIZE (heap_count st)); [lia|].
  cbn [heap with_heap]. unfold heap_count.
  rewrite heapify_up_perm by (rewrite length_app; simpl; lia).
  symmetry. apply Permutation_cons_append.
Qed.

Lemma heap_insert_elem (st : state) (b x : Z) :
  x ∈ heap (heap_insert st b) -> x = b \/ x ∈ heap st.
Proof.
  destruct (Nat.lt_ge_cases (heap_count st) MAX_HEAP_SIZE) as [Hlt|Hge].
  - rewrite heap_insert_perm by exact Hlt. intros Hx.
    apply elem_of_cons in Hx. exact Hx.
  - rewrite heap_insert_full by exact Hge. now right.
Qed.

Lemma heap_insert_keeps (st : state) (b x : Z) :
  x ∈ heap st -> x ∈ heap (heap_insert st b).
Proof.
  intros Hx.
  destruct (Nat.lt_ge_cases (heap_count st) MAX_HEAP_SIZE) as [Hlt|Hge].
  - rewrite heap_insert_perm by exact Hlt. now apply elem_of_cons; right.
  - now rewrite heap_insert_full by exact Hge.
Qed.

Lemma heap_extract_min_empty (st : state) :
  heap st = [] -> heap_extract_min st = (NULL, st).
Proof. intros H. unfold heap_extract_min. now rewrite H. Qed.

Lemma heap_extract_min_cons (st : state) (b : Z) (rest : list Z) :
  heap st = b :: rest ->
  fst (heap_extract_min st) = b /\
  mem (snd (heap_extract_min st)) = mem st /\
  heap_start (snd (heap_extract_min st)) = heap_start st /\
  heap_size (snd (heap_extract_min st)) = heap_size st /\
  heap (snd (heap_extract_min st)) ≡ₚ rest.
Proof.
  intros H. unfold heap_extract_min. rewrite H. cbn [fst snd mem heap with_heap].
  repeat split; try reflexivity.
  rewrite heapify_down_perm.
  apply (Permutation_cons_inv (a := b)).
  change b with ((b :: rest) !!! 0%nat) at 1.
  apply take_last_into_perm. simpl. lia.
Qed.

(** ** [mm_malloc], case by case *)

Lemma mm_malloc_zero (st : state) : mm_malloc 0 st = (NULL, st).
Proof. reflexivity. Qed.

Lemma mm_malloc_empty (s : Z) (st : state) :
  heap st = [] -> mm_malloc s st = (NULL, st).
Proof.
  intros H. unfold mm_malloc. destruct (s =? 0); [reflexivity|].
  now rewrite heap_extract_min_empty.
Qed.

Lemma mm_malloc_too_small (s : Z) (st : state) (b : Z) (rest : list Z) :
  s <> 0 -> heap st = b :: rest -> block_size (mem st) b < ALIGN s ->
  mm_malloc s st = (NULL, snd (heap_extract_min st)).
Proof.
  intros Hs Hh Hlt. unfold mm_malloc.
  destruct (Z.eqb_spec s 0); [contradiction|].
  destruct (heap_extract_min_cons st b rest Hh) as (Hb & Hm & _).
  destruct (heap_extract_min st) as [b' st1]. cbn [fst snd] in *. subst b'.
  rewrite Hm. destruct (Z.ltb_spec (block_size (mem st) b) (ALIGN s)); [|lia].
  now rewrite orb_true_r.
Qed.

Lemma mm_malloc_no_split (s : Z) (st : state) (b : Z) (rest : list Z) :
  s <> 0 -> heap st = b :: rest -> b <> NULL ->
  ALIGN s <= block_size (mem st) b ->
  block_size (mem st) b < wrap (wrap (ALIGN s + SIZEOF_BLOCK) + ALIGN_1) ->
  mm_malloc s st =
    (b + SIZEOF_BLOCK,
     with_mem (snd (heap_extract_min st)) (mem_after_take (mem st) b (ALIGN s))).
Proof.
  intros Hs Hh Hb Hge Hlt. unfold mm_malloc.
  destruct (Z.eqb_spec s 0); [contradiction|].
  destruct (heap_extract_min_cons st b rest Hh) as (Hb' & Hm & _).
  destruct (heap_extract_min st) as [b' st1]. cbn [fst snd] in *. subst b'.
  rewrite Hm.
  destruct (Z.eqb_spec b NULL); [contradiction|].
  destruct (Z.ltb_spec (block_size (mem st) b) (ALIGN s)); [lia|]. cbn [orb].
  destruct (Z.leb_spec (wrap (wrap (ALIGN s + SIZEOF_BLOCK) + ALIGN_1))
              (block_size (mem st) b)); [lia|].
  now rewrite Hm.
Qed.

Lemma mm_malloc_split (s : Z) (st : state) (b : Z) (rest : list Z) :
  s <> 0 -> heap st = b :: rest -> b <> NULL ->
  ALIGN s <= block_size (mem st) b ->
  wrap (wrap (ALIGN s + SIZEOF_BLOCK) + ALIGN_1) <= block_size (mem st) b ->
  mm_malloc s st =
    (b + SIZEOF_BLOCK,
     with_mem
       (heap_insert
          (with_mem (snd (heap_extract_min st)) (mem_after_carve (mem st) b (ALIGN s)))
          (b + SIZEOF_BLOCK + ALIGN s))
       (mem_after_take (set_size (mem_after_carve (mem st) b (ALIGN s)) b (ALIGN s))
          b (ALIGN s))).
Proof.
  intros Hs Hh Hb Hge Hthr. unfold mm_malloc.
  destruct (Z.eqb_spec s 0); [contradiction|].
  destruct (heap_extract_min_cons st b rest Hh) as (Hb' & Hm & _).
  destruct (heap_extract_min st) as [b' st1]. cbn [fst snd] in *. subst b'.
  rewrite Hm.
  destruct (Z.eqb_spec b NULL); [contradiction|].
  destruct (Z.ltb_spec (block_size (mem st) b) (ALIGN s)); [lia|]. cbn [orb].
  destruct (Z.leb_spec (wrap (wrap (ALIGN s + SIZEOF_BLOCK) + ALIGN_1))
              (block_size (mem st) b)); [|lia].
  cbn [mem with_mem]. rewrite heap_insert_mem. cbn [mem with_mem].
  reflexivity.
Qed.

Ltac consts :=
  rewrite ?ALIGN_1_eq in *;
  unfold MIN_BLOCK_SIZE, SIZEOF_BLOCK, OFF_IS_FREE, OFF_SIZE, OFF_NEXT, NULL in *.

(** Peel the writes that do not reach the address being read. *)
Ltac frame :=
  repeat first
    [ rewrite memset_other by lia
    | rewrite memcpy_other by lia
    | rewrite set_is_free_other by lia
    | rewrite set_size_other by lia
    | rewrite set_next_other by lia ].

(** The split threshold, when it is representable in [size_t]. *)
Lemma split_threshold_exact (a : Z) :
  0 <= a -> a + SIZEOF_BLOCK + ALIGN_1 < SIZE_MAX_PLUS_1 ->
  wrap (wrap (a + SIZEOF_BLOCK) + ALIGN_1) = a + SIZEOF_BLOCK + ALIGN_1.
Proof.
  intros H0 H1. consts. rewrite (wrap_small (a + 24)) by lia. apply wrap_small. lia.
Qed.

Lemma remainder_size_exact (old a : Z) :
  a + SIZEOF_BLOCK <= old -> 0 <= a -> old < SIZE_MAX_PLUS_1 ->
  wrap (wrap (old - a) - SIZEOF_BLOCK) = old - a - SIZEOF_BLOCK.
Proof.
  intros H0 H1 H2. consts. rewrite (wrap_small (old - a)) by lia. apply wrap_small. lia.
Qed.

(** C4: the split rule of [mm_malloc].  When the extracted block has at least
    [ALIGN s + sizeof(Block) + ALIGN(1)] payload bytes it is split: its size
    becomes [ALIGN s], a header is written [sizeof(Block) + ALIGN s] bytes
    after its own with size [old - ALIGN s - sizeof(Block)], flagged free, and
    that address joins the index.  When the block fits the request but is
    below the threshold, nothing is carved: the size field keeps its value,
    the index only loses the extracted entry, and the only bytes written are
    the [is_free] flag and the zeroed payload prefix. *)
Theorem mm_malloc_split_rule (st : state) (s block : Z) (rest : list Z) :
  0 < s < SIZE_MAX_PLUS_1 ->
  heap st = block :: rest ->
  (heap_count st <= MAX_HEAP_SIZE)%nat ->
  block <> NULL ->
  ALIGN s <= block_size (mem st) block ->
  ALIGN s + SIZEOF_BLOCK + ALIGN_1 < SIZE_MAX_PLUS_1 ->
  let a := ALIGN s in
  let old := block_size (mem st) block in
  let st' := snd (mm_malloc s st) in
  fst (mm_malloc s st) = block + SIZEOF_BLOCK /\
  (a + SIZEOF_BLOCK + ALIGN_1 <= old ->
     block_size (mem st') block = a /\
     block_size (mem st') (block + SIZEOF_BLOCK + a) = old - a - SIZEOF_BLOCK /\
     block_is_free (mem st') (block + SIZEOF_BLOCK + a) = true /\
     heap st' ≡ₚ (block + SIZEOF_BLOCK + a) :: rest) /\
  (old < a + SIZEOF_BLOCK + ALIGN_1 ->
     block_size (mem st') block = old /\
     heap st' ≡ₚ rest /\
     forall x, x <> block + OFF_IS_FREE ->
               ~ (block + SIZEOF_BLOCK <= x < block + SIZEOF_BLOCK + a) ->
               mem st' x = mem st x).
Proof.
  intros Hs Hh Hcnt Hb Hfit Hno a old st'.
  pose proof (ALIGN_range s) as Ha. fold a in Ha, Hfit, Hno.
  pose proof (block_size_range (mem st) block) as Hold. fold old in Hold, Hfit.
  pose proof (split_threshold_exact a ltac:(lia) Hno) as Hthr.
  destruct (heap_extract_min_cons st block rest Hh) as (_ & Hm1 & _ & _ & Hperm).
  destruct (Z.le_gt_cases (a + SIZEOF_BLOCK + ALIGN_1) old) as [Hsplit|Hsmall].
  - (* split *)
    assert (Heq := mm_malloc_split s st block rest ltac:(lia) Hh Hb Hfit
                     ltac:(fold a old; lia)).
    fold a in Heq. subst st'. rewrite Heq. cbn [fst snd mem with_mem heap].
    split; [reflexivity|]. split; [|intros; exfalso; lia]. intros _.
    assert (Hrem := remainder_size_exact old a).
    unfold mem_after_take, mem_after_carve. consts. fold old.
    repeat split.
    + rewrite (block_size_ext
                 (set_size
                    (set_is_free
                       (set_size (mem st) (block + 24 + a) (wrap (wrap (old - a) - 24)))
                       (block + 24 + a) true)
                    block a))
        by (intros; now frame).
      rewrite block_size_set_size. apply wrap_small. lia.
    + rewrite (block_size_ext
                 (set_size (mem st) (block + 24 + a) (wrap (wrap (old - a) - 24))))
        by (intros; now frame).
      rewrite block_size_set_size, wrap_small by apply wrap_range. apply Hrem; lia.
    + rewrite (block_is_free_ext
                 (set_is_free
                    (set_size (mem st) (block + 24 + a) (wrap (wrap (old - a) - 24)))
                    (block + 24 + a) true))
        by now frame.
      apply block_is_free_set_is_free.
    + unfold with_mem at 1. cbn [heap]. rewrite heap_insert_perm.
      * cbn [heap with_mem]. now rewrite Hperm.
      * unfold heap_count in *. cbn [heap with_mem]. rewrite Hperm.
        rewrite Hh in Hcnt. simpl in Hcnt. lia.
  - (* no split *)
    assert (Heq := mm_malloc_no_split s st block rest ltac:(lia) Hh Hb Hfit
                     ltac:(fold a old; lia)).
    fold a in Heq. subst st'. rewrite Heq. cbn [fst snd mem with_mem heap].
    split; [reflexivity|]. split; [intros; exfalso; lia|]. intros _.
    unfold mem_after_take. consts. repeat split.
    + apply block_size_ext. intros. now frame.
    + exact Hperm.
    + intros x Hx1 Hx2. now frame.
Qed.

Lemma mm_malloc_null_root (s : Z) (st : state) (rest : list Z) :
  heap st = NULL :: rest -> fst (mm_malloc s st) = NULL.
Proof.
  intros Hh. unfold mm_malloc. destruct (s =? 0); [reflexivity|].
  destruct (heap_extract_min_cons st NULL rest Hh) as (Hb & _).
  destruct (heap_extract_min st) as [b' st1]. cbn [fst] in Hb. subst b'.
  reflexivity.
Qed.


(** ** [mm_init] *)

Lemma mm_init_too_small (cap base : Z) (st : state) :
  cap < SIZEOF_BLOCK -> mm_init cap base st = (InitTooSmall, st).
Proof.
  intros H. unfold mm_init, MIN_BLOCK_SIZE.
  destruct (Z.ltb_spec cap SIZEOF_BLOCK); [reflexivity | lia].
Qed.

Lemma mm_init_sbrk_failed (cap : Z) (st : state) :
  SIZEOF_BLOCK <= cap ->
  mm_init cap SBRK_FAILED st =
    (InitSbrkFailed, mkState (mem st) SBRK_FAILED (heap_size st) (heap st)).
Proof.
  intros H. unfold mm_init, MIN_BLOCK_SIZE.
  destruct (Z.ltb_spec cap SIZEOF_BLOCK); [lia | reflexivity].
Qed.

(** The memory after [mm_init] has written the first header. *)
Lemma mm_init_ok (cap base : Z) (st : state) :
  SIZEOF_BLOCK <= cap -> base <> SBRK_FAILED ->
  mm_init cap base st =
    (InitOk,
     heap_insert
       (mkState
          (set_next (set_is_free (set_size (mem st) base (wrap (cap - SIZEOF_BLOCK)))
                       base true) base NULL)
          base cap (heap st))
       base).
Proof.
  intros H Hb. unfold mm_init, MIN_BLOCK_SIZE.
  destruct (Z.ltb_spec cap SIZEOF_BLOCK); [lia|].
  cbn [heap_start]. destruct (Z.eqb_spec base SBRK_FAILED); [contradiction|].
  reflexivity.
Qed.

Lemma init_header_size (m : memory) (base v : Z) :
  0 <= v < SIZE_MAX_PLUS_1 ->
  block_size (set_next (set_is_free (set_size m base v) base true) base NULL) base = v.
Proof.
  intros Hv.
  rewrite (block_size_ext (set_size m base v)) by (intros; consts; now frame).
  rewrite block_size_set_size. now apply wrap_small.
Qed.

Lemma init_header_free (m : memory) (base v : Z) :
  block_is_free (set_next (set_is_free (set_size m base v) base true) base NULL) base
  = true.
Proof.
  rewrite (block_is_free_ext (set_is_free (set_size m base v) base true))
    by (consts; now frame).
  apply block_is_free_set_is_free.
Qed.

(** A successful [mm_init] on a fresh allocator. *)
Lemma mm_init_from_fresh (m : memory) (capacity base : Z) :
  SIZEOF_BLOCK <= capacity < SIZE_MAX_PLUS_1 -> base <> SBRK_FAILED ->
  let r := mm_init capacity base (initial_state m) in
  fst r = InitOk /\
  heap_start (snd r) = base /\ heap_size (snd r) = capacity /\
  heap (snd r) = [base] /\
  block_size (mem (snd r)) base = capacity - SIZEOF_BLOCK /\
  block_is_free (mem (snd r)) base = true.
Proof.
  intros Hcap Hb r. subst r. rewrite mm_init_ok by (trivial; lia). cbn [fst snd].
  rewrite heap_insert_mem, heap_insert_heap_start, heap_insert_heap_size.
  cbn [mem heap_start heap_size initial_state].
  repeat split.
  - rewrite init_header_size; [|apply wrap_range].
    apply wrap_small. consts. lia.
  - apply init_header_free.
Qed.

(** C8, as amended: on a fresh allocator [mm_init] reports [InitTooSmall]
    exactly when the capacity is below [sizeof(Block)], and then leaves the
    allocator as it was (no arena, empty index).  For any capacity of at
    least [sizeof(Block)] (and a successful [sbrk]) the arena is exactly
    [capacity] bytes at the address [sbrk] returned, its first header has
    payload size [capacity - sizeof(Block)] and is flagged free, and that
    block is the only entry of the index. *)
Theorem mm_init_fresh (m : memory) (capacity base : Z) :
  0 <= capacity < SIZE_MAX_PLUS_1 ->
  let r := mm_init capacity base (initial_state m) in
  (fst r = InitTooSmall <-> capacity < SIZEOF_BLOCK) /\
  (capacity < SIZEOF_BLOCK -> snd r = initial_state m) /\
  (SIZEOF_BLOCK <= capacity -> base <> SBRK_FAILED ->
     fst r = InitOk /\
     heap_start (snd r) = base /\ heap_size (snd r) = capacity /\
     heap (snd r) = [base] /\
     block_size (mem (snd r)) base = capacity - SIZEOF_BLOCK /\
     block_is_free (mem (snd r)) base = true).
Proof.
  intros Hcap r. subst r.
  destruct (Z.lt_ge_cases capacity SIZEOF_BLOCK) as [Hlt|Hge].
  - rewrite mm_init_too_small by exact Hlt. cbn [fst snd].
    repeat split; try tauto; try lia.
  - split; [|split; [lia|]].
    + split; [|lia]. intros Hst. exfalso.
      destruct (Z.eq_dec base SBRK_FAILED) as [->|Hb].
      * rewrite mm_init_sbrk_failed in Hst by lia. discriminate.
      * rewrite mm_init_ok in Hst by (trivial; lia). discriminate.
    + intros _ Hb. apply mm_init_from_fresh; [lia | exact Hb].
Qed.

(** C7: after [mm_init(1024)] on a fresh allocator, allocating
    [1024 - mm_metadata_size()] bytes succeeds and returns the address right
    after the first header; an immediately following [mm_malloc(1)] returns
    [NULL]. *)
Theorem exact_capacity_scenario (m : memory) (base : Z) :
  0 < base -> base <> SBRK_FAILED ->
  let st0 := snd (mm_init 1024 base (initial_state m)) in
  let r1 := mm_malloc (1024 - mm_metadata_size) st0 in
  fst (mm_init 1024 base (initial_state m)) = InitOk /\
  fst r1 = base + SIZEOF_BLOCK /\
  fst r1 <> NULL /\
  fst (mm_malloc 1 (snd r1)) = NULL.
Proof.
  intros Hpos Hb st0 r1.
  destruct (mm_init_from_fresh m 1024 base
              ltac:(unfold SIZEOF_BLOCK, SIZE_MAX_PLUS_1; lia) Hb)
    as (Hst & _ & _ & Hh & Hsz & _).
  fold st0 in Hh, Hsz. split; [exact Hst|].
  assert (Heq : r1 = (base + SIZEOF_BLOCK,
                      with_mem (snd (heap_extract_min st0))
                        (mem_after_take (mem st0) base (ALIGN (1024 - mm_metadata_size))))).
  { apply (mm_malloc_no_split _ st0 base []); trivial.
    - discriminate.
    - unfold NULL. lia.
    - rewrite Hsz. discriminate.
    - rewrite Hsz. reflexivity. }
  rewrite Heq. cbn [fst snd]. repeat split.
  - unfold NULL, SIZEOF_BLOCK. lia.
  - rewrite mm_malloc_empty; [reflexivity|]. cbn [heap with_mem].
    destruct (heap_extract_min_cons st0 base [] Hh) as (_ & _ & _ & _ & Hp).
    now apply Permutation_nil_r in Hp.
Qed.

Lemma mm_init_heap_cases (cap base : Z) (st : state) :
  heap (snd (mm_init cap base st)) = heap st \/
  (SIZEOF_BLOCK <= cap /\ base <> SBRK_FAILED /\
   (heap_count st < MAX_HEAP_SIZE)%nat /\
   heap (snd (mm_init cap base st)) ≡ₚ base :: heap st).
Proof.
  destruct (Z.lt_ge_cases cap SIZEOF_BLOCK) as [Hlt|Hge].
  { left. now rewrite mm_init_too_small. }
  destruct (Z.eq_dec base SBRK_FAILED) as [->|Hb].
  { left. now rewrite mm_init_sbrk_failed. }
  rewrite mm_init_ok by trivial. cbn [snd].
  destruct (Nat.lt_ge_cases (heap_count st) MAX_HEAP_SIZE) as [Hc|Hc].
  - right. repeat split; trivial. now rewrite heap_insert_perm.
  - left. now rewrite heap_insert_full.
Qed.

(** C10, as amended: [mm_init] never removes an entry from the index: every
    prior entry is still there afterwards and the count does not decrease.
    When the call succeeds and the index holds fewer than [MAX_HEAP_SIZE]
    entries, the new arena's first block is added to the prior entries; when
    the index already holds [MAX_HEAP_SIZE] entries it is left as it was.
    [mm_cleanup] sets the count to zero. *)
Theorem mm_init_keeps_index (st : state) (capacity base : Z) :
  let st' := snd (mm_init capacity base st) in
  (forall b, b ∈ heap st -> b ∈ heap st') /\
  (heap_count st <= heap_count st')%nat /\
  (SIZEOF_BLOCK <= capacity -> base <> SBRK_FAILED ->
   (heap_count st < MAX_HEAP_SIZE)%nat ->
     heap st' ≡ₚ base :: heap st) /\
  ((MAX_HEAP_SIZE <= heap_count st)%nat -> heap st' = heap st) /\
  heap_count (mm_cleanup st) = 0%nat.
Proof.
  intros st'. subst st'. unfold heap_count.
  assert (Hadd : SIZEOF_BLOCK <= capacity -> base <> SBRK_FAILED ->
                 (length (heap st) < MAX_HEAP_SIZE)%nat ->
                 heap (snd (mm_init capacity base st)) ≡ₚ base :: heap st).
  { intros Hc Hb Hn. rewrite mm_init_ok by trivial. cbn [snd].
    now rewrite heap_insert_perm. }
  destruct (mm_init_heap_cases capacity base st) as [Heq|(Hc & Hb & Hn & Hp)].
  - repeat split; trivial.
    + intros b Hin. now rewrite Heq.
    + now rewrite Heq.
  - repeat split; trivial.
    + intros b Hin. rewrite Hp. now apply elem_of_cons; right.
    + rewrite Hp. simpl. lia.
    + unfold heap_count in Hn. lia.
Qed.

(** ** What a successful [mm_malloc] touches *)


(** ** The coalescing loop *)

Lemma find_merge_some (todo : nat) (st : state) (i j : nat) :
  find_merge todo st i = Some j ->
  (i <= j < i + todo)%nat /\ can_merge st j = true.
Proof.
  revert i. induction todo as [|todo IH]; intros i H; [discriminate|].
  cbn [find_merge] in H. destruct (can_merge st i) eqn:Hc.
  - inversion H; subst. split; [lia | exact Hc].
  - apply IH in H. split; [lia | tauto].
Qed.

Lemma find_merge_none (todo : nat) (st : state) (i : nat) :
  find_merge todo st i = None ->
  forall j, (i <= j < i + todo)%nat -> can_merge st j = false.
Proof.
  revert i. induction todo as [|todo IH]; intros i H j Hj; [lia|].
  cbn [find_merge] in H. destruct (can_merge st i) eqn:Hc; [discriminate|].
  destruct (Nat.eq_dec j i) as [->|Hne]; [exact Hc|].
  apply (IH (S i)); [exact H | lia].
Qed.



Lemma merge_at_mem (st : state) (i : nat) (x : Z) :
  x < heap st !!! i \/ heap st !!! i + 8 <= x ->
  mem (merge_at st i) x = mem st x.
Proof. intros Hx. unfold merge_at. cbn [mem]. now apply set_size_other. Qed.

Lemma merge_at_perm (st : state) (i : nat) :
  (i < heap_count st)%nat ->
  heap st !!! i :: heap (merge_at st i) ≡ₚ heap st.
Proof.
  intros Hi. unfold merge_at. cbn [heap].
  rewrite heapify_down_perm. now apply take_last_into_perm.
Qed.

Lemma merge_at_count (st : state) (i : nat) :
  (i < heap_count st)%nat ->
  heap_count (merge_at st i) = (heap_count st - 1)%nat.
Proof.
  intros Hi. pose proof (merge_at_perm st i Hi) as Hp.
  apply Permutation_length in Hp. unfold heap_count in *. cbn [length] in Hp. lia.
Qed.

Lemma coalesce_heap_start (fuel : nat) (st : state) :
  heap_start (coalesce fuel st) = heap_start st.
Proof.
  revert st. induction fuel as [|fuel IH]; intros st; [reflexivity|].
  cbn [coalesce]. destruct (find_merge _ st 0); [|reflexivity].
  now rewrite IH.
Qed.

Lemma coalesce_heap_size (fuel : nat) (st : state) :
  heap_size (coalesce fuel st) = heap_size st.
Proof.
  revert st. induction fuel as [|fuel IH]; intros st; [reflexivity|].
  cbn [coalesce]. destruct (find_merge _ st 0); [|reflexivity].
  now rewrite IH.
Qed.

(** The loop only ever removes entries. *)
Lemma coalesce_elem (fuel : nat) (st : state) (c : Z) :
  c ∈ heap (coalesce fuel st) -> c ∈ heap st.
Proof.
  revert st. induction fuel as [|fuel IH]; intros st Hc; [exact Hc|].
  cbn [coalesce] in Hc. destruct (find_merge _ st 0) as [i|] eqn:Hf; [|exact Hc].
  apply find_merge_some in Hf. apply IH in Hc.
  rewrite <- (merge_at_perm st i) by lia. now apply elem_of_cons; right.
Qed.

(** The loop only writes size fields of index entries. *)
Lemma coalesce_mem (fuel : nat) (st : state) (x : Z) :
  (forall c, c ∈ heap st -> x < c \/ c + 8 <= x) ->
  mem (coalesce fuel st) x = mem st x.
Proof.
  revert st. induction fuel as [|fuel IH]; intros st Hx; [reflexivity|].
  cbn [coalesce]. destruct (find_merge _ st 0) as [i|] eqn:Hf; [|reflexivity].
  apply find_merge_some in Hf. destruct Hf as [Hi _].
  rewrite IH.
  - apply merge_at_mem, Hx. apply list_elem_of_lookup_total_2. unfold heap_count in Hi. lia.
  - intros c Hc. apply Hx. rewrite <- (merge_at_perm st i) by lia.
    now apply elem_of_cons; right.
Qed.

(** With fuel for every entry, the loop stops because a full pass found
    nothing to merge. *)
Lemma coalesce_done (fuel : nat) (st : state) :
  (heap_count st <= fuel)%nat ->
  find_merge (heap_count (coalesce fuel st)) (coalesce fuel st) 0 = None.
Proof.
  revert st. induction fuel as [|fuel IH]; intros st Hc.
  - cbn [coalesce]. replace (heap_count st) with 0%nat by lia. reflexivity.
  - cbn [coalesce]. destruct (find_merge _ st 0) as [i|] eqn:Hf; [|exact Hf].
    apply find_merge_some in Hf. destruct Hf as [Hi _].
    apply IH. rewrite merge_at_count by lia. lia.
Qed.

(** ** [mm_free] and [mm_realloc] *)

Lemma ptr_add_le (p n : Z) : ptr_add p n <= p + n.
Proof.
  unfold ptr_add, SIZE_MAX_PLUS_1. destruct (Z.ltb_spec (p + n) (2 ^ 64)); lia.
Qed.

Lemma ptr_add_small (p n : Z) : p + n < SIZE_MAX_PLUS_1 -> ptr_add p n = p + n.
Proof. intros H. unfold ptr_add. destruct (Z.ltb_spec (p + n) SIZE_MAX_PLUS_1); lia. Qed.

Lemma ptr_add_large (p n : Z) :
  SIZE_MAX_PLUS_1 <= p + n -> ptr_add p n = p + n - SIZE_MAX_PLUS_1.
Proof. intros H. unfold ptr_add. destruct (Z.ltb_spec (p + n) SIZE_MAX_PLUS_1); lia. Qed.

(** On a pointer and an offset below [2^64], [ptr_add] is addition modulo
    [2^64]. *)
Lemma ptr_add_wrap (p n : Z) :
  0 <= p < SIZE_MAX_PLUS_1 -> 0 <= n < SIZE_MAX_PLUS_1 -> ptr_add p n = wrap (p + n).
Proof.
  intros Hp Hn. unfold ptr_add, wrap. unfold SIZE_MAX_PLUS_1 in *.
  destruct (Z.ltb_spec (p + n) (2 ^ 64)); Z.div_mod_to_equations; lia.
Qed.

Lemma arena_end_le (st : state) : arena_end st <= heap_start st + heap_size st.
Proof. apply ptr_add_le. Qed.

Lemma arena_end_small (st : state) :
  heap_start st + heap_size st < SIZE_MAX_PLUS_1 ->
  arena_end st = heap_start st + heap_size st.
Proof. apply ptr_add_small. Qed.

Lemma next_block_small (m : memory) (c : Z) :
  c + SIZEOF_BLOCK + block_size m c < SIZE_MAX_PLUS_1 ->
  next_block m c = c + SIZEOF_BLOCK + block_size m c.
Proof.
  intros H. pose proof (block_size_range m c). unfold next_block.
  rewrite (ptr_add_small c) by lia. now apply ptr_add_small.
Qed.

Lemma mm_free_valid (ptr : Z) (st : state) :
  ptr <> NULL -> heap_start st <= ptr < arena_end st ->
  let st1 := heap_insert (with_mem st (set_is_free (mem st) (ptr - SIZEOF_BLOCK) true))
               (ptr - SIZEOF_BLOCK) in
  mm_free ptr st = coalesce (heap_count st1) st1.
Proof.
  intros Hp Hr st1. unfold mm_free.
  destruct (Z.eqb_spec ptr NULL); [contradiction|].
  destruct (Z.ltb_spec ptr (heap_start st)); [lia|].
  destruct (Z.leb_spec (arena_end st) ptr); [lia|].
  reflexivity.
Qed.

Lemma mm_free_invalid (ptr : Z) (st : state) :
  ptr = NULL \/ ptr < heap_start st \/ arena_end st <= ptr ->
  mm_free ptr st = st.
Proof.
  intros H. unfold mm_free.
  destruct (Z.eqb_spec ptr NULL); [reflexivity|].
  destruct (Z.ltb_spec ptr (heap_start st)); [reflexivity|].
  destruct (Z.leb_spec (arena_end st) ptr); [reflexivity|].
  exfalso. lia.
Qed.

(** A pointer at or past the integer sum [heap_start + heap_size] is at or
    past the 64-bit bound as well. *)
Lemma mm_free_outside (ptr : Z) (st : state) :
  ptr = NULL \/ ptr < heap_start st \/ heap_start st + heap_size st <= ptr ->
  mm_free ptr st = st.
Proof.
  intros H. apply mm_free_invalid. pose proof (arena_end_le st). lia.
Qed.

(** Entries of the index after [mm_free]: prior entries, or the freed block. *)
Lemma mm_free_elem (ptr : Z) (st : state) (c : Z) :
  c ∈ heap (mm_free ptr st) -> c = ptr - SIZEOF_BLOCK \/ c ∈ heap st.
Proof.
  destruct (Z.eq_dec ptr NULL) as [Hn|Hn].
  { rewrite mm_free_invalid by tauto. tauto. }
  destruct (Z.lt_ge_cases ptr (heap_start st)).
  { rewrite mm_free_invalid by tauto. tauto. }
  destruct (Z.lt_ge_cases ptr (arena_end st)).
  2:{ rewrite mm_free_invalid by tauto. tauto. }
  rewrite mm_free_valid by (trivial; lia). intros Hc.
  apply coalesce_elem, heap_insert_elem in Hc. exact Hc.
Qed.

Lemma mm_realloc_unfold (p s : Z) (st : state) :
  p <> NULL -> s <> 0 -> block_size (mem st) (p - SIZEOF_BLOCK) < s ->
  mm_realloc p s st =
    let '(new_ptr, st1) := mm_malloc s st in
    if negb (new_ptr =? NULL) then
      (new_ptr,
       mm_free p (with_mem st1 (memcpy (mem st1) new_ptr p
                                  (block_size (mem st1) (p - SIZEOF_BLOCK)))))
    else (new_ptr, st1).
Proof.
  intros Hp Hs Hlt. unfold mm_realloc.
  destruct (Z.eqb_spec p NULL); [contradiction|].
  destruct (Z.eqb_spec s 0); [contradiction|].
  destruct (Z.leb_spec s (block_size (mem st) (p - SIZEOF_BLOCK))); [lia|].
  reflexivity.
Qed.



Lemma can_merge_at (st : state) (i : nat) (c : Z) :
  heap st !!! i = c ->
  can_merge st i =
    block_is_free (mem st) c &&
    ((next_block (mem st) c <? arena_end st) &&
     block_is_free (mem st) (next_block (mem st) c)).
Proof. intros <-. unfold can_merge. now destruct (block_is_free _ _). Qed.



(** ** The root of an ordered heap is a smallest entry *)

Lemma heap_ordered_root_min (m : memory) (h : list Z) :
  heap_ordered m h ->
  forall i, (i < length h)%nat -> block_size m (h !!! 0%nat) <= block_size m (h !!! i).
Proof.
  intros Hord i. induction i as [i IH] using lt_wf_ind. intros Hi.
  destruct (Nat.eq_dec i 0) as [->|Hne]; [lia|].
  pose proof (half_lt i ltac:(lia)) as Hp.
  specialize (IH _ Hp ltac:(lia)). specialize (Hord i ltac:(lia)). lia.
Qed.

(** [mm_malloc] fails on a non-zero request exactly when the index is empty
    or its root entry is [NULL] or too small. *)
Lemma mm_malloc_null_iff_root (s : Z) (st : state) :
  0 < s -> (forall b, b ∈ heap st -> 0 <= b) ->
  fst (mm_malloc s st) = NULL <->
  heap st = [] \/
  exists root rest, heap st = root :: rest /\
    (root = NULL \/ block_size (mem st) root < ALIGN s).
Proof.
  intros Hs Hpos. split.
  - intros Hnull. destruct (heap st) as [|root rest] eqn:Hh; [now left|right].
    exists root, rest. split; [reflexivity|].
    destruct (Z.eq_dec root NULL) as [|Hr]; [now left|right].
    destruct (Z.lt_ge_cases (block_size (mem st) root) (ALIGN s)) as [|Hfit]; [assumption|].
    exfalso.
    assert (Hroot : 0 <= root) by (apply Hpos, elem_of_cons; tauto).
    pose proof (heap_extract_min_cons st root rest Hh) as (Hb' & Hm' & _).
    unfold mm_malloc in Hnull.
    destruct (Z.eqb_spec s 0); [lia|].
    destruct (heap_extract_min st) as [b' st1]. cbn [fst snd] in *. subst b'.
    rewrite Hm' in Hnull.
    destruct (Z.eqb_spec root NULL); [contradiction|].
    destruct (Z.ltb_spec (block_size (mem st) root) (ALIGN s)); [lia|].
    cbn [orb fst] in Hnull. unfold NULL, SIZEOF_BLOCK in *. lia.
  - intros [Hh|(root & rest & Hh & [->|Hlt])].
    + now rewrite mm_malloc_empty.
    + now apply mm_malloc_null_root with rest.
    + now rewrite (mm_malloc_too_small s st root rest) by (trivial; lia).
Qed.

(** On an ordered heap without a [NULL] entry, failure means that no entry
    of the index is large enough for the aligned request. *)
Lemma mm_malloc_null_iff_smallest (s : Z) (st : state) :
  0 < s -> (forall b, b ∈ heap st -> 0 < b) ->
  heap_ordered (mem st) (heap st) ->
  fst (mm_malloc s st) = NULL <->
  heap st = [] \/
  exists b, b ∈ heap st /\ block_size (mem st) b < ALIGN s /\
            forall c, c ∈ heap st -> block_size (mem st) b <= block_size (mem st) c.
Proof.
  intros Hs Hpos Hord.
  rewrite mm_malloc_null_iff_root by (trivial; intros b Hb; apply Hpos in Hb; lia).
  split; (intros [Hh|Hex]; [now left|right]).
  - destruct Hex as (root & rest & Hh & [->|Hlt]).
    + exfalso. specialize (Hpos NULL). rewrite Hh in Hpos.
      specialize (Hpos ltac:(apply elem_of_cons; tauto)). unfold NULL in Hpos. lia.
    + exists root. rewrite Hh. split; [apply elem_of_cons; tauto|]. split; [exact Hlt|].
      intros c Hc. apply list_elem_of_lookup_total in Hc. destruct Hc as (i & Hi & <-).
      rewrite <- Hh in *. change root with ((root :: rest) !!! 0%nat).
      rewrite <- Hh. now apply heap_ordered_root_min.
  - destruct Hex as (b & Hb & Hlt & Hmin).
    destruct (heap st) as [|root rest] eqn:Hh; [now apply elem_of_nil in Hb|].
    exists root, rest. split; [reflexivity|]. right.
    specialize (Hmin root ltac:(apply elem_of_cons; tauto)).
    apply list_elem_of_lookup_total in Hb. destruct Hb as (i & Hi & <-).
    rewrite <- Hh in *.
    pose proof (heap_ordered_root_min _ _ Hord i Hi) as Hle.
    assert (Hroot : heap st !!! 0%nat = root) by now rewrite Hh.
    rewrite Hroot in Hle. lia.
Qed.

(** * The scenarios, evaluated *)

Ltac eval_eq := vm_compute; reflexivity.

(** The invariant on a state whose block list and index are known. *)
Lemma index_invariant_intro (st : state) (blocks h : list Z) :
  arena_blocks st = blocks -> heap st = h ->
  Forall (fun b => bool_decide (b ∈ h) = block_is_free (mem st) b) blocks ->
  NoDup h ->
  Forall (fun b => heap_start st <= b < heap_start st + heap_size st) h ->
  index_invariant st.
Proof.
  intros Hb Hh Hflags Hnd Hin. unfold index_invariant. rewrite Hb, Hh.
  split; [|split; [exact Hnd|]].
  - intros b Hbl. rewrite Forall_forall in Hflags. specialize (Hflags b Hbl).
    rewrite <- Hflags. split; [apply bool_decide_eq_true_2 | apply bool_decide_eq_true_1].
  - intros b Hbh. rewrite Forall_forall in Hin. now apply Hin.
Qed.

Lemma index_invariant_refuted (st : state) (b : Z) :
  b ∈ arena_blocks st -> block_is_free (mem st) b = true -> b ∉ heap st ->
  ~ index_invariant st.
Proof. intros Hin Hfree Hnot (Hiff & _ & _). apply Hnot, (Hiff b Hin), Hfree. Qed.

(** Membership in a list that is known by evaluation. *)
Lemma elem_of_evaluated (l l' : list Z) (x : Z) :
  l = l' -> bool_decide (x ∈ l') = true -> x ∈ l.
Proof. intros -> H. now apply bool_decide_eq_true in H. Qed.

Lemma not_elem_of_evaluated (l l' : list Z) (x : Z) :
  l = l' -> bool_decide (x ∈ l') = false -> x ∉ l.
Proof. intros -> H. now apply bool_decide_eq_false in H. Qed.

(** C1: the index invariant holds after [mm_init(1024)], after the two
    allocations [mm_malloc(104)], [mm_malloc(872)] and after [mm_free(p1)],
    but [mm_free(p2)] breaks it: the merged block at the start of the arena
    is flagged free and is not in the index.  A failing [mm_malloc] breaks
    it as well. *)
Theorem index_invariant_broken :
  index_invariant arena_1024 /\
  index_invariant (snd two_blocks) /\
  index_invariant freed_p1 /\
  ~ index_invariant freed_p1_p2 /\
  (4096 ∈ arena_blocks freed_p1_p2 /\
   block_is_free (mem freed_p1_p2) 4096 = true /\
   4096 ∉ heap freed_p1_p2) /\
  ~ index_invariant (snd (mm_malloc 2000 arena_1024)).
Proof.
  assert (Hbroken : 4096 ∈ arena_blocks freed_p1_p2 /\
                    block_is_free (mem freed_p1_p2) 4096 = true /\
                    4096 ∉ heap freed_p1_p2).
  { split; [|split].
    - apply (elem_of_evaluated _ [4096]); eval_eq.
    - eval_eq.
    - apply (not_elem_of_evaluated _ [4224]); eval_eq. }
  split; [|split; [|split; [|split; [|split]]]].
  - apply (index_invariant_intro _ [4096] [4096]).
    + eval_eq.
    + eval_eq.
    + repeat (apply Forall_cons; split; [eval_eq|]). apply Forall_nil_2.
    + apply NoDup_singleton.
    + repeat (apply Forall_cons; split; [vm_compute; split; [discriminate | reflexivity]|]).
      apply Forall_nil_2.
  - apply (index_invariant_intro _ [4096; 4224] []).
    + eval_eq.
    + eval_eq.
    + repeat (apply Forall_cons; split; [eval_eq|]). apply Forall_nil_2.
    + apply NoDup_nil_2.
    + apply Forall_nil_2.
  - apply (index_invariant_intro _ [4096; 4224] [4096]).
    + eval_eq.
    + eval_eq.
    + repeat (apply Forall_cons; split; [eval_eq|]). apply Forall_nil_2.
    + apply NoDup_singleton.
    + repeat (apply Forall_cons; split; [vm_compute; split; [discriminate | reflexivity]|]).
      apply Forall_nil_2.
  - destruct Hbroken as (Hin & Hfree & Hnot).
    exact (index_invariant_refuted _ _ Hin Hfree Hnot).
  - exact Hbroken.
  - apply (index_invariant_refuted _ 4096).
    + apply (elem_of_evaluated _ [4096]); eval_eq.
    + eval_eq.
    + apply (not_elem_of_evaluated _ []); eval_eq.
Qed.

(** C2: [p1 = mm_malloc(104)] and [p2 = mm_malloc(872)] are adjacent and
    fill the arena.  After both are freed, in either order, the header at
    the start of the arena has size [104 + 872 + sizeof(Block)] and is
    flagged free, but the index holds only the absorbed block [p2], whose
    header still says 872; [mm_malloc(104 + 872)] then returns [NULL]. *)
Theorem coalesced_block_not_allocatable :
  two_p1 = 4096 + SIZEOF_BLOCK /\
  two_p2 = two_p1 + 104 + SIZEOF_BLOCK /\
  block_size (mem (snd two_blocks)) (two_p1 - SIZEOF_BLOCK) = 104 /\
  block_size (mem (snd two_blocks)) (two_p2 - SIZEOF_BLOCK) = 872 /\
  heap (snd two_blocks) = [] /\
  (block_size (mem freed_p1_p2) (two_p1 - SIZEOF_BLOCK) = 104 + 872 + SIZEOF_BLOCK /\
   block_is_free (mem freed_p1_p2) (two_p1 - SIZEOF_BLOCK) = true /\
   heap freed_p1_p2 = [two_p2 - SIZEOF_BLOCK] /\
   block_size (mem freed_p1_p2) (two_p2 - SIZEOF_BLOCK) = 872 /\
   fst (mm_malloc (104 + 872) freed_p1_p2) = NULL) /\
  (block_size (mem freed_p2_p1) (two_p1 - SIZEOF_BLOCK) = 104 + 872 + SIZEOF_BLOCK /\
   block_is_free (mem freed_p2_p1) (two_p1 - SIZEOF_BLOCK) = true /\
   heap freed_p2_p1 = [two_p2 - SIZEOF_BLOCK] /\
   block_size (mem freed_p2_p1) (two_p2 - SIZEOF_BLOCK) = 872 /\
   fst (mm_malloc (104 + 872) freed_p2_p1) = NULL).
Proof. repeat split; eval_eq. Qed.

(** C3: thirteen blocks tile the arena; six of them, none next to another
    free block, are freed and the index is an ordered heap of sizes
    8, 32, 16, 48, 56, 40.  Freeing the block of size 24 that follows the one
    of size 48 makes the coalescing loop replace the latter's slot by the
    last entry without sifting it up: the heap is no longer ordered.  After
    [mm_malloc(8)] and [mm_malloc(16)] the index holds blocks of sizes 32,
    24, 40 and 56 with the block of size 32 at the root, and [mm_malloc(32)]
    succeeds although the smallest block of the index, of size 24, is too
    small for the aligned request. *)
Theorem malloc_succeeds_past_smallest :
  heap (snd tiled) = [] /\
  map (block_size (mem six_freed)) (heap six_freed) = [8; 32; 16; 48; 56; 40] /\
  heap_ordered (mem six_freed) (heap six_freed) /\
  map (block_size (mem seven_freed)) (heap seven_freed) = [8; 32; 16; 24; 56; 40] /\
  ~ heap_ordered (mem seven_freed) (heap seven_freed) /\
  heap disordered = [4160; 4392; 4584; 4472] /\
  map (block_size (mem disordered)) (heap disordered) = [32; 24; 40; 56] /\
  ALIGN 32 = 32 /\
  (4392 ∈ heap disordered /\
   block_size (mem disordered) 4392 < ALIGN 32 /\
   forall c, c ∈ heap disordered ->
     block_size (mem disordered) 4392 <= block_size (mem disordered) c) /\
  fst (mm_malloc 32 disordered) = 4160 + SIZEOF_BLOCK /\
  fst (mm_malloc 32 disordered) <> NULL.
Proof.
  split; [eval_eq|]. split; [eval_eq|]. split.
  { intros i Hi. replace (length (heap six_freed)) with 6%nat in Hi by eval_eq.
    do 6 (destruct i as [|i]; [try lia; vm_compute; discriminate|]). lia. }
  split; [eval_eq|]. split.
  { intros Hord. specialize (Hord 3%nat).
    assert (Hi : (0 < 3 < length (heap seven_freed))%nat)
      by (replace (length (heap seven_freed)) with 6%nat by eval_eq; lia).
    specialize (Hord Hi). vm_compute in Hord. now apply Hord. }
  split; [eval_eq|]. split; [eval_eq|]. split; [eval_eq|].
  split; [|split; [eval_eq | vm_compute; discriminate]].
  split; [|split].
  - apply (elem_of_evaluated _ [4160; 4392; 4584; 4472]); eval_eq.
  - vm_compute. reflexivity.
  - intros c Hc.
    assert (Hall : Forall (fun c => block_size (mem disordered) 4392
                                    <= block_size (mem disordered) c)
                     (heap disordered)).
    { replace (heap disordered) with [4160; 4392; 4584; 4472] by eval_eq.
      repeat (apply Forall_cons; split; [vm_compute; discriminate|]).
      apply Forall_nil_2. }
    rewrite Forall_forall in Hall. now apply Hall.
Qed.

(** A property of the entries of a list that is known by evaluation. *)
Lemma forall_evaluated (P : Z -> Prop) (l l' : list Z) :
  l = l' -> Forall P l' -> forall c, c ∈ l -> P c.
Proof. intros -> H. now apply Forall_forall. Qed.



(** Beyond the range covered by the amended C6: for [s > 2^64 - 8] the sum
    in [ALIGN] wraps and the aligned size is 0.  On an arena of 24 bytes,
    whose only block has an empty payload, [mm_malloc(2^64 - 1)] returns the
    end of the arena. *)
Lemma mm_malloc_align_wraps :
  ALIGN (SIZE_MAX_PLUS_1 - 1) = 0 /\
  fst (mm_malloc (SIZE_MAX_PLUS_1 - 1) (snd (mm_init 24 4096 (initial_state zero_mem))))
    = 4096 + 24.
Proof. split; eval_eq. Qed.

(** C8 as stated fails at [capacity = sizeof(Block)]: 24 is below one header
    plus one byte (and below one header plus one alignment unit), yet
    [mm_init(24)] succeeds and creates an arena holding one block of payload
    size 0. *)
Lemma mm_init_accepts_header_only :
  24 < SIZEOF_BLOCK + 1 /\
  24 < SIZEOF_BLOCK + ALIGN_1 /\
  fst (mm_init 24 4096 (initial_state zero_mem)) = InitOk /\
  heap_start (snd (mm_init 24 4096 (initial_state zero_mem))) = 4096 /\
  heap_size (snd (mm_init 24 4096 (initial_state zero_mem))) = 24 /\
  heap (snd (mm_init 24 4096 (initial_state zero_mem))) = [4096] /\
  block_size (mem (snd (mm_init 24 4096 (initial_state zero_mem)))) 4096 = 0.
Proof. repeat split; eval_eq. Qed.

(** C10 as stated fails when the index is full: after 1024 calls of
    [mm_init(24)] the index holds 1024 entries; one more successful
    [mm_init(24)] keeps them all but does not add the new arena's block. *)
Lemma mm_init_full_index_drops_block :
  heap_count full_index = MAX_HEAP_SIZE /\
  fst (mm_init 24 28672 full_index) = InitOk /\
  heap_start (snd (mm_init 24 28672 full_index)) = 28672 /\
  heap (snd (mm_init 24 28672 full_index)) = heap full_index /\
  28672 ∉ heap (snd (mm_init 24 28672 full_index)).
Proof.
  assert (Heq : heap (snd (mm_init 24 28672 full_index)) = heap full_index) by eval_eq.
  split; [eval_eq|]. split; [eval_eq|]. split; [eval_eq|]. split; [exact Heq|].
  apply (not_elem_of_evaluated _ (heap full_index) _ Heq). eval_eq.
Qed.

(** * Instances of the theorems on [mm_init(1024)] *)

Lemma mm_malloc_split_rule_witness :
  block_size (mem (snd (mm_malloc 104 arena_1024))) 4096 = ALIGN 104 /\
  block_is_free (mem (snd (mm_malloc 104 arena_1024))) (4096 + SIZEOF_BLOCK + ALIGN 104)
    = true.
Proof.
  assert (H := mm_malloc_split_rule arena_1024 104 4096 []).
  cbv zeta in H.
  destruct H as (_ & Hsplit & _).
  - split; reflexivity.
  - eval_eq.
  - replace (heap_count arena_1024) with 1%nat by eval_eq. unfold MAX_HEAP_SIZE. lia.
  - discriminate.
  - vm_compute. discriminate.
  - reflexivity.
  - destruct Hsplit as (H1 & _ & H3 & _).
    + vm_compute. discriminate.
    + split; assumption.
Defined.


Lemma exact_capacity_scenario_witness :
  fst (mm_malloc 1
         (snd (mm_malloc (1024 - mm_metadata_size)
                 (snd (mm_init 1024 4096 (initial_state zero_mem)))))) = NULL.
Proof.
  refine (proj2 (proj2 (proj2 (exact_capacity_scenario zero_mem 4096 _ _)))).
  - reflexivity.
  - discriminate.
Defined.

Lemma mm_init_fresh_witness :
  heap (snd (mm_init 1024 4096 (initial_state zero_mem))) = [4096] /\
  block_size (mem (snd (mm_init 1024 4096 (initial_state zero_mem)))) 4096
    = 1024 - SIZEOF_BLOCK.
Proof.
  destruct (mm_init_fresh zero_mem 1024 4096) as (_ & _ & Hok).
  - split; [discriminate | reflexivity].
  - destruct Hok as (_ & _ & _ & Hh & Hsz & _).
    + discriminate.
    + discriminate.
    + split; assumption.
Defined.

(** * The fuel of the loops is never exhausted *)

(** [heapify_up]: any fuel of at least [index] gives the same result. *)
Lemma heapify_up_loop_fuel (f1 f2 : nat) (m : memory) (h : list Z) (index : nat) :
  (index <= f1)%nat -> (index <= f2)%nat ->
  heapify_up_loop f1 m h index = heapify_up_loop f2 m h index.
Proof.
  revert f2 h index. induction f1 as [|f1 IH]; intros f2 h index H1 H2.
  - assert (index = 0%nat) as -> by lia. now destruct f2.
  - destruct f2 as [|f2].
    + assert (index = 0%nat) as -> by lia. reflexivity.
    + cbn [heapify_up_loop]. destruct (Nat.ltb_spec 0 index) as [Hpos|]; [|reflexivity].
      destruct (Z.ltb _ _); [|reflexivity].
      pose proof (half_lt index Hpos). apply IH; lia.
Qed.

(** [heapify_down]: any fuel of at least [length h - index] gives the same
    result. *)
Lemma heapify_down_rec_fuel (f1 f2 : nat) (m : memory) (h : list Z) (index : nat) :
  (length h - index <= f1)%nat -> (length h - index <= f2)%nat ->
  heapify_down_rec f1 m h index = heapify_down_rec f2 m h index.
Proof.
  assert (Hstop : forall f h index, (length h <= index)%nat ->
                    heapify_down_rec f m h index = h).
  { intros f h0 i Hi. destruct f as [|f]; [reflexivity|]. cbn [heapify_down_rec].
    destruct (Nat.ltb_spec (2 * i + 1) (length h0)); [lia|].
    destruct (Nat.ltb_spec (2 * i + 2) (length h0)); [lia|].
    cbn [andb]. now rewrite Nat.eqb_refl. }
  revert f2 h index. induction f1 as [|f1 IH]; intros f2 h index H1 H2.
  - rewrite (Hstop f2) by lia. reflexivity.
  - destruct f2 as [|f2].
    + rewrite (Hstop (S f1)) by lia. reflexivity.
    + cbn [heapify_down_rec].
      match goal with |- context [Nat.eqb ?s index] =>
        assert (Hs : s = index \/ (index < s < length h)%nat);
        [|destruct (Nat.eqb_spec s index) as [|Hne]; [reflexivity|]]
      end.
      { repeat match goal with |- context [if ?c then _ else _] => destruct c eqn:? end;
          repeat match goal with
                 | H : _ && _ = true |- _ => apply andb_true_iff in H; destruct H as [H _]
                 | H : (_ <? _)%nat = true |- _ => apply Nat.ltb_lt in H
                 end; lia. }
      destruct Hs as [|Hs]; [contradiction|].
      apply IH; rewrite length_swap; lia.
Qed.

(** The coalescing loop: any fuel of at least [heap_count] gives the same
    result. *)
Lemma coalesce_fuel (f1 f2 : nat) (st : state) :
  (heap_count st <= f1)%nat -> (heap_count st <= f2)%nat ->
  coalesce f1 st = coalesce f2 st.
Proof.
  assert (Hstop : forall f st, heap_count st = 0%nat -> coalesce f st = st).
  { intros f st0 H0. destruct f; [reflexivity|]. cbn [coalesce]. now rewrite H0. }
  revert f2 st. induction f1 as [|f1 IH]; intros f2 st H1 H2.
  - rewrite (Hstop f2) by lia. reflexivity.
  - destruct f2 as [|f2].
    + rewrite (Hstop (S f1)) by lia. reflexivity.
    + cbn [coalesce]. destruct (find_merge _ st 0) as [i|] eqn:Hf; [|reflexivity].
      apply find_merge_some in Hf. destruct Hf as [Hi _].
      apply IH; rewrite merge_at_count by lia; lia.
Qed.

(** * A lost block stays lost *)

Lemma blocks_disjoint_sym (m : memory) (b c : Z) :
  blocks_disjoint m b c -> blocks_disjoint m c b.
Proof. unfold blocks_disjoint. tauto. Qed.

(** Fewer entries, same size fields. *)
Lemma index_disjoint_sub (m m' : memory) (h h' : list Z) :
  index_disjoint m h -> NoDup h' ->
  (forall b, b ∈ h' -> b ∈ h) ->
  (forall b, b ∈ h' -> block_size m' b = block_size m b) ->
  index_disjoint m' h'.
Proof.
  intros [_ Hd] Hnd Hsub Hsz. split; [exact Hnd|].
  intros b c Hb Hc Hne. specialize (Hd b c (Hsub b Hb) (Hsub c Hc) Hne).
  unfold blocks_disjoint in *. now rewrite (Hsz b Hb), (Hsz c Hc).
Qed.

Lemma lost_from_sub (X : Z) (m m' : memory) (h h' : list Z) :
  lost_from X m h -> NoDup h' ->
  (forall b, b ∈ h' -> b ∈ h) ->
  (forall b, b ∈ h' -> block_size m' b = block_size m b) ->
  lost_from X m' h'.
Proof.
  intros (HX & Hd & Hin) Hnd Hsub Hsz. split; [|split].
  - intros HX'. apply HX, Hsub, HX'.
  - now apply (index_disjoint_sub m m' h h').
  - intros b Hb Hs. apply (Hin b (Hsub b Hb)).
    unfold strictly_inside in *. now rewrite <- (Hsz b Hb).
Qed.

Lemma lost_from_perm (X : Z) (m : memory) (h h' : list Z) :
  h ≡ₚ h' -> lost_from X m h -> lost_from X m h'.
Proof.
  intros Hp Hl. apply (lost_from_sub X m m h h' Hl).
  - rewrite <- Hp. apply Hl.
  - intros b Hb. now rewrite Hp.
  - reflexivity.
Qed.

Lemma lost_from_cons (X : Z) (m : memory) (h : list Z) (n : Z) :
  lost_from X m h -> n ∉ h -> n <> X -> ~ strictly_inside m X n ->
  (forall b, b ∈ h -> blocks_disjoint m b n) ->
  lost_from X m (n :: h).
Proof.
  intros (HX & [Hnd Hd] & Hin) Hn HnX Hns Hdn. split; [|split; [split|]].
  - intros HX'. apply elem_of_cons in HX'. destruct HX' as [->|HX']; tauto.
  - now apply NoDup_cons.
  - intros b c Hb Hc Hne. apply elem_of_cons in Hb, Hc.
    destruct Hb as [->|Hb], Hc as [->|Hc].
    + contradiction.
    + apply blocks_disjoint_sym. now apply Hdn.
    + now apply Hdn.
    + now apply Hd.
  - intros b Hb. apply elem_of_cons in Hb. destruct Hb as [->|Hb]; [exact Hns|].
    now apply Hin.
Qed.

(** Entries of the index after [heap_insert]. *)
Lemma heap_insert_cases (st : state) (b : Z) :
  heap (heap_insert st b) = heap st \/ heap (heap_insert st b) ≡ₚ b :: heap st.
Proof.
  destruct (Nat.lt_ge_cases (heap_count st) MAX_HEAP_SIZE) as [Hlt|Hge].
  - right. now apply heap_insert_perm.
  - left. now rewrite heap_insert_full.
Qed.

Lemma heap_insert_lost (X : Z) (st : state) (n : Z) :
  lost_from X (mem st) (heap st) -> n ∉ heap st -> n <> X ->
  ~ strictly_inside (mem st) X n ->
  (forall b, b ∈ heap st -> blocks_disjoint (mem st) b n) ->
  lost_from X (mem (heap_insert st n)) (heap (heap_insert st n)).
Proof.
  intros Hl Hn HnX Hns Hd. rewrite heap_insert_mem.
  destruct (heap_insert_cases st n) as [-> | Hp]; [exact Hl|].
  apply (lost_from_perm X _ (n :: heap st)); [now symmetry|].
  now apply lost_from_cons.
Qed.

(** Every way [mm_malloc] can go, for a request that does not wrap. *)
Lemma mm_malloc_outcome (s : Z) (st : state) :
  request_ok s ->
  let r := mm_malloc s st in
  let a := ALIGN s in
  heap_start (snd r) = heap_start st /\ heap_size (snd r) = heap_size st /\
  ((fst r = NULL /\ snd r = st) \/
   exists root rest, heap st = root :: rest /\
     ((fst r = NULL /\ mem (snd r) = mem st /\ heap (snd r) ≡ₚ rest) \/
      (root <> NULL /\ s <= a <= block_size (mem st) root /\
       fst r = root + SIZEOF_BLOCK /\
       (forall x, x < root \/ root + SIZEOF_BLOCK + block_size (mem st) root <= x ->
                  mem (snd r) x = mem st x) /\
       (heap (snd r) ≡ₚ rest \/
        (a + SIZEOF_BLOCK + ALIGN_1 <= block_size (mem st) root /\
         block_size (mem (snd r)) (root + SIZEOF_BLOCK + a)
           = block_size (mem st) root - a - SIZEOF_BLOCK /\
         heap (snd r) ≡ₚ (root + SIZEOF_BLOCK + a) :: rest))))).
Proof.
  intros [Hs0 Hno] r a. subst r.
  destruct (Z.eq_dec s 0) as [->|Hs].
  { rewrite mm_malloc_zero. cbn [fst snd]. tauto. }
  destruct (heap st) as [|root rest] eqn:Hh.
  { rewrite mm_malloc_empty by exact Hh. cbn [fst snd]. tauto. }
  destruct (heap_extract_min_cons st root rest Hh) as (_ & Hm & Hst & Hsz & Hperm).
  pose proof (ALIGN_bounds s Hs0 ltac:(consts; lia)) as Ha. fold a in Ha.
  pose proof (block_size_range (mem st) root) as Hold.
  set (old := block_size (mem st) root) in *.
  assert (Hfail : mm_malloc s st = (NULL, snd (heap_extract_min st)) ->
    heap_start (snd (mm_malloc s st)) = heap_start st /\
    heap_size (snd (mm_malloc s st)) = heap_size st /\
    ((fst (mm_malloc s st) = NULL /\ snd (mm_malloc s st) = st) \/
     exists root0 rest0, root :: rest = root0 :: rest0 /\
       ((fst (mm_malloc s st) = NULL /\ mem (snd (mm_malloc s st)) = mem st /\
         heap (snd (mm_malloc s st)) ≡ₚ rest0) \/
        (root0 <> NULL /\ s <= a <= block_size (mem st) root0 /\
         fst (mm_malloc s st) = root0 + SIZEOF_BLOCK /\
         (forall x, x < root0 \/ root0 + SIZEOF_BLOCK + block_size (mem st) root0 <= x ->
                    mem (snd (mm_malloc s st)) x = mem st x) /\
         (heap (snd (mm_malloc s st)) ≡ₚ rest0 \/
          (a + SIZEOF_BLOCK + ALIGN_1 <= block_size (mem st) root0 /\
           block_size (mem (snd (mm_malloc s st))) (root0 + SIZEOF_BLOCK + a)
             = block_size (mem st) root0 - a - SIZEOF_BLOCK /\
           heap (snd (mm_malloc s st)) ≡ₚ (root0 + SIZEOF_BLOCK + a) :: rest0)))))).
  { intros ->. cbn [fst snd]. split; [exact Hst|]. split; [exact Hsz|].
    right. exists root, rest. split; [reflexivity|]. left. tauto. }
  destruct (Z.eq_dec root NULL) as [Hr|Hr].
  { apply Hfail. subst root. pose proof (mm_malloc_null_root s st rest Hh) as Hn.
    unfold mm_malloc in *. destruct (Z.eqb_spec s 0); [contradiction|].
    pose proof (heap_extract_min_cons st NULL rest Hh) as (Hb' & _).
    destruct (heap_extract_min st) as [b' st1]. cbn [fst snd] in *. subst b'.
    reflexivity. }
  destruct (Z.lt_ge_cases old a) as [Hlt|Hfit].
  { apply Hfail. apply (mm_malloc_too_small s st root rest); trivial. }
  clear Hfail.
  pose proof (split_threshold_exact a ltac:(lia) ltac:(consts; lia)) as Hthr.
  destruct (Z.le_gt_cases (a + SIZEOF_BLOCK + ALIGN_1) old) as [Hsplit|Hsmall].
  - rewrite (mm_malloc_split s st root rest) by (trivial; fold a old; lia).
    fold a. cbn [fst snd mem with_mem heap heap_start heap_size].
    rewrite heap_insert_heap_start, heap_insert_heap_size.
    cbn [heap_start heap_size with_mem].
    split; [exact Hst|]. split; [exact Hsz|].
    right. exists root, rest. split; [reflexivity|]. right.
    split; [exact Hr|]. split; [lia|]. split; [reflexivity|]. split.
    + intros x Hx. unfold mem_after_take, mem_after_carve. consts. fold old. now frame.
    + match goal with |- context [heap_insert ?st0 ?n] =>
        destruct (heap_insert_cases st0 n) as [Heq | Hp] end.
      * left. rewrite Heq. exact Hperm.
      * right. split; [exact Hsplit|]. split.
        -- assert (Hrem := remainder_size_exact old a).
           unfold mem_after_take, mem_after_carve. consts. fold old.
           rewrite (block_size_ext
                      (set_size (mem st) (root + 24 + a) (wrap (wrap (old - a) - 24))))
             by (intros; now frame).
           rewrite block_size_set_size, wrap_small by apply wrap_range. apply Hrem; lia.
        -- rewrite Hp. cbn [heap with_mem]. now rewrite Hperm.
  - rewrite (mm_malloc_no_split s st root rest) by (trivial; fold a old; lia).
    fold a. cbn [fst snd mem with_mem heap heap_start heap_size].
    split; [exact Hst|]. split; [exact Hsz|].
    right. exists root, rest. split; [reflexivity|]. right.
    split; [exact Hr|]. split; [lia|]. split; [reflexivity|]. split.
    + intros x Hx. unfold mem_after_take. consts. fold old. now frame.
    + left. exact Hperm.
Qed.

Lemma disjoint_header_outside (m : memory) (b root : Z) :
  blocks_disjoint m b root ->
  b + 8 <= root \/ root + SIZEOF_BLOCK + block_size m root <= b.
Proof.
  unfold blocks_disjoint. pose proof (block_size_range m b). consts. lia.
Qed.

Lemma mm_malloc_lost (X s : Z) (st : state) :
  request_ok s -> lost_from X (mem st) (heap st) ->
  lost_from X (mem (snd (mm_malloc s st))) (heap (snd (mm_malloc s st))) /\
  (fst (mm_malloc s st) <> NULL -> fst (mm_malloc s st) <> X + SIZEOF_BLOCK).
Proof.
  intros Hreq Hl. pose proof Hreq as [Hs0 _].
  destruct (mm_malloc_outcome s st Hreq) as (_ & _ & [[Hn ->]|Hex]); [tauto|].
  destruct Hex as (root & rest & Hh & Hcase).
  rewrite Hh in Hl.
  assert (Hlrest : lost_from X (mem st) rest).
  { apply (lost_from_sub X (mem st) (mem st) (root :: rest)); trivial.
    - destruct Hl as (_ & [Hnd _] & _). now apply NoDup_cons in Hnd.
    - intros b Hb. apply elem_of_cons. tauto. }
  destruct Hcase as [(Hn & Hm & Hp) | (Hr & Ha & Hret & Hframe & Hheap)].
  { split; [|tauto]. rewrite Hm. now apply (lost_from_perm X _ rest). }
  destruct Hl as (HX & [Hnd Hd] & Hin).
  apply NoDup_cons in Hnd. destruct Hnd as [Hroot Hnd].
  assert (Hout : forall b, b ∈ rest ->
            b + 8 <= root \/ root + SIZEOF_BLOCK + block_size (mem st) root <= b).
  { intros b Hb. apply disjoint_header_outside, Hd.
    - apply elem_of_cons; tauto.
    - apply elem_of_cons; tauto.
    - intros ->. contradiction. }
  assert (Hsz : forall b, b ∈ rest ->
            block_size (mem (snd (mm_malloc s st))) b = block_size (mem st) b).
  { intros b Hb. apply block_size_ext. intros x Hx. apply Hframe.
    specialize (Hout b Hb). lia. }
  assert (Hlrest' : lost_from X (mem (snd (mm_malloc s st))) rest).
  { apply (lost_from_sub X (mem st) _ rest); trivial. }
  split.
  2:{ intros _. rewrite Hret. intros Heq. apply HX. apply elem_of_cons. left. lia. }
  destruct Hheap as [Hp | (Hsplit & Hrsz & Hp)].
  { now apply (lost_from_perm X _ rest). }
  apply (lost_from_perm X _ _ _ (symmetry Hp)).
  set (a := ALIGN s) in *. set (old := block_size (mem st) root) in *.
  assert (HXroot : ~ strictly_inside (mem st) X root).
  { apply Hin. apply elem_of_cons. tauto. }
  unfold strictly_inside in HXroot. fold old in HXroot.
  apply lost_from_cons; trivial.
  - intros HR. specialize (Hout _ HR). consts. lia.
  - consts. lia.
  - unfold strictly_inside. rewrite Hrsz. consts. lia.
  - intros b Hb. specialize (Hout b Hb). unfold blocks_disjoint.
    rewrite Hrsz, (Hsz b Hb).
    assert (Hdb : blocks_disjoint (mem st) b root).
    { apply Hd; [apply elem_of_cons; tauto | apply elem_of_cons; tauto |].
      intros ->. contradiction. }
    unfold blocks_disjoint in Hdb. fold old in Hdb. consts. lia.
Qed.

(** A pointer that was freeable before [mm_malloc] is freeable after it, its
    block is untouched, and neither its header nor any index header lies in
    the first [s] bytes of the returned payload. *)
Lemma mm_malloc_freeable (X s q : Z) (st : state) :
  request_ok s -> lost_from X (mem st) (heap st) -> freeable X st q ->
  let r := mm_malloc s st in
  freeable X (snd r) q /\
  block_size (mem (snd r)) (q - SIZEOF_BLOCK) = block_size (mem st) (q - SIZEOF_BLOCK) /\
  (fst r <> NULL ->
     (forall b, b ∈ heap (snd r) -> b + 8 <= fst r \/ fst r + s <= b) /\
     (q - SIZEOF_BLOCK + 8 <= fst r \/ fst r + s <= q - SIZEOF_BLOCK)).
Proof.
  intros Hreq Hl (HqX & Hqh & Hqd & Hqs) r. subst r. pose proof Hreq as [Hs0 _].
  destruct (mm_malloc_outcome s st Hreq) as (_ & _ & [[Hn ->]|Hex]).
  { repeat split; trivial; contradiction. }
  destruct Hex as (root & rest & Hh & Hcase).
  rewrite Hh in Hl, Hqh, Hqd.
  destruct Hcase as [(Hn & Hm & Hp) | (Hr & Ha & Hret & Hframe & Hheap)].
  { split; [|split; [now rewrite Hm | contradiction]].
    split; [exact HqX|]. split; [|split].
    - rewrite Hp. intros Hq. apply Hqh. apply elem_of_cons. tauto.
    - intros b Hb. rewrite Hm. apply Hqd. rewrite Hp in Hb. apply elem_of_cons. tauto.
    - now rewrite Hm. }
  destruct Hl as (HX & [Hnd Hd] & Hin).
  apply NoDup_cons in Hnd. destruct Hnd as [Hroot Hnd].
  set (B := q - SIZEOF_BLOCK) in *.
  set (a := ALIGN s) in *. set (old := block_size (mem st) root) in *.
  pose proof (block_size_range (mem st) B) as HBr.
  assert (HdB : blocks_disjoint (mem st) root B)
    by (apply Hqd, elem_of_cons; tauto).
  pose proof HdB as HdB'. unfold blocks_disjoint in HdB'. fold old in HdB'.
  assert (Hout : forall b, b ∈ rest ->
            b + 8 <= root \/ root + SIZEOF_BLOCK + old <= b).
  { intros b Hb. apply disjoint_header_outside, Hd.
    - apply elem_of_cons; tauto.
    - apply elem_of_cons; tauto.
    - intros ->. contradiction. }
  assert (Hsz : forall b, b ∈ rest ->
            block_size (mem (snd (mm_malloc s st))) b = block_size (mem st) b).
  { intros b Hb. apply block_size_ext. intros x Hx. apply Hframe.
    specialize (Hout b Hb). lia. }
  assert (HszB : block_size (mem (snd (mm_malloc s st))) B = block_size (mem st) B).
  { apply block_size_ext. intros x Hx. apply Hframe. consts. lia. }
  assert (Hrestd : forall b, b ∈ rest ->
            blocks_disjoint (mem (snd (mm_malloc s st))) b B).
  { intros b Hb. unfold blocks_disjoint. rewrite HszB, (Hsz b Hb).
    apply Hqd. apply elem_of_cons. tauto. }
  split; [|split; [exact HszB|]].
  - split; [exact HqX|]. split; [|split].
    + destruct Hheap as [Hp | (Hsplit & Hrsz & Hp)]; rewrite Hp.
      * intros Hq. apply Hqh. apply elem_of_cons. tauto.
      * intros Hq. apply elem_of_cons in Hq. destruct Hq as [Hq|Hq].
        -- consts. lia.
        -- apply Hqh. apply elem_of_cons. tauto.
    + intros b Hb. destruct Hheap as [Hp | (Hsplit & Hrsz & Hp)]; rewrite Hp in Hb.
      * now apply Hrestd.
      * apply elem_of_cons in Hb. destruct Hb as [->|Hb]; [|now apply Hrestd].
        fold B. unfold blocks_disjoint. rewrite Hrsz, HszB. fold a old. consts. lia.
    + fold B. unfold strictly_inside in *. now rewrite HszB.
  - intros _. rewrite Hret. split.
    + intros b Hb. destruct Hheap as [Hp | (Hsplit & Hrsz & Hp)]; rewrite Hp in Hb.
      * specialize (Hout b Hb). consts. lia.
      * apply elem_of_cons in Hb. destruct Hb as [->|Hb].
        -- fold a. consts. lia.
        -- specialize (Hout b Hb). consts. lia.
    + consts. lia.
Qed.

Lemma merge_at_lost (X : Z) (st : state) (i : nat) :
  (i < heap_count st)%nat ->
  lost_from X (mem st) (heap st) ->
  lost_from X (mem (merge_at st i)) (heap (merge_at st i)).
Proof.
  intros Hi Hl. pose proof (merge_at_perm st i Hi) as Hp.
  set (c := heap st !!! i) in *.
  assert (Hnd : NoDup (c :: heap (merge_at st i))).
  { rewrite Hp. apply Hl. }
  apply NoDup_cons in Hnd. destruct Hnd as [Hc Hnd].
  assert (Hsub : forall b, b ∈ heap (merge_at st i) -> b ∈ heap st).
  { intros b Hb. rewrite <- Hp. apply elem_of_cons. tauto. }
  apply (lost_from_sub X (mem st) _ (heap st)); trivial.
  intros b Hb. apply block_size_ext. intros x Hx. apply merge_at_mem. fold c.
  destruct Hl as (_ & [_ Hd] & _).
  assert (Hdbc : blocks_disjoint (mem st) b c).
  { apply Hd; [now apply Hsub | rewrite <- Hp; apply elem_of_cons; tauto |].
    intros ->. contradiction. }
  unfold blocks_disjoint in Hdbc.
  pose proof (block_size_range (mem st) b). pose proof (block_size_range (mem st) c).
  consts. lia.
Qed.

Lemma coalesce_lost (X : Z) (fuel : nat) (st : state) :
  lost_from X (mem st) (heap st) ->
  lost_from X (mem (coalesce fuel st)) (heap (coalesce fuel st)).
Proof.
  revert st. induction fuel as [|fuel IH]; intros st Hl; [exact Hl|].
  cbn [coalesce]. destruct (find_merge _ st 0) as [i|] eqn:Hf; [|exact Hl].
  apply find_merge_some in Hf. apply IH, merge_at_lost; [lia | exact Hl].
Qed.

Lemma mm_free_lost (X q : Z) (st : state) :
  lost_from X (mem st) (heap st) -> freeable X st q ->
  lost_from X (mem (mm_free q st)) (heap (mm_free q st)).
Proof.
  intros Hl (HqX & Hqh & Hqd & Hqs).
  destruct (Z.eq_dec q NULL) as [Hn|Hn].
  { now rewrite mm_free_invalid by tauto. }
  destruct (Z.lt_ge_cases q (heap_start st)).
  { now rewrite mm_free_invalid by tauto. }
  destruct (Z.lt_ge_cases q (arena_end st)).
  2:{ now rewrite mm_free_invalid by tauto. }
  rewrite mm_free_valid by (trivial; lia). cbv zeta.
  set (B := q - SIZEOF_BLOCK) in *.
  apply coalesce_lost.
  set (st1 := with_mem st (set_is_free (mem st) B true)).
  assert (Hsz : forall b, b ∈ heap st -> block_size (mem st1) b = block_size (mem st) b).
  { intros b Hb. apply block_size_ext. intros x Hx. cbn [st1 mem with_mem].
    apply set_is_free_other. specialize (Hqd b Hb). unfold blocks_disjoint in Hqd.
    pose proof (block_size_range (mem st) b). pose proof (block_size_range (mem st) B).
    consts. lia. }
  assert (HszB : block_size (mem st1) B = block_size (mem st) B).
  { apply block_size_ext. intros x Hx. cbn [st1 mem with_mem].
    apply set_is_free_other. lia. }
  apply heap_insert_lost; cbn [heap st1 with_mem]; trivial.
  - apply (lost_from_sub X (mem st) _ (heap st)); trivial. apply Hl.
  - unfold strictly_inside in *. now rewrite HszB.
  - intros b Hb. unfold blocks_disjoint. rewrite HszB, (Hsz b Hb). now apply Hqd.
Qed.

(** Copying into the fresh payload leaves the size fields alone. *)
Lemma memcpy_lost (X q p' n s : Z) (st : state) :
  0 <= n <= s ->
  lost_from X (mem st) (heap st) -> freeable X st q ->
  (forall b, b ∈ heap st -> b + 8 <= p' \/ p' + s <= b) ->
  (q - SIZEOF_BLOCK + 8 <= p' \/ p' + s <= q - SIZEOF_BLOCK) ->
  let st' := with_mem st (memcpy (mem st) p' q n) in
  lost_from X (mem st') (heap st') /\ freeable X st' q.
Proof.
  intros Hn Hl (HqX & Hqh & Hqd & Hqs) Hidx HB st'. subst st'.
  cbn [mem heap with_mem].
  assert (Hsz : forall b, b ∈ heap st ->
            block_size (memcpy (mem st) p' q n) b = block_size (mem st) b).
  { intros b Hb. apply block_size_ext. intros x Hx. apply memcpy_other.
    specialize (Hidx b Hb). lia. }
  assert (HszB : block_size (memcpy (mem st) p' q n) (q - SIZEOF_BLOCK)
                 = block_size (mem st) (q - SIZEOF_BLOCK)).
  { apply block_size_ext. intros x Hx. apply memcpy_other. lia. }
  split.
  - apply (lost_from_sub X (mem st) _ (heap st)); trivial. apply Hl.
  - split; [exact HqX|]. split; [exact Hqh|]. split.
    + intros b Hb. unfold blocks_disjoint. cbn [mem with_mem].
      rewrite HszB, (Hsz b Hb). now apply Hqd.
    + unfold strictly_inside in *. cbn [mem with_mem]. now rewrite HszB.
Qed.

Lemma mm_realloc_lost (X q s : Z) (st : state) :
  request_ok s -> lost_from X (mem st) (heap st) ->
  q = NULL \/ freeable X st q ->
  lost_from X (mem (snd (mm_realloc q s st))) (heap (snd (mm_realloc q s st))) /\
  (fst (mm_realloc q s st) <> NULL -> fst (mm_realloc q s st) <> X + SIZEOF_BLOCK).
Proof.
  intros Hreq Hl Hq. pose proof Hreq as [Hs0 _].
  destruct (Z.eq_dec q NULL) as [->|Hqn].
  { unfold mm_realloc. cbn [Z.eqb NULL]. now apply mm_malloc_lost. }
  destruct Hq as [|Hq]; [contradiction|].
  destruct (Z.eq_dec s 0) as [->|Hs].
  { unfold mm_realloc. destruct (Z.eqb_spec q NULL); [contradiction|].
    cbn [Z.eqb fst snd]. split; [now apply mm_free_lost | tauto]. }
  destruct (Z.le_gt_cases s (block_size (mem st) (q - SIZEOF_BLOCK))) as [Hle|Hgt].
  { unfold mm_realloc. destruct (Z.eqb_spec q NULL); [contradiction|].
    destruct (Z.eqb_spec s 0); [contradiction|].
    destruct (Z.leb_spec s (block_size (mem st) (q - SIZEOF_BLOCK))); [|lia].
    cbn [fst snd]. split; [exact Hl|]. intros _. destruct Hq as (HqX & _). lia. }
  rewrite mm_realloc_unfold by (trivial; lia).
  pose proof (mm_malloc_lost X s st Hreq Hl) as [Hl1 Hret].
  pose proof (mm_malloc_freeable X s q st Hreq Hl Hq) as (Hq1 & HszB & Hpay).
  cbv zeta in Hq1, HszB, Hpay.
  destruct (mm_malloc s st) as [p' st1]. cbn [fst snd] in *.
  destruct (Z.eqb_spec p' NULL) as [Hp|Hp]; cbn [negb fst snd].
  { split; [exact Hl1 | contradiction]. }
  split; [|exact Hret].
  destruct (Hpay Hp) as [Hidx HB].
  pose proof (block_size_range (mem st) (q - SIZEOF_BLOCK)) as Hr.
  destruct (memcpy_lost X q p' (block_size (mem st1) (q - SIZEOF_BLOCK)) s st1
              ltac:(rewrite HszB; lia) Hl1 Hq1 Hidx HB) as [Hl2 Hq2].
  now apply mm_free_lost.
Qed.

Lemma do_call_lost (X : Z) (c : call) (st : state) :
  lost_from X (mem st) (heap st) -> call_ok X st c ->
  lost_from X (mem (snd (do_call c st))) (heap (snd (do_call c st))) /\
  (fst (do_call c st) <> NULL -> fst (do_call c st) <> X + SIZEOF_BLOCK).
Proof.
  intros Hl Hok. destruct c as [s|q|q s]; cbn [do_call call_ok fst snd] in *.
  - now apply mm_malloc_lost.
  - split; [now apply mm_free_lost | tauto].
  - destruct Hok as [Hreq Hq]. now apply mm_realloc_lost.
Qed.

(** Along any run of well-behaved calls the lost block never enters the
    index and its payload is never returned. *)
Lemma run_lost (X : Z) (cs : list call) (st : state) :
  lost_from X (mem st) (heap st) -> calls_ok X st cs ->
  lost_from X (mem (run cs st)) (heap (run cs st)) /\
  X + SIZEOF_BLOCK ∉ returned cs st.
Proof.
  revert st. induction cs as [|c cs IH]; intros st Hl Hok.
  - cbn. split; [exact Hl | apply not_elem_of_nil].
  - cbn [calls_ok] in Hok. destruct Hok as [Hc Hcs].
    destruct (do_call_lost X c st Hl Hc) as [Hl1 Hret].
    destruct (IH _ Hl1 Hcs) as [Hl2 Hnot].
    cbn [run returned]. split; [exact Hl2|].
    destruct (do_call c st) as [p st1]. cbn [fst snd] in *.
    destruct (Z.eqb_spec p NULL) as [Hp|Hp]; [exact Hnot|].
    intros Hin. apply elem_of_cons in Hin. destruct Hin as [Heq|Hin]; [|contradiction].
    now apply (Hret Hp).
Qed.

(** ** A failing [mm_malloc] *)

(** C9: when [mm_malloc s] fails on a non-empty index because the extracted
    block is smaller than [ALIGN s], the call changes the state: memory is
    untouched, so the block's [is_free] flag is still set, but the block has
    left the index, which holds exactly the other entries and one entry
    less.  From then on, whatever sequence of [mm_malloc], [mm_free] and
    [mm_realloc] calls a well-behaved caller makes (it frees only blocks in
    use), the block never enters the index again and its payload is never
    returned. *)
Theorem mm_malloc_failure_drops_block (st : state) (s block : Z) (rest : list Z) :
  0 < s ->
  heap st = block :: rest ->
  index_disjoint (mem st) (heap st) ->
  block_is_free (mem st) block = true ->
  block_size (mem st) block < ALIGN s ->
  let st' := snd (mm_malloc s st) in
  fst (mm_malloc s st) = NULL /\
  mem st' = mem st /\
  heap_start st' = heap_start st /\ heap_size st' = heap_size st /\
  block_is_free (mem st') block = true /\
  heap st' ≡ₚ rest /\
  (block ∉ heap st') /\
  heap_count st' = (heap_count st - 1)%nat /\
  st' <> st /\
  forall cs, calls_ok block st' cs ->
    (block ∉ heap (run cs st')) /\ (block + SIZEOF_BLOCK ∉ returned cs st').
Proof.
  intros Hs Hh Hdis Hfree Hlt st'. subst st'.
  rewrite (mm_malloc_too_small s st block rest) by (trivial; lia). cbn [fst snd].
  destruct (heap_extract_min_cons st block rest Hh) as (_ & Hm & Hst & Hsz & Hp).
  assert (Hcnt : heap_count (snd (heap_extract_min st)) = (heap_count st - 1)%nat).
  { unfold heap_count. rewrite Hp, Hh. simpl. lia. }
  rewrite Hh in Hdis. pose proof Hdis as [Hnd Hd].
  apply NoDup_cons in Hnd. destruct Hnd as [Hnot Hnd].
  assert (Hlost : lost_from block (mem (snd (heap_extract_min st)))
                    (heap (snd (heap_extract_min st)))).
  { rewrite Hm. apply (lost_from_perm block _ rest); [now symmetry|].
    split; [exact Hnot|]. split.
    - apply (index_disjoint_sub (mem st) (mem st) (block :: rest)); trivial.
      intros b Hb. apply elem_of_cons. tauto.
    - intros b Hb [Hlo Hhi].
      assert (Hbd : blocks_disjoint (mem st) b block).
      { apply Hd; [apply elem_of_cons; tauto | apply elem_of_cons; tauto |].
        intros ->. contradiction. }
      unfold blocks_disjoint in Hbd.
      pose proof (block_size_range (mem st) block). consts. lia. }
  split; [reflexivity|]. split; [exact Hm|]. split; [exact Hst|]. split; [exact Hsz|].
  split; [now rewrite Hm|]. split; [exact Hp|]. split; [now rewrite Hp|].
  split; [exact Hcnt|]. split.
  - intros Heq. rewrite Heq in Hcnt. unfold heap_count in Hcnt.
    rewrite Hh in Hcnt. simpl in Hcnt. lia.
  - intros cs Hcs. destruct (run_lost block cs _ Hlost Hcs) as [(Hout & _) Hret].
    split; assumption.
Qed.

Lemma mm_malloc_failure_drops_block_witness :
  fst (mm_malloc 2000 after_small) = NULL /\
  block_is_free (mem (snd (mm_malloc 2000 after_small))) 4128 = true /\
  (4128 ∉ heap (snd (mm_malloc 2000 after_small))) /\
  (4128 ∉ heap (run [Free 4120; Malloc 8] (snd (mm_malloc 2000 after_small)))) /\
  (4128 + SIZEOF_BLOCK ∉ returned [Free 4120; Malloc 8] (snd (mm_malloc 2000 after_small))).
Proof.
  assert (Hh : heap after_small = [4128]) by eval_eq.
  assert (Hh' : heap (snd (mm_malloc 2000 after_small)) = []) by eval_eq.
  destruct (mm_malloc_failure_drops_block after_small 2000 4128 [])
    as (Hnull & _ & _ & _ & Hfree & _ & Hnot & _ & _ & Hlater).
  - reflexivity.
  - exact Hh.
  - rewrite Hh. split; [apply NoDup_singleton|].
    intros b c Hb Hc Hne. apply list_elem_of_singleton in Hb, Hc. congruence.
  - eval_eq.
  - vm_compute. reflexivity.
  - split; [exact Hnull|]. split; [exact Hfree|]. split; [exact Hnot|].
    apply (Hlater [Free 4120; Malloc 8]). cbn [calls_ok call_ok].
    split; [|split; [|exact I]].
    + split; [discriminate|]. split; [|split].
      * apply (not_elem_of_evaluated _ [] _ Hh'). reflexivity.
      * apply (forall_evaluated _ _ [] Hh'). apply Forall_nil_2.
      * unfold strictly_inside. vm_compute. intros [_ Hlt]. discriminate.
    + split; [discriminate | reflexivity].
Defined.

(** * The index as a priority queue *)

Lemma swap_lookup (h : list Z) (i j x : nat) :
  (i < length h)%nat -> (j < length h)%nat ->
  swap h i j !!! x =
    if decide (x = j) then h !!! i else if decide (x = i) then h !!! j else h !!! x.
Proof.
  intros Hi Hj. unfold swap.
  destruct (decide (x = j)) as [->|Hxj].
  - apply list_lookup_total_insert_eq. now rewrite length_insert.
  - rewrite list_lookup_total_insert_ne by congruence.
    destruct (decide (x = i)) as [->|Hxi].
    + now apply list_lookup_total_insert_eq.
    + apply list_lookup_total_insert_ne. congruence.
Qed.

Lemma parent_children (i : nat) :
  (0 < i)%nat -> i = (2 * ((i - 1) / 2) + 1)%nat \/ i = (2 * ((i - 1) / 2) + 2)%nat.
Proof.
  intros Hi. pose proof (Nat.div_mod_eq (i - 1) 2) as Hd.
  pose proof (Nat.mod_upper_bound (i - 1) 2 ltac:(lia)). lia.
Qed.

Lemma parent_left (k : nat) : ((2 * k + 1 - 1) / 2 = k)%nat.
Proof.
  replace (2 * k + 1 - 1)%nat with (k * 2)%nat by lia. apply Nat.div_mul. lia.
Qed.

Lemma parent_right (k : nat) : ((2 * k + 2 - 1) / 2 = k)%nat.
Proof.
  replace (2 * k + 2 - 1)%nat with (1 + k * 2)%nat by lia.
  rewrite Nat.div_add by lia. reflexivity.
Qed.

(** The order only depends on the size fields of the entries. *)
Lemma heap_ordered_ext (m m' : memory) (h : list Z) :
  (forall b, b ∈ h -> block_size m' b = block_size m b) ->
  heap_ordered m h -> heap_ordered m' h.
Proof.
  intros Hsz Hord i Hi. pose proof (half_le i).
  rewrite !Hsz by (apply list_elem_of_lookup_total_2; lia). now apply Hord.
Qed.

Lemma heapify_up_loop_ordered (fuel : nat) (m : memory) (h : list Z) (k : nat) :
  (k <= fuel)%nat -> (k < length h)%nat ->
  ordered_but_up m h k -> heap_ordered m (heapify_up_loop fuel m h k).
Proof.
  revert h k. induction fuel as [|fuel IH]; intros h k Hf Hk [H1 H2].
  { cbn [heapify_up_loop]. intros i Hi. apply H1; lia. }
  cbn [heapify_up_loop]. destruct (Nat.ltb_spec 0 k) as [Hpos|Hz].
  2:{ intros i Hi. apply H1; lia. }
  set (p := ((k - 1) / 2)%nat) in *.
  pose proof (half_lt k Hpos) as Hp. fold p in Hp.
  destruct (Z.ltb_spec (block_size m (h !!! k)) (block_size m (h !!! p))) as [Hlt|Hge].
  2:{ intros i Hi. destruct (Nat.eq_dec i k) as [->|Hne]; [exact Hge | now apply H1]. }
  apply IH; [lia | rewrite length_swap; lia |].
  assert (Hsw : forall x, swap h k p !!! x =
            if decide (x = p) then h !!! k else if decide (x = k) then h !!! p
            else h !!! x) by (intros x; apply swap_lookup; lia).
  split.
  - intros i Hi Hip. rewrite length_swap in Hi. rewrite !Hsw.
    pose proof (half_lt i ltac:(lia)) as Hq.
    destruct (decide (i = p)) as [|_]; [contradiction|].
    destruct (decide (i = k)) as [->|Hik].
    + fold p. destruct (decide (p = p)) as [_|]; [lia | contradiction].
    + destruct (decide (((i - 1) / 2)%nat = p)) as [Hqp|Hqp].
      * specialize (H1 i Hi Hik). rewrite Hqp in H1. lia.
      * destruct (decide (((i - 1) / 2)%nat = k)) as [Hqk|Hqk].
        -- apply (H2 i Hi Hqk Hpos).
        -- now apply H1.
  - intros i Hi Hqp Hp0. rewrite length_swap in Hi. rewrite !Hsw.
    pose proof (half_lt p Hp0) as Hg. pose proof (half_lt i ltac:(lia)) as Hq.
    destruct (decide (((p - 1) / 2)%nat = p)) as [|_]; [lia|].
    destruct (decide (((p - 1) / 2)%nat = k)) as [|_]; [lia|].
    destruct (decide (i = p)) as [|_]; [lia|].
    pose proof (H1 p ltac:(lia) ltac:(lia)) as Hgp.
    destruct (decide (i = k)) as [->|Hik]; [exact Hgp|].
    specialize (H1 i Hi Hik). rewrite Hqp in H1. lia.
Qed.

Lemma heapify_down_rec_ordered (fuel : nat) (m : memory) (h : list Z) (k : nat) :
  (length h - k <= fuel)%nat ->
  ordered_but_down m h k -> heap_ordered m (heapify_down_rec fuel m h k).
Proof.
  revert h k. induction fuel as [|fuel IH]; intros h k Hf [H1 H2].
  { cbn [heapify_down_rec]. intros i Hi. pose proof (half_lt i ltac:(lia)).
    apply H1; lia. }
  cbn [heapify_down_rec].
  set (l := (2 * k + 1)%nat). set (r := (2 * k + 2)%nat).
  set (s1 := if (l <? length h)%nat && (block_size m (h !!! l) <? block_size m (h !!! k))
             then l else k).
  set (s2 := if (r <? length h)%nat && (block_size m (h !!! r) <? block_size m (h !!! s1))
             then r else s1).
  assert (Hs1 : (s1 = k /\ ((l < length h)%nat ->
                            block_size m (h !!! k) <= block_size m (h !!! l))) \/
                (s1 = l /\ (l < length h)%nat /\
                 block_size m (h !!! l) < block_size m (h !!! k))).
  { subst s1. destruct (Nat.ltb_spec l (length h)); cbn [andb].
    - destruct (Z.ltb_spec (block_size m (h !!! l)) (block_size m (h !!! k)));
        [right | left]; repeat split; trivial.
    - left. split; [reflexivity | lia]. }
  assert (Hs2 : (s2 = s1 /\ ((r < length h)%nat ->
                             block_size m (h !!! s1) <= block_size m (h !!! r))) \/
                (s2 = r /\ (r < length h)%nat /\
                 block_size m (h !!! r) < block_size m (h !!! s1))).
  { subst s2. destruct (Nat.ltb_spec r (length h)); cbn [andb].
    - destruct (Z.ltb_spec (block_size m (h !!! r)) (block_size m (h !!! s1)));
        [right | left]; repeat split; trivial.
    - left. split; [reflexivity | lia]. }
  assert (Hchild : forall i, (0 < i < length h)%nat -> ((i - 1) / 2)%nat = k ->
                             i = l \/ i = r).
  { intros i Hi Hq. destruct (parent_children i ltac:(lia)); subst l r; lia. }
  destruct (Nat.eqb_spec s2 k) as [Hk|Hk].
  { (* the entry is in place *)
    intros i Hi. destruct (Nat.eq_dec ((i - 1) / 2) k) as [Hq|Hq]; [|now apply H1].
    rewrite Hq.
    assert (Hs1k : s1 = k).
    { destruct Hs2 as [[E _]|[E _]]; [congruence | subst r; lia]. }
    destruct Hs1 as [[_ Hl]|[E _]]; [|subst l; lia].
    destruct Hs2 as [[_ Hr]|[E _]]; [|subst r; lia].
    rewrite Hs1k in Hr.
    destruct (Hchild i Hi Hq) as [->| ->]; [apply Hl | apply Hr]; lia. }
  (* the smaller child [c] moves up *)
  set (c := s2) in *.
  assert (Hc : (c < length h)%nat /\ (c = l \/ c = r) /\
               block_size m (h !!! c) < block_size m (h !!! k) /\
               forall i, (0 < i < length h)%nat -> ((i - 1) / 2)%nat = k ->
                         block_size m (h !!! c) <= block_size m (h !!! i)).
  { destruct Hs2 as [[E Hr]|[E [Hr Hlt]]]; rewrite E in *.
    - destruct Hs1 as [[E1 _]|[E1 [Hl Hlt]]]; [congruence|]. rewrite E1 in *.
      repeat split; trivial; [now left|].
      intros i Hi Hq. destruct (Hchild i Hi Hq) as [->| ->]; [lia | apply Hr; lia].
    - destruct Hs1 as [[E1 Hl]|[E1 [Hl Hlt1]]]; rewrite E1 in *.
      + repeat split; trivial; [now right|].
        intros i Hi Hq. destruct (Hchild i Hi Hq) as [->| ->]; [|lia].
        specialize (Hl ltac:(lia)). lia.
      + repeat split; trivial; [now right | lia |].
        intros i Hi Hq. destruct (Hchild i Hi Hq) as [->| ->]; lia. }
  destruct Hc as (Hclen & Hcc & Hck & Hmin).
  assert (Hpc : ((c - 1) / 2)%nat = k).
  { destruct Hcc as [-> | ->]; [apply parent_left | apply parent_right]. }
  assert (Hkc : (k < c)%nat) by (destruct Hcc; subst l r; lia).
  apply IH; [rewrite length_swap; lia|].
  assert (Hsw : forall x, swap h k c !!! x =
            if decide (x = c) then h !!! k else if decide (x = k) then h !!! c
            else h !!! x) by (intros x; apply swap_lookup; lia).
  split.
  - intros i Hi Hqc. rewrite length_swap in Hi. rewrite !Hsw.
    pose proof (half_lt i ltac:(lia)) as Hq.
    destruct (decide (((i - 1) / 2)%nat = c)) as [|_]; [contradiction|].
    destruct (decide (i = c)) as [->|Hic].
    + rewrite Hpc. destruct (decide (k = k)) as [_|]; [lia | contradiction].
    + destruct (decide (i = k)) as [->|Hik].
      * destruct (decide (((k - 1) / 2)%nat = k)) as [|_]; [lia|].
        apply (H2 c); lia.
      * destruct (decide (((i - 1) / 2)%nat = k)) as [Hqk|Hqk].
        -- now apply Hmin.
        -- now apply H1.
  - intros i Hi Hq Hc0. rewrite length_swap in Hi. rewrite !Hsw, Hpc.
    pose proof (half_lt i ltac:(lia)) as Hqi.
    destruct (decide (k = c)) as [|_]; [lia|].
    destruct (decide (k = k)) as [_|]; [|contradiction].
    destruct (decide (i = c)) as [|_]; [lia|].
    destruct (decide (i = k)) as [|_]; [lia|].
    specialize (H1 i Hi ltac:(lia)). now rewrite Hq in H1.
Qed.

Lemma heapify_up_ordered (m : memory) (h : list Z) (b : Z) :
  heap_ordered m h -> heap_ordered m (heapify_up m (h ++ [b]) (length h)).
Proof.
  intros Hord. unfold heapify_up.
  apply heapify_up_loop_ordered; [lia | rewrite length_app; simpl; lia |].
  split.
  - intros i Hi Hne. rewrite length_app in Hi. cbn [length] in Hi.
    pose proof (half_le i).
    rewrite !lookup_total_app_l by lia. apply Hord. lia.
  - intros i Hi Hq Hpos. rewrite length_app in Hi. cbn [length] in Hi.
    pose proof (half_lt i ltac:(lia)). lia.
Qed.

Lemma take_last_into_lookup (h : list Z) (j i : nat) :
  (i < length h - 1)%nat ->
  take_last_into h j !!! i =
    if decide (i = j) then h !!! (length h - 1)%nat else h !!! i.
Proof.
  intros Hi. unfold take_last_into.
  destruct h as [|x0 h0] using rev_ind; [simpl in Hi; lia|]. clear IHh0.
  rewrite length_app in *. cbn [length] in *.
  set (last := (h0 ++ [x0]) !!! (length h0 + 1 - 1)%nat).
  assert (Hlen : length (<[j:=last]> (h0 ++ [x0])) = (length h0 + 1)%nat)
    by (rewrite length_insert, length_app; simpl; lia).
  assert (Hrm : forall l : list Z, l <> [] ->
            forall i, (i < length l - 1)%nat -> removelast l !!! i = l !!! i).
  { intros l Hl i0 Hi0. rewrite (app_removelast_last 0 Hl) at 2.
    rewrite lookup_total_app_l; [reflexivity|].
    rewrite (app_removelast_last 0 Hl), length_app in Hi0. simpl in Hi0. lia. }
  rewrite Hrm.
  - destruct (decide (i = j)) as [->|Hne].
    + apply list_lookup_total_insert_eq. rewrite length_app. simpl. lia.
    + apply list_lookup_total_insert_ne. congruence.
  - intros Hnil. rewrite Hnil in Hlen. simpl in Hlen. lia.
  - rewrite Hlen. lia.
Qed.

Lemma extract_ordered (m : memory) (h : list Z) :
  heap_ordered m h -> heap_ordered m (heapify_down m (take_last_into h 0) 0).
Proof.
  intros Hord. unfold heapify_down.
  apply heapify_down_rec_ordered; [lia|].
  split.
  - intros i Hi Hq. rewrite length_take_last_into in Hi.
    pose proof (half_lt i ltac:(lia)) as Hlt.
    rewrite !take_last_into_lookup by lia.
    destruct (decide (((i - 1) / 2)%nat = 0%nat)) as [|_]; [contradiction|].
    destruct (decide (i = 0%nat)) as [|_]; [lia|].
    apply Hord. lia.
  - intros i Hi Hq Hpos. lia.
Qed.

(** X1: [heap_insert] on a full index (1024 entries) drops the block and
    changes nothing; otherwise it adds exactly the block to the entries.  It
    never writes memory, and it keeps an ordered heap ordered. *)
Theorem heap_insert_contract (st : state) (block : Z) :
  mem (heap_insert st block) = mem st /\
  ((MAX_HEAP_SIZE <= heap_count st)%nat -> heap_insert st block = st) /\
  ((heap_count st < MAX_HEAP_SIZE)%nat ->
     heap (heap_insert st block) ≡ₚ block :: heap st /\
     heap_count (heap_insert st block) = S (heap_count st)) /\
  (heap_ordered (mem st) (heap st) ->
     heap_ordered (mem (heap_insert st block)) (heap (heap_insert st block))).
Proof.
  split; [apply heap_insert_mem|]. split; [apply heap_insert_full|]. split.
  - intros Hlt. pose proof (heap_insert_perm st block Hlt) as Hp.
    split; [exact Hp|]. unfold heap_count. now rewrite Hp.
  - intros Hord. rewrite heap_insert_mem. unfold heap_insert.
    destruct (Nat.leb_spec MAX_HEAP_SIZE (heap_count st)); [exact Hord|].
    cbn [heap with_heap]. now apply heapify_up_ordered.
Qed.

(** X2: [heap_extract_min] returns [NULL] and changes nothing on an empty
    index.  Otherwise it returns the root entry, never writes memory, and
    leaves exactly the other entries; on an ordered heap the returned block
    has the smallest size of all entries and the heap that is left is
    ordered again. *)
Theorem heap_extract_min_contract (st : state) :
  (heap st = [] -> heap_extract_min st = (NULL, st)) /\
  (forall b rest, heap st = b :: rest ->
     fst (heap_extract_min st) = b /\
     mem (snd (heap_extract_min st)) = mem st /\
     heap (snd (heap_extract_min st)) ≡ₚ rest /\
     heap_count (snd (heap_extract_min st)) = (heap_count st - 1)%nat /\
     (heap_ordered (mem st) (heap st) ->
        (forall c, c ∈ heap st -> block_size (mem st) b <= block_size (mem st) c) /\
        heap_ordered (mem (snd (heap_extract_min st)))
          (heap (snd (heap_extract_min st))))).
Proof.
  split; [apply heap_extract_min_empty|].
  intros b rest Hh.
  destruct (heap_extract_min_cons st b rest Hh) as (Hb & Hm & _ & _ & Hp).
  split; [exact Hb|]. split; [exact Hm|]. split; [exact Hp|]. split.
  { unfold heap_count. rewrite Hp, Hh. simpl. lia. }
  intros Hord. split.
  - intros c Hc. apply list_elem_of_lookup_total in Hc. destruct Hc as (i & Hi & <-).
    replace b with (heap st !!! 0%nat) by now rewrite Hh.
    now apply heap_ordered_root_min.
  - rewrite Hm. unfold heap_extract_min. rewrite Hh. cbn [snd heap with_heap].
    rewrite <- Hh. now apply extract_ordered.
Qed.

Lemma mm_malloc_null_root_eq (s : Z) (st : state) (rest : list Z) :
  s <> 0 -> heap st = NULL :: rest ->
  mm_malloc s st = (NULL, snd (heap_extract_min st)).
Proof.
  intros Hs Hh. unfold mm_malloc. destruct (Z.eqb_spec s 0); [contradiction|].
  destruct (heap_extract_min_cons st NULL rest Hh) as (Hb & _).
  destruct (heap_extract_min st) as [b' st1]. cbn [fst snd] in *. subst b'.
  reflexivity.
Qed.

Lemma index_disjoint_cons (m : memory) (h : list Z) (n : Z) :
  index_disjoint m h -> n ∉ h ->
  (forall b, b ∈ h -> blocks_disjoint m b n) ->
  index_disjoint m (n :: h).
Proof.
  intros [Hnd Hd] Hn Hdn. split; [now apply NoDup_cons|].
  intros b c Hb Hc Hne. apply elem_of_cons in Hb, Hc.
  destruct Hb as [->|Hb], Hc as [->|Hc].
  - contradiction.
  - apply blocks_disjoint_sym. now apply Hdn.
  - now apply Hdn.
  - now apply Hd.
Qed.

Lemma index_disjoint_perm (m : memory) (h h' : list Z) :
  h ≡ₚ h' -> index_disjoint m h -> index_disjoint m h'.
Proof.
  intros Hp Hd. apply (index_disjoint_sub m m h h' Hd).
  - rewrite <- Hp. apply Hd.
  - intros b Hb. now rewrite Hp.
  - reflexivity.
Qed.

Lemma mm_malloc_index_disjoint (s : Z) (st : state) :
  request_ok s -> index_disjoint (mem st) (heap st) ->
  index_disjoint (mem (snd (mm_malloc s st))) (heap (snd (mm_malloc s st))).
Proof.
  intros Hreq Hdis. pose proof Hreq as [Hs0 _].
  destruct (mm_malloc_outcome s st Hreq) as (_ & _ & [[Hn ->]|Hex]); [exact Hdis|].
  destruct Hex as (root & rest & Hh & Hcase). rewrite Hh in Hdis.
  pose proof Hdis as [Hnd Hd]. apply NoDup_cons in Hnd. destruct Hnd as [Hroot Hnd].
  assert (Hdrest : index_disjoint (mem st) rest).
  { apply (index_disjoint_sub (mem st) (mem st) (root :: rest)); trivial.
    intros b Hb. apply elem_of_cons. tauto. }
  destruct Hcase as [(Hn & Hm & Hp) | (Hr & Ha & Hret & Hframe & Hheap)].
  { rewrite Hm. now apply (index_disjoint_perm _ rest). }
  assert (Hout : forall b, b ∈ rest ->
            b + 8 <= root \/ root + SIZEOF_BLOCK + block_size (mem st) root <= b).
  { intros b Hb. apply disjoint_header_outside, Hd.
    - apply elem_of_cons; tauto.
    - apply elem_of_cons; tauto.
    - intros ->. contradiction. }
  assert (Hsz : forall b, b ∈ rest ->
            block_size (mem (snd (mm_malloc s st))) b = block_size (mem st) b).
  { intros b Hb. apply block_size_ext. intros x Hx. apply Hframe.
    specialize (Hout b Hb). lia. }
  assert (Hdrest' : index_disjoint (mem (snd (mm_malloc s st))) rest).
  { apply (index_disjoint_sub (mem st) _ rest); trivial. }
  destruct Hheap as [Hp | (Hsplit & Hrsz & Hp)].
  { now apply (index_disjoint_perm _ rest). }
  apply (index_disjoint_perm _ _ _ (symmetry Hp)).
  set (a := ALIGN s) in *. set (old := block_size (mem st) root) in *.
  apply index_disjoint_cons; trivial.
  - intros HR. specialize (Hout _ HR). consts. lia.
  - intros b Hb. specialize (Hout b Hb). unfold blocks_disjoint.
    rewrite Hrsz, (Hsz b Hb).
    assert (Hdb : blocks_disjoint (mem st) b root).
    { apply Hd; [apply elem_of_cons; tauto | apply elem_of_cons; tauto |].
      intros ->. contradiction. }
    unfold blocks_disjoint in Hdb. fold old in Hdb. consts. lia.
Qed.

Lemma mm_malloc_heap_ordered (s : Z) (st : state) :
  request_ok s -> index_disjoint (mem st) (heap st) ->
  heap_ordered (mem st) (heap st) ->
  heap_ordered (mem (snd (mm_malloc s st))) (heap (snd (mm_malloc s st))).
Proof.
  intros Hreq Hdis Hord. pose proof Hreq as [Hs0 Hno].
  destruct (Z.eq_dec s 0) as [->|Hs]; [exact Hord|].
  destruct (heap st) as [|root rest] eqn:Hh.
  { rewrite mm_malloc_empty by exact Hh. cbn [snd]. now rewrite Hh. }
  rewrite <- Hh in Hord.
  destruct (heap_extract_min_cons st root rest Hh) as (_ & Hm & _ & _ & Hperm).
  assert (Hext : heap_ordered (mem st) (heap (snd (heap_extract_min st)))).
  { unfold heap_extract_min. rewrite Hh. cbn [snd heap with_heap].
    rewrite <- Hh. now apply extract_ordered. }
  destruct (Z.eq_dec root NULL) as [->|Hr].
  { rewrite (mm_malloc_null_root_eq s st rest) by trivial. cbn [snd]. now rewrite Hm. }
  pose proof (ALIGN_bounds s Hs0 ltac:(consts; lia)) as Ha.
  pose proof (block_size_range (mem st) root) as Hold.
  set (a := ALIGN s) in *. set (old := block_size (mem st) root) in *.
  destruct (Z.lt_ge_cases old a) as [Hlt|Hfit].
  { rewrite (mm_malloc_too_small s st root rest) by trivial. cbn [snd]. now rewrite Hm. }
  pose proof Hdis as [Hnd Hd]. apply NoDup_cons in Hnd. destruct Hnd as [Hroot Hnd].
  assert (Hout : forall b, b ∈ heap (snd (heap_extract_min st)) ->
            b + 8 <= root \/ root + SIZEOF_BLOCK + old <= b).
  { intros b Hb. rewrite Hperm in Hb. apply disjoint_header_outside, Hd.
    - apply elem_of_cons; tauto.
    - apply elem_of_cons; tauto.
    - intros ->. contradiction. }
  pose proof (split_threshold_exact a ltac:(lia) ltac:(consts; lia)) as Hthr.
  destruct (Z.le_gt_cases (a + SIZEOF_BLOCK + ALIGN_1) old) as [Hsplit|Hsmall].
  - rewrite (mm_malloc_split s st root rest) by (trivial; fold a old; lia).
    fold a. cbn [snd mem with_mem heap].
    set (mc := mem_after_carve (mem st) root a).
    set (st1 := with_mem (snd (heap_extract_min st)) mc).
    assert (Hmc : heap_ordered mc (heap st1)).
    { apply (heap_ordered_ext (mem st)); [|exact Hext].
      intros b Hb. apply block_size_ext. intros x Hx. specialize (Hout b Hb).
      unfold mc, mem_after_carve. consts. fold old. now frame. }
    assert (Hins : heap_ordered mc (heap (heap_insert st1 (root + SIZEOF_BLOCK + a)))).
    { unfold heap_insert. destruct (Nat.leb_spec MAX_HEAP_SIZE (heap_count st1));
        [exact Hmc|]. cbn [heap with_heap mem st1 with_mem].
      now apply heapify_up_ordered. }
    apply (heap_ordered_ext mc); [|exact Hins].
    intros b Hb. apply heap_insert_elem in Hb. apply block_size_ext. intros x Hx.
    unfold mem_after_take. consts.
    destruct Hb as [->|Hb].
    + now frame.
    + specialize (Hout b Hb). now frame.
  - rewrite (mm_malloc_no_split s st root rest) by (trivial; fold a old; lia).
    fold a. cbn [snd mem with_mem heap].
    apply (heap_ordered_ext (mem st)); [|exact Hext].
    intros b Hb. apply block_size_ext. intros x Hx. specialize (Hout b Hb).
    unfold mem_after_take. consts. fold old. now frame.
Qed.

(** X3: [mm_malloc] keeps the index a heap of non-overlapping blocks: if the
    entries are distinct blocks that do not overlap and the array is an
    ordered min-heap, both hold again after the call, whether it fails,
    takes the block whole or splits it. *)
Theorem mm_malloc_keeps_ordered_index (s : Z) (st : state) :
  request_ok s ->
  index_disjoint (mem st) (heap st) ->
  heap_ordered (mem st) (heap st) ->
  index_disjoint (mem (snd (mm_malloc s st))) (heap (snd (mm_malloc s st))) /\
  heap_ordered (mem (snd (mm_malloc s st))) (heap (snd (mm_malloc s st))).
Proof.
  intros Hreq Hdis Hord. split.
  - now apply mm_malloc_index_disjoint.
  - now apply mm_malloc_heap_ordered.
Qed.

Lemma mm_malloc_keeps_ordered_index_witness :
  index_disjoint (mem (snd (mm_malloc 104 arena_1024)))
    (heap (snd (mm_malloc 104 arena_1024))) /\
  heap_ordered (mem (snd (mm_malloc 104 arena_1024)))
    (heap (snd (mm_malloc 104 arena_1024))).
Proof.
  assert (Hh : heap arena_1024 = [4096]) by eval_eq.
  apply (mm_malloc_keeps_ordered_index 104 arena_1024).
  - split; [discriminate | reflexivity].
  - rewrite Hh. split; [apply NoDup_singleton|].
    intros b c Hb Hc Hne. apply list_elem_of_singleton in Hb, Hc. congruence.
  - rewrite Hh. intros i Hi. simpl in Hi. lia.
Defined.

(** ** Allocation from a one-block index *)

Lemma perm_singleton_eq (h : list Z) (x : Z) : h ≡ₚ [x] -> h = [x].
Proof. intros Hp. symmetry in Hp. now apply Permutation_singleton_l in Hp. Qed.

Lemma perm_nil_eq (h : list Z) : h ≡ₚ [] -> h = [].
Proof. intros Hp. now apply Permutation_nil_r in Hp. Qed.

Lemma mm_malloc_single (s r : Z) (st : state) :
  0 < s -> request_ok s -> heap st = [r] -> r <> NULL ->
  let a := ALIGN s in
  let sz := block_size (mem st) r in
  let st' := snd (mm_malloc s st) in
  (sz < a -> fst (mm_malloc s st) = NULL /\ heap st' = [] /\ mem st' = mem st) /\
  (a <= sz -> fst (mm_malloc s st) = r + SIZEOF_BLOCK /\
              block_is_free (mem st') r = false) /\
  (a <= sz < a + SIZEOF_BLOCK + ALIGN_1 ->
     heap st' = [] /\ block_size (mem st') r = sz) /\
  (a + SIZEOF_BLOCK + ALIGN_1 <= sz ->
     heap st' = [r + SIZEOF_BLOCK + a] /\
     block_size (mem st') r = a /\
     block_size (mem st') (r + SIZEOF_BLOCK + a) = sz - a - SIZEOF_BLOCK /\
     block_is_free (mem st') (r + SIZEOF_BLOCK + a) = true).
Proof.
  intros Hs [Hs0 Hno] Hh Hr a sz st'. subst st'.
  destruct (heap_extract_min_cons st r [] Hh) as (_ & Hm & _ & _ & Hperm).
  apply perm_nil_eq in Hperm.
  pose proof (ALIGN_bounds s Hs0 ltac:(consts; lia)) as Ha. fold a in Ha.
  pose proof (block_size_range (mem st) r) as Hsz. fold sz in Hsz.
  pose proof (split_threshold_exact a ltac:(lia) ltac:(consts; lia)) as Hthr.
  destruct (Z.lt_ge_cases sz a) as [Hlt|Hfit].
  { rewrite (mm_malloc_too_small s st r []) by (trivial; lia). cbn [fst snd].
    split; [intros _; now rewrite Hperm, Hm|].
    split; [intros; exfalso; consts; lia|].
    split; intros; exfalso; consts; lia. }
  destruct (Z.le_gt_cases (a + SIZEOF_BLOCK + ALIGN_1) sz) as [Hsplit|Hsmall].
  - rewrite (mm_malloc_split s st r []) by (trivial; fold a sz; lia).
    fold a. cbn [fst snd mem with_mem heap].
    assert (Hfree : block_is_free
              (mem_after_take (set_size (mem_after_carve (mem st) r a) r a) r a) r
              = false).
    { unfold mem_after_take.
      rewrite (block_is_free_ext
                 (set_is_free (set_size (mem_after_carve (mem st) r a) r a) r false))
        by (consts; now frame).
      apply block_is_free_set_is_free. }
    split; [intros; exfalso; consts; lia|]. split; [tauto|].
    split; [intros; exfalso; consts; lia|]. intros _.
    assert (Hrem := remainder_size_exact sz a).
    split; [|unfold mem_after_take, mem_after_carve; consts; fold sz; repeat split].
    + apply perm_singleton_eq. rewrite heap_insert_perm.
      * cbn [heap with_mem]. now rewrite Hperm.
      * unfold heap_count. cbn [heap with_mem]. rewrite Hperm. simpl.
        unfold MAX_HEAP_SIZE. lia.
    + rewrite (block_size_ext
                 (set_size
                    (set_is_free
                       (set_size (mem st) (r + 24 + a) (wrap (wrap (sz - a) - 24)))
                       (r + 24 + a) true)
                    r a))
        by (intros; now frame).
      rewrite block_size_set_size. apply wrap_small. lia.
    + rewrite (block_size_ext
                 (set_size (mem st) (r + 24 + a) (wrap (wrap (sz - a) - 24))))
        by (intros; now frame).
      rewrite block_size_set_size, wrap_small by apply wrap_range. apply Hrem; lia.
    + rewrite (block_is_free_ext
                 (set_is_free
                    (set_size (mem st) (r + 24 + a) (wrap (wrap (sz - a) - 24)))
                    (r + 24 + a) true))
        by now frame.
      apply block_is_free_set_is_free.
  - rewrite (mm_malloc_no_split s st r []) by (trivial; fold a sz; lia).
    fold a. cbn [fst snd mem with_mem heap].
    split; [intros; exfalso; consts; lia|]. split.
    { intros _. split; [reflexivity|]. unfold mem_after_take.
      rewrite (block_is_free_ext (set_is_free (mem st) r false)) by (consts; now frame).
      apply block_is_free_set_is_free. }
    split; [|intros; exfalso; consts; lia]. intros _. split; [exact Hperm|].
    apply block_size_ext. intros x Hx. unfold mem_after_take. consts. now frame.
Qed.

(** ** A block in use is left alone *)

Lemma block_bytes_same_size (m m' : memory) (X : Z) :
  block_bytes_same m m' X -> block_size m' X = block_size m X.
Proof.
  intros H. apply block_size_ext. intros x Hx. apply H.
  pose proof (block_size_range m X). consts. lia.
Qed.

Lemma block_bytes_same_trans (m1 m2 m3 : memory) (X : Z) :
  block_bytes_same m1 m2 X -> block_bytes_same m2 m3 X -> block_bytes_same m1 m3 X.
Proof.
  intros H12 H23 x Hx. rewrite <- (H12 x Hx). apply H23.
  now rewrite (block_bytes_same_size m1 m2 X H12).
Qed.

Lemma kept_apart_lost (X : Z) (m : memory) (h : list Z) :
  kept_apart X m h -> lost_from X m h.
Proof.
  intros [Hd Hx]. pose proof (block_size_range m X) as HX. split; [|split; [exact Hd|]].
  - intros Hin. specialize (Hx X Hin). unfold blocks_disjoint in Hx. consts. lia.
  - intros b Hb. specialize (Hx b Hb). unfold blocks_disjoint, strictly_inside in *.
    consts. lia.
Qed.

(** Entries, their sizes and the size of [X] as before: still kept apart. *)
Lemma kept_apart_sub (X : Z) (m m' : memory) (h h' : list Z) :
  kept_apart X m h -> index_disjoint m' h' ->
  (forall b, b ∈ h' -> b ∈ h /\ block_size m' b = block_size m b) ->
  block_size m' X = block_size m X ->
  kept_apart X m' h'.
Proof.
  intros [_ Hx] Hd Hsub HX. split; [exact Hd|].
  intros b Hb. destruct (Hsub b Hb) as [Hin Hsz]. unfold blocks_disjoint.
  rewrite Hsz, HX. now apply Hx.
Qed.

Lemma mm_malloc_taken_size (s : Z) (st : state) (root : Z) (rest : list Z) :
  s <> 0 -> request_ok s -> heap st = root :: rest -> root <> NULL ->
  ALIGN s <= block_size (mem st) root ->
  block_is_free (mem (snd (mm_malloc s st))) root = false /\
  block_size (mem (snd (mm_malloc s st))) root =
    (if ALIGN s + SIZEOF_BLOCK + ALIGN_1 <=? block_size (mem st) root
     then ALIGN s else block_size (mem st) root).
Proof.
  intros Hs [Hs0 Hno] Hh Hr Hfit.
  pose proof (ALIGN_bounds s Hs0 ltac:(consts; lia)) as Ha.
  pose proof (block_size_range (mem st) root) as Hold.
  set (a := ALIGN s) in *. set (old := block_size (mem st) root) in *.
  pose proof (split_threshold_exact a ltac:(lia) ltac:(consts; lia)) as Hthr.
  destruct (Z.leb_spec (a + SIZEOF_BLOCK + ALIGN_1) old) as [Hsplit|Hsmall].
  - rewrite (mm_malloc_split s st root rest) by (trivial; fold a old; lia).
    fold a. cbn [fst snd mem with_mem]. split.
    + unfold mem_after_take.
      rewrite (block_is_free_ext
                 (set_is_free (set_size (mem_after_carve (mem st) root a) root a)
                    root false))
        by (consts; now frame).
      apply block_is_free_set_is_free.
    + unfold mem_after_take.
      rewrite (block_size_ext (set_size (mem_after_carve (mem st) root a) root a))
        by (intros; consts; now frame).
      rewrite block_size_set_size. apply wrap_small. consts. lia.
  - rewrite (mm_malloc_no_split s st root rest) by (trivial; fold a old; lia).
    fold a. cbn [fst snd mem with_mem]. split.
    + unfold mem_after_take.
      rewrite (block_is_free_ext (set_is_free (mem st) root false))
        by (consts; now frame).
      apply block_is_free_set_is_free.
    + apply block_size_ext. intros x Hx. unfold mem_after_take. consts. now frame.
Qed.

(** [mm_malloc] writes inside the block it extracted only, and what it puts
    back lies inside that block. *)
Lemma mm_malloc_apart (X s : Z) (st : state) :
  request_ok s -> kept_apart X (mem st) (heap st) ->
  let r := mm_malloc s st in
  kept_apart X (mem (snd r)) (heap (snd r)) /\
  block_bytes_same (mem st) (mem (snd r)) X /\
  (fst r <> NULL ->
     X + SIZEOF_BLOCK + block_size (mem st) X <= fst r \/ fst r + s <= X).
Proof.
  intros Hreq Hk r. subst r. pose proof Hreq as [Hs0 _].
  pose proof (mm_malloc_index_disjoint s st Hreq (proj1 Hk)) as Hd'.
  destruct (mm_malloc_outcome s st Hreq) as (_ & _ & [[Hn ->]|Hex]).
  { split; [exact Hk|]. split; [now intros x Hx | contradiction]. }
  destruct Hex as (root & rest & Hh & Hcase).
  destruct Hk as [[Hnd Hd] Hx]. rewrite Hh in Hnd, Hd, Hx.
  destruct Hcase as [(Hn & Hm & Hp) | (Hr & Ha & Hret & Hframe & Hheap)].
  { split; [|split; [intros x _; now rewrite Hm | contradiction]].
    split; [exact Hd'|]. intros b Hb. rewrite Hm. apply Hx. rewrite Hp in Hb.
    apply elem_of_cons. tauto. }
  apply NoDup_cons in Hnd. destruct Hnd as [Hroot Hnd].
  set (a := ALIGN s) in *. set (old := block_size (mem st) root) in *.
  pose proof (block_size_range (mem st) X) as HXr.
  assert (HXroot : blocks_disjoint (mem st) root X).
  { apply Hx. apply elem_of_cons. tauto. }
  unfold blocks_disjoint in HXroot. fold old in HXroot.
  assert (Hsame : block_bytes_same (mem st) (mem (snd (mm_malloc s st))) X).
  { intros x Hxr. apply Hframe. fold old. lia. }
  pose proof (block_bytes_same_size _ _ _ Hsame) as HszX.
  assert (Hsz : forall b, b ∈ rest ->
            block_size (mem (snd (mm_malloc s st))) b = block_size (mem st) b).
  { intros b Hb. apply block_size_ext. intros x Hxr. apply Hframe. fold old.
    assert (Hout : b + 8 <= root \/ root + SIZEOF_BLOCK + old <= b).
    { apply disjoint_header_outside, Hd.
      - apply elem_of_cons; tauto.
      - apply elem_of_cons; tauto.
      - intros ->. contradiction. }
    lia. }
  assert (Hrest : forall b, b ∈ rest ->
            blocks_disjoint (mem (snd (mm_malloc s st))) b X).
  { intros b Hb. unfold blocks_disjoint. rewrite HszX, (Hsz b Hb).
    apply Hx. apply elem_of_cons. tauto. }
  split; [|split; [exact Hsame|]].
  - split; [exact Hd'|]. intros b Hb.
    destruct Hheap as [Hp | (Hsplit & Hrsz & Hp)]; rewrite Hp in Hb.
    + now apply Hrest.
    + apply elem_of_cons in Hb. destruct Hb as [->|Hb]; [|now apply Hrest].
      unfold blocks_disjoint. rewrite Hrsz, HszX. fold a old. consts. lia.
  - intros _. rewrite Hret. consts. lia.
Qed.

(** The block [mm_malloc] hands out does not overlap what is left in the
    index. *)
Lemma mm_malloc_fresh_apart (s : Z) (st : state) :
  request_ok s -> index_disjoint (mem st) (heap st) ->
  fst (mm_malloc s st) <> NULL ->
  kept_apart (fst (mm_malloc s st) - SIZEOF_BLOCK)
    (mem (snd (mm_malloc s st))) (heap (snd (mm_malloc s st))).
Proof.
  intros Hreq Hdis Hret. pose proof Hreq as [Hs0 _].
  pose proof (mm_malloc_index_disjoint s st Hreq Hdis) as Hd'.
  destruct (Z.eq_dec s 0) as [->|Hs].
  { rewrite mm_malloc_zero in Hret. cbn [fst] in Hret. contradiction. }
  destruct (mm_malloc_outcome s st Hreq) as (_ & _ & [[Hn _]|Hex]); [contradiction|].
  destruct Hex as (root & rest & Hh & Hcase).
  destruct Hcase as [(Hn & _) | (Hr & Ha & Hp' & Hframe & Hheap)]; [contradiction|].
  destruct (mm_malloc_taken_size s st root rest Hs Hreq Hh Hr ltac:(lia)) as [_ Hnew].
  destruct Hdis as [Hnd Hd]. rewrite Hh in Hnd, Hd.
  apply NoDup_cons in Hnd. destruct Hnd as [Hroot Hnd].
  set (a := ALIGN s) in *. set (old := block_size (mem st) root) in *.
  rewrite Hp'. replace (root + SIZEOF_BLOCK - SIZEOF_BLOCK) with root by lia.
  split; [exact Hd'|].
  assert (Hrest : forall b, b ∈ rest ->
            blocks_disjoint (mem (snd (mm_malloc s st))) b root).
  { intros b Hb.
    assert (Hdb : blocks_disjoint (mem st) b root).
    { apply Hd; [apply elem_of_cons; tauto | apply elem_of_cons; tauto |].
      intros ->. contradiction. }
    pose proof (disjoint_header_outside _ _ _ Hdb) as Hout. fold old in Hout.
    assert (Hsz : block_size (mem (snd (mm_malloc s st))) b = block_size (mem st) b).
    { apply block_size_ext. intros x Hxr. apply Hframe. fold old. lia. }
    unfold blocks_disjoint in *. rewrite Hsz, Hnew. fold old in Hdb.
    destruct (Z.leb_spec (a + SIZEOF_BLOCK + ALIGN_1) old); consts; lia. }
  intros b Hb. destruct Hheap as [Hp | (Hsplit & Hrsz & Hp)]; rewrite Hp in Hb.
  - now apply Hrest.
  - apply elem_of_cons in Hb. destruct Hb as [->|Hb]; [|now apply Hrest].
    unfold blocks_disjoint. rewrite Hnew.
    destruct (Z.leb_spec (a + SIZEOF_BLOCK + ALIGN_1) old); consts; lia.
Qed.

Lemma merge_at_apart (X : Z) (st : state) (i : nat) :
  (i < heap_count st)%nat ->
  kept_apart X (mem st) (heap st) ->
  kept_apart X (mem (merge_at st i)) (heap (merge_at st i)) /\
  block_bytes_same (mem st) (mem (merge_at st i)) X.
Proof.
  intros Hi Hk. pose proof (merge_at_perm st i Hi) as Hp.
  pose proof (merge_at_lost X st i Hi (kept_apart_lost _ _ _ Hk)) as (_ & Hd' & _).
  set (c := heap st !!! i) in *.
  assert (Hc : c ∈ heap st) by (rewrite <- Hp; apply elem_of_cons; tauto).
  assert (Hnd : NoDup (c :: heap (merge_at st i))) by (rewrite Hp; apply Hk).
  apply NoDup_cons in Hnd. destruct Hnd as [Hcn Hnd].
  pose proof (block_size_range (mem st) X) as HXr.
  pose proof (block_size_range (mem st) c) as Hcr.
  assert (Hsame : block_bytes_same (mem st) (mem (merge_at st i)) X).
  { intros x Hx. apply merge_at_mem. fold c.
    destruct Hk as [_ Hx']. specialize (Hx' c Hc). unfold blocks_disjoint in Hx'.
    consts. lia. }
  split; [|exact Hsame].
  apply (kept_apart_sub X (mem st) _ (heap st)); trivial.
  - intros b Hb.
    assert (Hin : b ∈ heap st) by (rewrite <- Hp; apply elem_of_cons; tauto).
    split; [exact Hin|].
    apply block_size_ext. intros x Hx. apply merge_at_mem. fold c.
    destruct Hk as [[_ Hd] _].
    assert (Hdbc : blocks_disjoint (mem st) b c).
    { apply Hd; trivial. intros ->. contradiction. }
    unfold blocks_disjoint in Hdbc. pose proof (block_size_range (mem st) b).
    consts. lia.
  - now apply block_bytes_same_size.
Qed.

Lemma coalesce_apart (X : Z) (fuel : nat) (st : state) :
  kept_apart X (mem st) (heap st) ->
  kept_apart X (mem (coalesce fuel st)) (heap (coalesce fuel st)) /\
  block_bytes_same (mem st) (mem (coalesce fuel st)) X.
Proof.
  revert st. induction fuel as [|fuel IH]; intros st Hk.
  { split; [exact Hk | now intros x Hx]. }
  cbn [coalesce]. destruct (find_merge _ st 0) as [i|] eqn:Hf.
  2:{ split; [exact Hk | now intros x Hx]. }
  apply find_merge_some in Hf.
  destruct (merge_at_apart X st i ltac:(lia) Hk) as [Hk1 Hs1].
  destruct (IH _ Hk1) as [Hk2 Hs2].
  split; [exact Hk2 | now apply (block_bytes_same_trans _ (mem (merge_at st i)))].
Qed.

Lemma mm_free_apart (X q : Z) (st : state) :
  kept_apart X (mem st) (heap st) -> freeable X st q ->
  blocks_disjoint (mem st) (q - SIZEOF_BLOCK) X ->
  kept_apart X (mem (mm_free q st)) (heap (mm_free q st)) /\
  block_bytes_same (mem st) (mem (mm_free q st)) X.
Proof.
  intros Hk Hq HBX.
  assert (Hnop : mm_free q st = st ->
            kept_apart X (mem (mm_free q st)) (heap (mm_free q st)) /\
            block_bytes_same (mem st) (mem (mm_free q st)) X).
  { intros ->. split; [exact Hk | now intros x Hx]. }
  destruct (Z.eq_dec q NULL) as [Hn|Hn].
  { apply Hnop. apply mm_free_invalid. tauto. }
  destruct (Z.lt_ge_cases q (heap_start st)).
  { apply Hnop. apply mm_free_invalid. tauto. }
  destruct (Z.lt_ge_cases q (arena_end st)).
  2:{ apply Hnop. apply mm_free_invalid. tauto. }
  clear Hnop. rewrite mm_free_valid by (trivial; lia). cbv zeta.
  destruct Hq as (HqX & Hqh & Hqd & Hqs).
  set (B := q - SIZEOF_BLOCK) in *.
  set (st1 := with_mem st (set_is_free (mem st) B true)).
  pose proof (block_size_range (mem st) X) as HXr.
  pose proof (block_size_range (mem st) B) as HBr.
  assert (Hsame : block_bytes_same (mem st) (mem st1) X).
  { intros x Hx. cbn [st1 mem with_mem]. apply set_is_free_other.
    unfold blocks_disjoint in HBX. consts. lia. }
  pose proof (block_bytes_same_size _ _ _ Hsame) as HszX.
  assert (Hsz : forall b, b ∈ heap st -> block_size (mem st1) b = block_size (mem st) b).
  { intros b Hb. apply block_size_ext. intros x Hx. cbn [st1 mem with_mem].
    apply set_is_free_other. specialize (Hqd b Hb). unfold blocks_disjoint in Hqd.
    pose proof (block_size_range (mem st) b). consts. lia. }
  assert (HszB : block_size (mem st1) B = block_size (mem st) B).
  { apply block_size_ext. intros x Hx. cbn [st1 mem with_mem].
    apply set_is_free_other. lia. }
  assert (Hk1 : kept_apart X (mem (heap_insert st1 B)) (heap (heap_insert st1 B))).
  { rewrite heap_insert_mem.
    assert (Hk0 : kept_apart X (mem st1) (heap st1)).
    { apply (kept_apart_sub X (mem st) _ (heap st)); trivial.
      - apply (index_disjoint_sub (mem st) _ (heap st)); trivial; apply Hk.
      - intros b Hb. split; [exact Hb | now apply Hsz]. }
    destruct (heap_insert_cases st1 B) as [Heq|Hp]; [now rewrite Heq|].
    split.
    - apply (index_disjoint_perm _ (B :: heap st1)); [now symmetry|].
      apply index_disjoint_cons; [apply Hk0 | exact Hqh |].
      intros b Hb. unfold blocks_disjoint. cbn [heap st1 with_mem] in Hb.
      rewrite HszB, (Hsz b Hb). now apply Hqd.
    - intros b Hb. rewrite Hp in Hb. apply elem_of_cons in Hb.
      destruct Hb as [->|Hb]; [|now apply Hk0].
      unfold blocks_disjoint. now rewrite HszB, HszX. }
  destruct (coalesce_apart X (heap_count (heap_insert st1 B)) _ Hk1) as [Hk2 Hs2].
  split; [exact Hk2|].
  apply (block_bytes_same_trans _ (mem st1)); [exact Hsame|].
  now rewrite heap_insert_mem in Hs2.
Qed.

Lemma mm_realloc_apart (X q s : Z) (st : state) :
  request_ok s -> kept_apart X (mem st) (heap st) ->
  q = NULL \/ freeable X st q /\ blocks_disjoint (mem st) (q - SIZEOF_BLOCK) X ->
  kept_apart X (mem (snd (mm_realloc q s st))) (heap (snd (mm_realloc q s st))) /\
  block_bytes_same (mem st) (mem (snd (mm_realloc q s st))) X.
Proof.
  intros Hreq Hk Hq. pose proof Hreq as [Hs0 _].
  destruct (Z.eq_dec q NULL) as [->|Hqn].
  { unfold mm_realloc. cbn [Z.eqb NULL].
    destruct (mm_malloc_apart X s st Hreq Hk) as (H1 & H2 & _). now split. }
  destruct Hq as [|[Hq HBX]]; [contradiction|].
  destruct (Z.eq_dec s 0) as [->|Hs].
  { unfold mm_realloc. destruct (Z.eqb_spec q NULL); [contradiction|].
    cbn [Z.eqb fst snd]. now apply mm_free_apart. }
  destruct (Z.le_gt_cases s (block_size (mem st) (q - SIZEOF_BLOCK))) as [Hle|Hgt].
  { unfold mm_realloc. destruct (Z.eqb_spec q NULL); [contradiction|].
    destruct (Z.eqb_spec s 0); [contradiction|].
    destruct (Z.leb_spec s (block_size (mem st) (q - SIZEOF_BLOCK))); [|lia].
    cbn [fst snd]. split; [exact Hk | now intros x Hx]. }
  rewrite mm_realloc_unfold by (trivial; lia).
  pose proof (kept_apart_lost _ _ _ Hk) as Hl.
  pose proof (mm_malloc_lost X s st Hreq Hl) as [Hl1 _].
  pose proof (mm_malloc_freeable X s q st Hreq Hl Hq) as (Hq1 & HszB & Hpay).
  pose proof (mm_malloc_apart X s st Hreq Hk) as (Hk1 & Hs1 & HpX).
  cbv zeta in Hq1, HszB, Hpay, Hk1, Hs1, HpX.
  destruct (mm_malloc s st) as [p' st1]. cbn [fst snd] in *.
  destruct (Z.eqb_spec p' NULL) as [Hp|Hp]; cbn [negb fst snd].
  { now split. }
  destruct (Hpay Hp) as [Hidx HB]. specialize (HpX Hp).
  pose proof (block_size_range (mem st) (q - SIZEOF_BLOCK)) as Hr.
  pose proof (block_size_range (mem st) X) as HXr.
  pose proof (block_bytes_same_size _ _ _ Hs1) as HszX.
  set (n := block_size (mem st1) (q - SIZEOF_BLOCK)) in *.
  destruct (memcpy_lost X q p' n s st1 ltac:(lia) Hl1 Hq1 Hidx HB) as [Hl2 Hq2].
  set (st2 := with_mem st1 (memcpy (mem st1) p' q n)) in *.
  assert (Hs2 : block_bytes_same (mem st1) (mem st2) X).
  { intros x Hx. cbn [st2 mem with_mem]. apply memcpy_other. lia. }
  pose proof (block_bytes_same_size _ _ _ Hs2) as HszX2.
  assert (HszB2 : block_size (mem st2) (q - SIZEOF_BLOCK) = n).
  { apply block_size_ext. intros x Hx. cbn [st2 mem with_mem].
    apply memcpy_other. lia. }
  assert (Hk2 : kept_apart X (mem st2) (heap st2)).
  { apply (kept_apart_sub X (mem st1) _ (heap st1)); trivial; [apply Hl2|].
    intros b Hb. split; [exact Hb|].
    apply block_size_ext. intros x Hx. cbn [st2 mem with_mem].
    apply memcpy_other. specialize (Hidx b Hb). lia. }
  assert (HBX2 : blocks_disjoint (mem st2) (q - SIZEOF_BLOCK) X).
  { unfold blocks_disjoint in *. rewrite HszB2, HszX2, HszX, HszB. exact HBX. }
  destruct (mm_free_apart X q st2 Hk2 Hq2 HBX2) as [Hk3 Hs3].
  split; [exact Hk3|].
  apply (block_bytes_same_trans _ (mem st1)); [exact Hs1|].
  now apply (block_bytes_same_trans _ (mem st2)).
Qed.

Lemma do_call_apart (X : Z) (c : call) (st : state) :
  kept_apart X (mem st) (heap st) -> call_apart X st c ->
  kept_apart X (mem (snd (do_call c st))) (heap (snd (do_call c st))) /\
  block_bytes_same (mem st) (mem (snd (do_call c st))) X /\
  (fst (do_call c st) <> NULL -> fst (do_call c st) <> X + SIZEOF_BLOCK).
Proof.
  intros Hk [Hok Hap].
  pose proof (do_call_lost X c st (kept_apart_lost _ _ _ Hk) Hok) as [_ Hret].
  split; [|split; [|exact Hret]];
    destruct c as [s|q|q s]; cbn [do_call call_ok fst snd] in *.
  - now apply mm_malloc_apart.
  - now apply mm_free_apart.
  - destruct Hok as [Hreq Hq]. apply mm_realloc_apart; trivial.
    destruct Hq as [?|Hq]; [now left|]. destruct Hap as [?|Hap]; [now left|].
    right. now split.
  - now apply mm_malloc_apart.
  - now apply mm_free_apart.
  - destruct Hok as [Hreq Hq]. apply mm_realloc_apart; trivial.
    destruct Hq as [?|Hq]; [now left|]. destruct Hap as [?|Hap]; [now left|].
    right. now split.
Qed.

Lemma run_apart (X : Z) (cs : list call) (st : state) :
  kept_apart X (mem st) (heap st) -> calls_apart X st cs ->
  kept_apart X (mem (run cs st)) (heap (run cs st)) /\
  block_bytes_same (mem st) (mem (run cs st)) X /\
  (X + SIZEOF_BLOCK ∉ returned cs st).
Proof.
  revert st. induction cs as [|c cs IH]; intros st Hk Hok.
  - cbn. split; [exact Hk|]. split; [now intros x Hx | apply not_elem_of_nil].
  - cbn [calls_apart] in Hok. destruct Hok as [Hc Hcs].
    destruct (do_call_apart X c st Hk Hc) as (Hk1 & Hs1 & Hret).
    destruct (IH _ Hk1 Hcs) as (Hk2 & Hs2 & Hnot).
    cbn [run returned]. split; [exact Hk2|]. split.
    { now apply (block_bytes_same_trans _ (mem (snd (do_call c st)))). }
    destruct (do_call c st) as [p st1]. cbn [fst snd] in *.
    destruct (Z.eqb_spec p NULL) as [Hp|Hp]; [exact Hnot|].
    intros Hin. apply elem_of_cons in Hin. destruct Hin as [Heq|Hin]; [|contradiction].
    now apply (Hret Hp).
Qed.

(** X4: the first allocation after [mm_init(capacity)] on a fresh allocator
    succeeds exactly when the aligned request fits the capacity minus one
    header; it then returns the address right after the arena's first
    header.  When it fails, the index is left empty. *)
Theorem first_allocation_after_init (m : memory) (capacity base s : Z) :
  SIZEOF_BLOCK <= capacity < SIZE_MAX_PLUS_1 ->
  0 < base -> base <> SBRK_FAILED ->
  0 < s -> request_ok s ->
  let st0 := snd (mm_init capacity base (initial_state m)) in
  (fst (mm_malloc s st0) <> NULL <-> ALIGN s <= capacity - SIZEOF_BLOCK) /\
  (ALIGN s <= capacity - SIZEOF_BLOCK -> fst (mm_malloc s st0) = base + SIZEOF_BLOCK) /\
  (capacity - SIZEOF_BLOCK < ALIGN s -> heap (snd (mm_malloc s st0)) = []).
Proof.
  intros Hcap Hbase Hsbrk Hs Hreq st0.
  destruct (mm_init_from_fresh m capacity base Hcap Hsbrk) as (_ & _ & _ & Hh & Hsz & _).
  fold st0 in Hh, Hsz.
  destruct (mm_malloc_single s base st0 Hs Hreq Hh ltac:(consts; lia))
    as (Hfail & Hok & _). cbv zeta in Hfail, Hok. rewrite Hsz in Hfail, Hok.
  split; [split|split].
  - intros Hnn. destruct (Z.le_gt_cases (ALIGN s) (capacity - SIZEOF_BLOCK)); trivial.
    destruct (Hfail ltac:(lia)) as [Hn _]. contradiction.
  - intros Hle. destruct (Hok Hle) as [-> _]. consts. lia.
  - intros Hle. now destruct (Hok Hle).
  - intros Hlt. now destruct (Hfail Hlt) as (_ & ? & _).
Qed.

Lemma first_allocation_after_init_witness :
  (fst (mm_malloc 1000 (snd (mm_init 1024 4096 (initial_state zero_mem)))) <> NULL <->
   ALIGN 1000 <= 1024 - SIZEOF_BLOCK) /\
  (ALIGN 1000 <= 1024 - SIZEOF_BLOCK ->
   fst (mm_malloc 1000 (snd (mm_init 1024 4096 (initial_state zero_mem))))
   = 4096 + SIZEOF_BLOCK) /\
  (1024 - SIZEOF_BLOCK < ALIGN 1000 ->
   heap (snd (mm_malloc 1000 (snd (mm_init 1024 4096 (initial_state zero_mem))))) = []).
Proof.
  apply (first_allocation_after_init zero_mem 1024 4096 1000).
  - split; [discriminate | reflexivity].
  - reflexivity.
  - discriminate.
  - reflexivity.
  - split; [discriminate | reflexivity].
Defined.

(** X5: a run of allocations from an index that holds one block, each
    leaving room for a split, carves the block front to back: every request
    succeeds, each payload starts one header after the end of the previous
    one, and the index ends with the single block that is left, of the size
    that is left. *)
Theorem mallocs_carve (sizes : list Z) (st : state) (r : Z) :
  heap st = [r] -> 0 < r ->
  all_split (block_size (mem st) r) sizes ->
  fst (mallocs sizes st) = carve r sizes /\
  heap (snd (mallocs sizes st)) = [carve_rest r sizes] /\
  block_size (mem (snd (mallocs sizes st))) (carve_rest r sizes)
    = carve_left (block_size (mem st) r) sizes.
Proof.
  revert st r. induction sizes as [|s sizes IH]; intros st r Hh Hr Hall.
  { cbn. now rewrite Hh. }
  cbn [all_split] in Hall. destruct Hall as (Hs & Hreq & Hfit & Hrest).
  pose proof (ALIGN_range s) as Ha.
  destruct (mm_malloc_single s r st Hs Hreq Hh ltac:(consts; lia))
    as (_ & Hok & _ & Hsp). cbv zeta in Hok, Hsp.
  destruct (Hok ltac:(consts; lia)) as [Hp _].
  destruct (Hsp Hfit) as (Hh' & _ & Hsz' & _).
  cbn [mallocs carve carve_rest carve_left].
  destruct (mm_malloc s st) as [p st1]. cbn [fst snd] in *.
  rewrite <- Hsz' in Hrest.
  specialize (IH st1 _ Hh' ltac:(consts; lia) Hrest).
  destruct (mallocs sizes st1) as [ps st2]. cbn [fst snd] in *.
  destruct IH as (-> & -> & ->). now rewrite Hp, Hsz'.
Qed.

Lemma mallocs_carve_witness :
  fst (mallocs [128; 128; 128; 128; 128] arena_1024)
    = carve 4096 [128; 128; 128; 128; 128] /\
  heap (snd (mallocs [128; 128; 128; 128; 128] arena_1024))
    = [carve_rest 4096 [128; 128; 128; 128; 128]] /\
  block_size (mem (snd (mallocs [128; 128; 128; 128; 128] arena_1024)))
    (carve_rest 4096 [128; 128; 128; 128; 128])
    = carve_left (block_size (mem arena_1024) 4096) [128; 128; 128; 128; 128].
Proof.
  apply (mallocs_carve [128; 128; 128; 128; 128] arena_1024 4096).
  - eval_eq.
  - reflexivity.
  - vm_compute. repeat split; discriminate.
Defined.

(** X6: a block handed out by [mm_malloc] is left alone.  Whatever the
    caller then does with other blocks (allocate; free or reallocate
    pointers of blocks in use that overlap neither the index blocks nor this
    block), the header and the payload of the block keep every byte, its
    pointer is never returned again, and no index block overlaps it. *)
Theorem allocated_block_isolated (s : Z) (st : state) (cs : list call) :
  request_ok s -> index_disjoint (mem st) (heap st) ->
  fst (mm_malloc s st) <> NULL ->
  calls_apart (fst (mm_malloc s st) - SIZEOF_BLOCK) (snd (mm_malloc s st)) cs ->
  block_bytes_same (mem (snd (mm_malloc s st))) (mem (run cs (snd (mm_malloc s st))))
    (fst (mm_malloc s st) - SIZEOF_BLOCK) /\
  (forall k, 0 <= k < s ->
     mem (run cs (snd (mm_malloc s st))) (fst (mm_malloc s st) + k)
     = mem (snd (mm_malloc s st)) (fst (mm_malloc s st) + k)) /\
  (fst (mm_malloc s st) ∉ returned cs (snd (mm_malloc s st))) /\
  kept_apart (fst (mm_malloc s st) - SIZEOF_BLOCK)
    (mem (run cs (snd (mm_malloc s st)))) (heap (run cs (snd (mm_malloc s st)))).
Proof.
  intros Hreq Hdis Hnn Hcs. pose proof Hreq as [Hs0 Hno].
  pose proof (mm_malloc_fresh_apart s st Hreq Hdis Hnn) as Hk.
  destruct (run_apart _ cs _ Hk Hcs) as (Hk' & Hsame & Hret).
  split; [exact Hsame|]. split; [|split; [|exact Hk']].
  2:{ replace (fst (mm_malloc s st) - SIZEOF_BLOCK + SIZEOF_BLOCK)
        with (fst (mm_malloc s st)) in Hret by lia. exact Hret. }
  intros k Hkr. apply Hsame.
  destruct (Z.eq_dec s 0) as [->|Hs]; [lia|].
  destruct (mm_malloc_outcome s st Hreq) as (_ & _ & [[Hn _]|Hex]); [contradiction|].
  destruct Hex as (root & rest & Hh & Hcase).
  destruct Hcase as [(Hn & _) | (Hr & Ha & Hp' & _)]; [contradiction|].
  destruct (mm_malloc_taken_size s st root rest Hs Hreq Hh Hr ltac:(lia)) as [_ Hnew].
  rewrite Hp'. replace (root + SIZEOF_BLOCK - SIZEOF_BLOCK) with root by lia.
  rewrite Hnew.
  destruct (Z.leb_spec (ALIGN s + SIZEOF_BLOCK + ALIGN_1) (block_size (mem st) root));
    consts; lia.
Qed.

Lemma allocated_block_isolated_witness :
  block_bytes_same (mem (snd (mm_malloc 100 arena_1024)))
    (mem (run [Malloc 50; Free 4248] (snd (mm_malloc 100 arena_1024))))
    (fst (mm_malloc 100 arena_1024) - SIZEOF_BLOCK) /\
  (fst (mm_malloc 100 arena_1024)
     ∉ returned [Malloc 50; Free 4248] (snd (mm_malloc 100 arena_1024))).
Proof.
  assert (Hh : heap arena_1024 = [4096]) by eval_eq.
  assert (Hh2 : heap (snd (do_call (Malloc 50) (snd (mm_malloc 100 arena_1024))))
                = [4304]) by eval_eq.
  destruct (allocated_block_isolated 100 arena_1024 [Malloc 50; Free 4248])
    as (Hsame & _ & Hret & _).
  - split; [discriminate | reflexivity].
  - rewrite Hh. split; [apply NoDup_singleton|].
    intros b c Hb Hc Hne. apply list_elem_of_singleton in Hb, Hc. congruence.
  - vm_compute. discriminate.
  - cbn [calls_apart call_apart call_ok].
    split; [split; [|exact I]|split; [|exact I]].
    + split; [discriminate | reflexivity].
    + split.
      * split; [vm_compute; discriminate|]. split; [|split].
        -- apply (not_elem_of_evaluated _ _ _ Hh2). reflexivity.
        -- apply (forall_evaluated _ _ _ Hh2). apply Forall_cons_2; [|apply Forall_nil_2].
           right. vm_compute. discriminate.
        -- unfold strictly_inside. vm_compute. intros [Hlt _]. discriminate.
      * right. vm_compute. discriminate.
  - split; [exact Hsame | exact Hret].
Defined.

(** ** What [mm_free] changes *)

Lemma coalesce_count_le (fuel : nat) (st : state) :
  (heap_count (coalesce fuel st) <= heap_count st)%nat.
Proof.
  revert st. induction fuel as [|fuel IH]; intros st; [reflexivity|].
  cbn [coalesce]. destruct (find_merge _ st 0) as [i|] eqn:Hf; [|reflexivity].
  apply find_merge_some in Hf. specialize (IH (merge_at st i)).
  rewrite merge_at_count in IH by lia. lia.
Qed.

Lemma heap_insert_count (st : state) (b : Z) :
  heap_count (heap_insert st b) =
    if (MAX_HEAP_SIZE <=? heap_count st)%nat then heap_count st else S (heap_count st).
Proof.
  destruct (Nat.leb_spec MAX_HEAP_SIZE (heap_count st)) as [Hge|Hlt].
  - now rewrite heap_insert_full.
  - pose proof (heap_insert_perm st b Hlt) as Hp. apply Permutation_length in Hp.
    unfold heap_count. now rewrite Hp.
Qed.

Lemma mm_free_bounds (ptr : Z) (st : state) :
  heap_start (mm_free ptr st) = heap_start st /\
  heap_size (mm_free ptr st) = heap_size st.
Proof.
  unfold mm_free. destruct (_ || _); [now split|].
  now rewrite coalesce_heap_start, coalesce_heap_size,
    heap_insert_heap_start, heap_insert_heap_size.
Qed.

(** X7: [mm_free] ignores a pointer that is null, below [heap_start], or at
    or past [(char* )heap_start + heap_size], a sum taken in 64 bits: when
    it wraps around, every pointer is ignored.  For any other pointer it
    keeps the arena bounds, adds at most the freed block to the index, and
    stops coalescing only when no slot passes the merge test any more.  It
    writes nothing but the [is_free] byte of the freed block and size fields
    of index entries: payloads are left as they are. *)
Theorem mm_free_contract (ptr : Z) (st : state) :
  (0 <= heap_start st < SIZE_MAX_PLUS_1 -> 0 <= heap_size st < SIZE_MAX_PLUS_1 ->
   arena_end st = wrap (heap_start st + heap_size st) /\
   (SIZE_MAX_PLUS_1 <= heap_start st + heap_size st -> mm_free ptr st = st)) /\
  (ptr = NULL \/ ptr < heap_start st \/ arena_end st <= ptr ->
   mm_free ptr st = st) /\
  (ptr <> NULL -> heap_start st <= ptr < arena_end st ->
   heap_start (mm_free ptr st) = heap_start st /\
   heap_size (mm_free ptr st) = heap_size st /\
   (forall c, c ∈ heap (mm_free ptr st) -> c = ptr - SIZEOF_BLOCK \/ c ∈ heap st) /\
   (heap_count (mm_free ptr st) <= S (heap_count st))%nat /\
   (forall j, (j < heap_count (mm_free ptr st))%nat ->
      can_merge (mm_free ptr st) j = false) /\
   (forall x,
      x <> ptr - SIZEOF_BLOCK + OFF_IS_FREE ->
      (x < ptr - SIZEOF_BLOCK \/ ptr - SIZEOF_BLOCK + 8 <= x) ->
      (forall c, c ∈ heap st -> x < c \/ c + 8 <= x) ->
      mem (mm_free ptr st) x = mem st x)).
Proof.
  split.
  { intros Hs Hz. split; [now apply ptr_add_wrap|]. intros Hwrap.
    apply mm_free_invalid. unfold arena_end. rewrite ptr_add_large by exact Hwrap.
    destruct (Z.lt_ge_cases ptr (heap_start st)); [tauto|]. right. right. lia. }
  split; [apply mm_free_invalid|]. intros Hn Hr.
  split; [|split; [|split; [apply mm_free_elem|]]].
  1-2: rewrite mm_free_valid by trivial; cbv zeta.
  - now rewrite coalesce_heap_start, heap_insert_heap_start.
  - now rewrite coalesce_heap_size, heap_insert_heap_size.
  - rewrite mm_free_valid by trivial. cbv zeta.
    set (B := ptr - SIZEOF_BLOCK).
    set (st1 := heap_insert (with_mem st (set_is_free (mem st) B true)) B).
    split; [|split].
    + pose proof (coalesce_count_le (heap_count st1) st1) as Hc.
      unfold st1 in Hc at 3. rewrite heap_insert_count in Hc.
      change (heap_count (with_mem st (set_is_free (mem st) B true)))
        with (heap_count st) in Hc.
      destruct (MAX_HEAP_SIZE <=? heap_count st)%nat; lia.
    + intros j Hj.
      apply (find_merge_none _ _ 0 (coalesce_done (heap_count st1) st1 (le_n _))). lia.
    + intros x Hflag HB Hidx. rewrite coalesce_mem.
      * unfold st1. rewrite heap_insert_mem. cbn [mem with_mem].
        apply set_is_free_other. exact Hflag.
      * intros c Hc. apply heap_insert_elem in Hc. cbn [heap with_mem] in Hc.
        destruct Hc as [->|Hc]; [exact HB | now apply Hidx].
Qed.

(** ** After [mm_cleanup] *)

(** X8: [mm_cleanup] forgets the arena without touching memory, and the
    allocator is inert from then on (as it is before the first [mm_init]):
    every [mm_malloc] returns NULL, every [mm_free] is ignored, and
    [mm_realloc] leaves the state as it is and returns NULL or, when the
    8 bytes found in front of the pointer read as a size that covers the
    request, the pointer itself. *)
Theorem cleanup_inert (st : state) (s p : Z) :
  mem (mm_cleanup st) = mem st /\
  mm_malloc s (mm_cleanup st) = (NULL, mm_cleanup st) /\
  mm_free p (mm_cleanup st) = mm_cleanup st /\
  snd (mm_realloc p s (mm_cleanup st)) = mm_cleanup st /\
  (fst (mm_realloc p s (mm_cleanup st)) = NULL \/
   fst (mm_realloc p s (mm_cleanup st)) = p /\
   s <> 0 /\ s <= block_size (mem st) (p - SIZEOF_BLOCK)).
Proof.
  assert (Hm : forall t, mm_malloc t (mm_cleanup st) = (NULL, mm_cleanup st)).
  { intros t. now apply mm_malloc_empty. }
  assert (Hf : mm_free p (mm_cleanup st) = mm_cleanup st).
  { apply mm_free_outside. cbn [mm_cleanup heap_start heap_size]. consts. lia. }
  split; [reflexivity|]. split; [apply Hm|]. split; [exact Hf|].
  unfold mm_realloc. destruct (Z.eqb_spec p NULL).
  { rewrite Hm. cbn [fst snd]. tauto. }
  destruct (Z.eqb_spec s 0).
  { rewrite Hf. cbn [fst snd]. tauto. }
  destruct (Z.leb_spec s (block_size (mem (mm_cleanup st)) (p - SIZEOF_BLOCK))).
  { cbn [fst snd]. split; [reflexivity|]. right. tauto. }
  rewrite Hm. cbn [negb fst snd]. rewrite Z.eqb_refl. cbn [negb fst snd]. tauto.
Qed.

(** ** The index never outgrows its array *)

Lemma mm_malloc_count (s : Z) (st : state) :
  (heap_count st <= MAX_HEAP_SIZE)%nat ->
  (heap_count (snd (mm_malloc s st)) <= MAX_HEAP_SIZE)%nat.
Proof.
  intros Hc. unfold mm_malloc. destruct (s =? 0); [exact Hc|].
  assert (Hex : (heap_count (snd (heap_extract_min st)) <= heap_count st)%nat).
  { destruct (heap st) as [|b rest] eqn:Hh.
    - now rewrite heap_extract_min_empty.
    - destruct (heap_extract_min_cons st b rest Hh) as (_ & _ & _ & _ & Hp).
      apply Permutation_length in Hp. unfold heap_count. rewrite Hp, Hh. simpl. lia. }
  destruct (heap_extract_min st) as [b st1]. cbn [fst snd] in *.
  destruct (_ || _); [cbn [snd]; lia|].
  destruct (_ <=? _); cbn [snd]; unfold heap_count in *; cbn [heap with_mem]; [|lia].
  fold (heap_count (heap_insert (with_mem st1
          (set_is_free
             (set_size (mem st1) (b + SIZEOF_BLOCK + ALIGN s)
                (wrap (wrap (block_size (mem st1) b - ALIGN s) - SIZEOF_BLOCK)))
             (b + SIZEOF_BLOCK + ALIGN s) true)) (b + SIZEOF_BLOCK + ALIGN s))).
  rewrite heap_insert_count. unfold heap_count. cbn [heap with_mem].
  destruct (Nat.leb_spec MAX_HEAP_SIZE (length (heap st1))); lia.
Qed.

Lemma mm_free_count (p : Z) (st : state) :
  (heap_count st <= MAX_HEAP_SIZE)%nat ->
  (heap_count (mm_free p st) <= MAX_HEAP_SIZE)%nat.
Proof.
  intros Hc. unfold mm_free. destruct (_ || _); [exact Hc|].
  etransitivity; [apply coalesce_count_le|].
  rewrite heap_insert_count.
  change (heap_count (with_mem st (set_is_free (mem st) (p - SIZEOF_BLOCK) true)))
    with (heap_count st).
  destruct (Nat.leb_spec MAX_HEAP_SIZE (heap_count st)); lia.
Qed.

Lemma mm_realloc_count (p s : Z) (st : state) :
  (heap_count st <= MAX_HEAP_SIZE)%nat ->
  (heap_count (snd (mm_realloc p s st)) <= MAX_HEAP_SIZE)%nat.
Proof.
  intros Hc. unfold mm_realloc. destruct (p =? NULL); [now apply mm_malloc_count|].
  destruct (s =? 0); [now apply mm_free_count|].
  destruct (_ <=? _); [exact Hc|].
  pose proof (mm_malloc_count s st Hc) as Hm.
  destruct (mm_malloc s st) as [p' st1]. cbn [fst snd] in *.
  destruct (negb _); cbn [snd]; [|exact Hm].
  now apply mm_free_count.
Qed.

Lemma mm_init_count (n base : Z) (st : state) :
  (heap_count st <= MAX_HEAP_SIZE)%nat ->
  (heap_count (snd (mm_init n base st)) <= MAX_HEAP_SIZE)%nat.
Proof.
  intros Hc. unfold mm_init. destruct (_ <? _); [exact Hc|].
  cbn [heap_start]. destruct (_ =? _); [exact Hc|]. cbn [snd].
  rewrite heap_insert_count. unfold heap_count in *. cbn [heap with_mem].
  destruct (Nat.leb_spec MAX_HEAP_SIZE (length (heap st))); lia.
Qed.

(** X9: the index never outgrows its array of [MAX_HEAP_SIZE] slots: from a
    state within the bound, any sequence of [mm_malloc], [mm_free] and
    [mm_realloc] calls, with any arguments, followed by any [mm_init], stays
    within it. *)
Theorem index_never_overflows (cs : list call) (st : state) (n base : Z) :
  (heap_count st <= MAX_HEAP_SIZE)%nat ->
  (heap_count (run cs st) <= MAX_HEAP_SIZE)%nat /\
  (heap_count (snd (mm_init n base (run cs st))) <= MAX_HEAP_SIZE)%nat.
Proof.
  intros Hc.
  assert (Hrun : (heap_count (run cs st) <= MAX_HEAP_SIZE)%nat).
  { revert st Hc. induction cs as [|c cs IH]; intros st Hc; [exact Hc|].
    cbn [run]. apply IH. destruct c as [s|q|q s]; cbn [do_call snd].
    - now apply mm_malloc_count.
    - now apply mm_free_count.
    - now apply mm_realloc_count. }
  split; [exact Hrun | now apply mm_init_count].
Qed.

Lemma index_never_overflows_witness :
  (heap_count (run [Malloc 100; Free 4120] full_index) <= MAX_HEAP_SIZE)%nat /\
  (heap_count (snd (mm_init 24 28672 (run [Malloc 100; Free 4120] full_index)))
   <= MAX_HEAP_SIZE)%nat.
Proof.
  apply (index_never_overflows [Malloc 100; Free 4120] full_index 24 28672).
  assert (Hc : heap_count full_index = MAX_HEAP_SIZE) by eval_eq.
  rewrite Hc. reflexivity.
Defined.

(** ** Alignment *)

(** X10: [ALIGN] rounds up to the next multiple of 8 as long as [size + 7]
    fits in a [size_t]; for the seven sizes above [2^64 - 8] the sum wraps
    and the result is 0. *)
Theorem ALIGN_spec (s : Z) :
  0 <= s < SIZE_MAX_PLUS_1 ->
  ALIGN s mod 8 = 0 /\
  (s + 7 < SIZE_MAX_PLUS_1 -> s <= ALIGN s < s + 8) /\
  (SIZE_MAX_PLUS_1 <= s + 7 -> ALIGN s = 0).
Proof.
  intros Hs. split; [|split].
  - rewrite ALIGN_eq, Z.mul_comm. apply Z_mod_mult.
  - intros Hfit. apply ALIGN_bounds; lia.
  - intros Hwrap. rewrite ALIGN_eq. unfold wrap.
    unfold SIZE_MAX_PLUS_1 in *. Z.div_mod_to_equations. lia.
Qed.

Lemma ALIGN_spec_witness :
  ALIGN 100 mod 8 = 0 /\
  (100 + 7 < SIZE_MAX_PLUS_1 -> 100 <= ALIGN 100 < 100 + 8) /\
  (SIZE_MAX_PLUS_1 <= 100 + 7 -> ALIGN 100 = 0).
Proof.
  apply (ALIGN_spec 100). split; [discriminate | reflexivity].
Defined.

(** X11: a request above [2^64 - 8] is not refused.  Its aligned size is 0,
    so on any index whose root is not null [mm_malloc] succeeds and returns
    the root's payload, although the block it marks as used holds fewer
    than 32 bytes. *)
Theorem mm_malloc_near_max_succeeds (s : Z) (st : state) (root : Z) (rest : list Z) :
  SIZE_MAX_PLUS_1 - 8 < s < SIZE_MAX_PLUS_1 ->
  heap st = root :: rest -> root <> NULL ->
  fst (mm_malloc s st) = root + SIZEOF_BLOCK /\
  block_size (mem (snd (mm_malloc s st))) root < SIZEOF_BLOCK + ALIGN_1 /\
  block_is_free (mem (snd (mm_malloc s st))) root = false.
Proof.
  intros Hs Hh Hr.
  assert (Ha : ALIGN s = 0).
  { rewrite ALIGN_eq. unfold wrap. unfold SIZE_MAX_PLUS_1 in *.
    Z.div_mod_to_equations. lia. }
  pose proof (block_size_range (mem st) root) as Hold.
  assert (Hthr : wrap (wrap (ALIGN s + SIZEOF_BLOCK) + ALIGN_1) = SIZEOF_BLOCK + ALIGN_1).
  { rewrite Ha. reflexivity. }
  assert (Hs0 : s <> 0) by (unfold SIZE_MAX_PLUS_1 in Hs; lia).
  set (old := block_size (mem st) root) in *.
  destruct (Z.le_gt_cases (SIZEOF_BLOCK + ALIGN_1) old) as [Hsplit|Hsmall].
  - rewrite (mm_malloc_split s st root rest) by (trivial; fold old; lia).
    rewrite Ha. cbn [fst snd mem with_mem]. split; [reflexivity|]. split.
    + unfold mem_after_take.
      rewrite (block_size_ext (set_size (mem_after_carve (mem st) root 0) root 0))
        by (intros; consts; now frame).
      rewrite block_size_set_size. consts. reflexivity.
    + unfold mem_after_take.
      rewrite (block_is_free_ext
                 (set_is_free (set_size (mem_after_carve (mem st) root 0) root 0)
                    root false))
        by (consts; now frame).
      apply block_is_free_set_is_free.
  - rewrite (mm_malloc_no_split s st root rest) by (trivial; fold old; lia).
    rewrite Ha. cbn [fst snd mem with_mem]. split; [reflexivity|]. split.
    + unfold mem_after_take.
      rewrite (block_size_ext (mem st)) by (intros; consts; now frame).
      fold old. lia.
    + unfold mem_after_take.
      rewrite (block_is_free_ext (set_is_free (mem st) root false))
        by (consts; now frame).
      apply block_is_free_set_is_free.
Qed.

Lemma mm_malloc_near_max_succeeds_witness :
  fst (mm_malloc (SIZE_MAX_PLUS_1 - 1) arena_1024) = 4096 + SIZEOF_BLOCK /\
  block_size (mem (snd (mm_malloc (SIZE_MAX_PLUS_1 - 1) arena_1024))) 4096
    < SIZEOF_BLOCK + ALIGN_1 /\
  block_is_free (mem (snd (mm_malloc (SIZE_MAX_PLUS_1 - 1) arena_1024))) 4096 = false.
Proof.
  apply (mm_malloc_near_max_succeeds (SIZE_MAX_PLUS_1 - 1) arena_1024 4096 []).
  - split; reflexivity.
  - eval_eq.
  - discriminate.
Defined.

Lemma heap_insert_second (st : state) (x b : Z) :
  heap st = [x] ->
  heap (heap_insert st b) =
    if block_size (mem st) b <? block_size (mem st) x then [b; x] else [x; b].
Proof.
  intros Hh. unfold heap_insert, heap_count. rewrite Hh.
  cbn [length Nat.leb MAX_HEAP_SIZE heap with_heap app].
  unfold heapify_up. cbn [heapify_up_loop Nat.ltb Nat.leb Nat.sub Nat.div Nat.divmod fst].
  reflexivity.
Qed.

(** Freeing the block at the start of the arena when the index holds only
    its right-hand neighbour, which reaches the end of the arena: the two
    are merged, and the merged block is the one that leaves the index. *)
Lemma free_after_split (st : state) (r R : Z) :
  heap st = [R] -> heap_start st = r -> 0 < r ->
  heap_start st + heap_size st < SIZE_MAX_PLUS_1 ->
  r + SIZEOF_BLOCK + block_size (mem st) r = R ->
  R + SIZEOF_BLOCK + block_size (mem st) R = heap_start st + heap_size st ->
  block_is_free (mem st) R = true ->
  heap (mm_free (r + SIZEOF_BLOCK) st) = [R] /\
  block_size (mem (mm_free (r + SIZEOF_BLOCK) st)) r
    = heap_size st - SIZEOF_BLOCK /\
  block_is_free (mem (mm_free (r + SIZEOF_BLOCK) st)) r = true /\
  (forall x, x < r \/ r + 9 <= x ->
     mem (mm_free (r + SIZEOF_BLOCK) st) x = mem st x).
Proof.
  intros Hh Hstart Hr Hcap HR Hend HRfree.
  pose proof (block_size_range (mem st) r) as Hrr.
  pose proof (block_size_range (mem st) R) as HRr.
  rewrite mm_free_valid by (rewrite ?arena_end_small by exact Hcap; consts; lia). cbv zeta.
  replace (r + SIZEOF_BLOCK - SIZEOF_BLOCK) with r by lia.
  set (m1 := set_is_free (mem st) r true).
  set (st1 := heap_insert (with_mem st m1) r).
  assert (Hm1 : mem st1 = m1) by (unfold st1; now rewrite heap_insert_mem).
  assert (Hs1 : block_size m1 r = block_size (mem st) r).
  { apply block_size_ext. intros x Hx. unfold m1. consts. now frame. }
  assert (HsR1 : block_size m1 R = block_size (mem st) R).
  { apply block_size_ext. intros x Hx. unfold m1. consts. now frame. }
  assert (Hf1 : block_is_free m1 r = true) by apply block_is_free_set_is_free.
  assert (HfR1 : block_is_free m1 R = true).
  { rewrite <- HRfree. apply block_is_free_ext. unfold m1. consts. now frame. }
  assert (Hend1 : arena_end st1 = heap_start st + heap_size st).
  { unfold arena_end, st1. rewrite heap_insert_heap_start, heap_insert_heap_size.
    cbn [heap_start heap_size with_mem]. now apply ptr_add_small. }
  assert (Hnr : next_block m1 r = R).
  { rewrite next_block_small; rewrite Hs1; consts; lia. }
  assert (HnR : next_block m1 R = heap_start st + heap_size st).
  { rewrite next_block_small; rewrite HsR1; consts; lia. }
  assert (Hcr : forall i, heap st1 !!! i = r -> can_merge st1 i = true).
  { intros i Hi. rewrite (can_merge_at st1 i r Hi), Hm1, Hnr, Hend1, Hf1, HfR1.
    destruct (Z.ltb_spec R (heap_start st + heap_size st)); [reflexivity | consts; lia]. }
  assert (HcR : forall i, heap st1 !!! i = R -> can_merge st1 i = false).
  { intros i Hi. rewrite (can_merge_at st1 i R Hi), Hm1, HnR, Hend1.
    rewrite Z.ltb_irrefl. now destruct (block_is_free m1 R). }
  set (m2 := set_size m1 r (wrap (block_size m1 r + wrap (SIZEOF_BLOCK + block_size m1 R)))).
  assert (Hmerge : exists i, find_merge (heap_count st1) st1 0 = Some i /\
            mem (merge_at st1 i) = m2 /\ heap (merge_at st1 i) = [R]).
  { assert (Hh1 : heap st1 =
              if block_size m1 r <? block_size m1 R then [r; R] else [R; r]).
    { unfold st1. now rewrite (heap_insert_second (with_mem st m1) R r Hh). }
    unfold heap_count. unfold merge_at. rewrite Hm1.
    destruct (block_size m1 r <? block_size m1 R).
    - exists 0%nat. rewrite Hh1. cbn [length find_merge].
      rewrite (Hcr 0%nat) by now rewrite Hh1.
      split; [reflexivity|]. cbn [mem heap].
      change ([r; R] !!! 0%nat) with r. rewrite Hnr.
      split; reflexivity.
    - exists 1%nat. rewrite Hh1. cbn [length find_merge].
      rewrite (HcR 0%nat) by now rewrite Hh1.
      rewrite (Hcr 1%nat) by now rewrite Hh1.
      split; [reflexivity|]. cbn [mem heap].
      change ([R; r] !!! 1%nat) with r. rewrite Hnr.
      split; reflexivity. }
  destruct Hmerge as (i & Hfind & Hm2 & Hh2).
  assert (Hcount1 : exists n, heap_count st1 = S (S n)).
  { exists 0%nat. unfold st1. rewrite heap_insert_count. unfold heap_count.
    cbn [heap with_mem]. rewrite Hh. reflexivity. }
  destruct Hcount1 as [n Hn]. rewrite Hn. cbn [coalesce]. rewrite Hfind.
  set (st2 := merge_at st1 i) in *.
  assert (HsR2 : block_size m2 R = block_size (mem st) R).
  { rewrite <- HsR1. apply block_size_ext. intros x Hx. unfold m2. consts. now frame. }
  assert (Hstop : find_merge (heap_count st2) st2 0 = None).
  { unfold heap_count. rewrite Hh2. cbn [length find_merge].
    rewrite (can_merge_at st2 0 R) by now rewrite Hh2.
    assert (Hend2 : arena_end st2 = heap_start st + heap_size st).
    { rewrite <- Hend1. reflexivity. }
    rewrite Hm2, Hend2, next_block_small; rewrite HsR2; [|consts; lia].
    rewrite Hend, Z.ltb_irrefl.
    now destruct (block_is_free m2 R). }
  rewrite Hstop, Hh2, Hm2. split; [reflexivity|]. split; [|split].
  - unfold m2. rewrite block_size_set_size, wrap_small by apply wrap_range.
    rewrite Hs1, HsR1. unfold wrap. unfold SIZE_MAX_PLUS_1 in *. consts.
    rewrite Zplus_mod_idemp_r. rewrite Z.mod_small; lia.
  - rewrite <- Hf1. apply block_is_free_ext. unfold m2. consts. now frame.
  - intros x Hx. unfold m2, m1. consts. now frame.
Qed.

(** Freeing the only block of the arena when the index is empty: nothing to
    merge with, the block is back in the index. *)
Lemma free_whole (st : state) (r : Z) :
  heap st = [] -> heap_start st = r -> 0 < r ->
  SIZEOF_BLOCK < heap_size st ->
  heap_start st + heap_size st < SIZE_MAX_PLUS_1 ->
  r + SIZEOF_BLOCK + block_size (mem st) r = heap_start st + heap_size st ->
  heap (mm_free (r + SIZEOF_BLOCK) st) = [r] /\
  mem (mm_free (r + SIZEOF_BLOCK) st) = set_is_free (mem st) r true.
Proof.
  intros Hh Hstart Hr Hcap Hfits Hend.
  rewrite mm_free_valid by (rewrite ?arena_end_small by exact Hfits; consts; lia).
  cbv zeta.
  replace (r + SIZEOF_BLOCK - SIZEOF_BLOCK) with r by lia.
  set (m1 := set_is_free (mem st) r true).
  set (st1 := heap_insert (with_mem st m1) r).
  assert (Hh1 : heap st1 = [r]).
  { unfold st1, heap_insert, heap_count. cbn [heap with_mem with_heap]. rewrite Hh.
    reflexivity. }
  assert (Hm1 : mem st1 = m1) by (unfold st1; now rewrite heap_insert_mem).
  assert (Hs1 : block_size m1 r = block_size (mem st) r).
  { apply block_size_ext. intros x Hx. unfold m1. consts. now frame. }
  assert (Hend1 : arena_end st1 = heap_start st + heap_size st).
  { unfold arena_end, st1. rewrite heap_insert_heap_start, heap_insert_heap_size.
    cbn [heap_start heap_size with_mem]. now apply ptr_add_small. }
  assert (Hstop : coalesce (heap_count st1) st1 = st1).
  { unfold heap_count. rewrite Hh1. cbn [length coalesce]. unfold heap_count.
    rewrite Hh1. cbn [length find_merge].
    rewrite (can_merge_at st1 0 r) by now rewrite Hh1.
    rewrite Hm1, Hend1, next_block_small; rewrite Hs1; [|lia].
    rewrite Hend, Z.ltb_irrefl.
    now destruct (block_is_free m1 r). }
  rewrite Hstop. now split.
Qed.

(** When the 64-bit sum [heap_start + heap_size] wraps around, [mm_free]
    ignores every pointer. *)
Lemma mm_free_wrapping (p : Z) (st : state) :
  heap_size st <= SIZE_MAX_PLUS_1 ->
  SIZE_MAX_PLUS_1 <= heap_start st + heap_size st ->
  mm_free p st = st.
Proof.
  intros Hz Hwrap. apply mm_free_invalid. unfold arena_end.
  rewrite ptr_add_large by exact Hwrap.
  destruct (Z.lt_ge_cases p (heap_start st)); [tauto|]. right. right. lia.
Qed.

Lemma mm_malloc_bounds (s : Z) (st : state) :
  heap_start (snd (mm_malloc s st)) = heap_start st /\
  heap_size (snd (mm_malloc s st)) = heap_size st.
Proof.
  unfold mm_malloc. destruct (s =? 0); [now split|].
  assert (Hex : heap_start (snd (heap_extract_min st)) = heap_start st /\
                heap_size (snd (heap_extract_min st)) = heap_size st).
  { unfold heap_extract_min. destruct (heap st); now split. }
  destruct (heap_extract_min st) as [b st1]. cbn [fst snd] in *.
  destruct (_ || _); [exact Hex|].
  destruct (_ <=? _); cbn [snd heap_start heap_size with_mem]; [|exact Hex].
  now rewrite heap_insert_heap_start, heap_insert_heap_size.
Qed.

(** X12: one allocation from a fresh arena, freed again, the arena ending
    below [2^64].  If the block was taken whole, the index is as after
    [mm_init].  If it was split, the header at the start of the arena has its
    full size back and is flagged free, but the index holds only the
    remainder with its old size: a request larger than the remainder fails
    although the whole arena is free.  When the end of the arena is not
    below [2^64], the bound of [mm_free] wraps around and the pointer is
    ignored: the block stays in use. *)
Theorem malloc_free_round_trip (m : memory) (capacity base s : Z) :
  SIZEOF_BLOCK <= capacity < SIZE_MAX_PLUS_1 ->
  0 < base -> base <> SBRK_FAILED ->
  0 < s -> request_ok s ->
  ALIGN s <= capacity - SIZEOF_BLOCK ->
  let st0 := snd (mm_init capacity base (initial_state m)) in
  let st2 := mm_free (fst (mm_malloc s st0)) (snd (mm_malloc s st0)) in
  (base + capacity < SIZE_MAX_PLUS_1 ->
   block_size (mem st2) base = capacity - SIZEOF_BLOCK /\
   block_is_free (mem st2) base = true /\
   (capacity - SIZEOF_BLOCK < ALIGN s + SIZEOF_BLOCK + ALIGN_1 -> heap st2 = [base]) /\
   (ALIGN s + SIZEOF_BLOCK + ALIGN_1 <= capacity - SIZEOF_BLOCK ->
      heap st2 = [base + SIZEOF_BLOCK + ALIGN s] /\
      block_size (mem st2) (base + SIZEOF_BLOCK + ALIGN s)
        = capacity - SIZEOF_BLOCK - ALIGN s - SIZEOF_BLOCK /\
      forall t, 0 < t -> request_ok t ->
        capacity - SIZEOF_BLOCK - ALIGN s - SIZEOF_BLOCK < ALIGN t ->
        fst (mm_malloc t st2) = NULL)) /\
  (SIZE_MAX_PLUS_1 <= base + capacity ->
   st2 = snd (mm_malloc s st0) /\ block_is_free (mem st2) base = false).
Proof.
  intros Hcap Hbase Hsbrk Hs Hreq Hfit st0 st2. pose proof Hreq as [Hs0 Hno].
  destruct (mm_init_from_fresh m capacity base Hcap Hsbrk)
    as (_ & Hstart & Hsize & Hh & Hsz & _).
  fold st0 in Hstart, Hsize, Hh, Hsz.
  pose proof (ALIGN_bounds s Hs0 ltac:(consts; lia)) as Ha.
  destruct (mm_malloc_single s base st0 Hs Hreq Hh ltac:(consts; lia))
    as (_ & Hok & Hwhole & Hsplit). cbv zeta in Hok, Hwhole, Hsplit.
  rewrite Hsz in Hok, Hwhole, Hsplit.
  destruct (Hok Hfit) as [Hp Hused].
  destruct (mm_malloc_bounds s st0) as [Hstart1 Hsize1].
  rewrite Hstart in Hstart1. rewrite Hsize in Hsize1.
  subst st2. rewrite Hp.
  set (st1 := snd (mm_malloc s st0)) in *. set (a := ALIGN s) in *.
  split.
  2:{ intros Hwrap. rewrite mm_free_wrapping by (rewrite ?Hstart1, Hsize1; lia).
      split; [reflexivity | exact Hused]. }
  intros Hfits.
  destruct (Z.le_gt_cases (a + SIZEOF_BLOCK + ALIGN_1) (capacity - SIZEOF_BLOCK))
    as [Hsp|Hwh].
  - destruct (Hsplit Hsp) as (Hh1 & Hr1 & HR1 & HRf).
    destruct (free_after_split st1 base (base + SIZEOF_BLOCK + a) Hh1 Hstart1 Hbase)
      as (Hh2 & Hsz2 & Hf2 & Hframe).
    + rewrite Hstart1, Hsize1. lia.
    + rewrite Hr1. reflexivity.
    + rewrite HR1, Hstart1, Hsize1. lia.
    + exact HRf.
    + rewrite Hsize1 in Hsz2.
      assert (HR2 : block_size (mem (mm_free (base + SIZEOF_BLOCK) st1))
                      (base + SIZEOF_BLOCK + a)
                    = capacity - SIZEOF_BLOCK - a - SIZEOF_BLOCK).
      { rewrite <- HR1. apply block_size_ext. intros x Hx. apply Hframe.
        consts. lia. }
      split; [exact Hsz2|]. split; [exact Hf2|].
      split; [intros; exfalso; consts; lia|]. intros _.
      split; [exact Hh2|]. split; [exact HR2|].
      intros t Ht Hreqt Hbig.
      destruct (mm_malloc_single t (base + SIZEOF_BLOCK + a)
                  (mm_free (base + SIZEOF_BLOCK) st1) Ht Hreqt Hh2 ltac:(consts; lia))
        as (Hfail & _). cbv zeta in Hfail. rewrite HR2 in Hfail.
      now destruct (Hfail Hbig).
  - destruct (Hwhole ltac:(lia)) as [Hh1 Hr1].
    destruct (free_whole st1 base Hh1 Hstart1 Hbase) as [Hh2 Hm2].
    + rewrite Hsize1. consts. lia.
    + rewrite Hstart1, Hsize1. lia.
    + rewrite Hr1, Hstart1, Hsize1. lia.
    + rewrite Hm2. split; [|split; [apply block_is_free_set_is_free|]].
      * rewrite <- Hr1. apply block_size_ext. intros x Hx. consts. now frame.
      * split; [intros _; exact Hh2 | intros; exfalso; lia].
Qed.

Lemma malloc_free_round_trip_witness :
  block_size
    (mem (mm_free (fst (mm_malloc 100 (snd (mm_init 1024 4096 (initial_state zero_mem)))))
            (snd (mm_malloc 100 (snd (mm_init 1024 4096 (initial_state zero_mem)))))))
    4096 = 1024 - SIZEOF_BLOCK /\
  heap (mm_free (fst (mm_malloc 100 (snd (mm_init 1024 4096 (initial_state zero_mem)))))
          (snd (mm_malloc 100 (snd (mm_init 1024 4096 (initial_state zero_mem))))))
    = [4096 + SIZEOF_BLOCK + ALIGN 100] /\
  fst (mm_malloc 1000
         (mm_free (fst (mm_malloc 100 (snd (mm_init 1024 4096 (initial_state zero_mem)))))
            (snd (mm_malloc 100 (snd (mm_init 1024 4096 (initial_state zero_mem)))))))
    = NULL.
Proof.
  destruct (malloc_free_round_trip zero_mem 1024 4096 100)
    as (Hfits & _).
  - split; [discriminate | reflexivity].
  - reflexivity.
  - discriminate.
  - reflexivity.
  - split; [discriminate | reflexivity].
  - discriminate.
  - destruct Hfits as (Hsz & _ & _ & Hsplit); [reflexivity|].
    destruct Hsplit as (Hh & _ & Hfail); [discriminate|].
    split; [exact Hsz|]. split; [exact Hh|].
    apply Hfail.
    + reflexivity.
    + split; [discriminate | reflexivity].
    + reflexivity.
Defined.

(** ** The test program *)

Lemma mm_init_empty_index (st : state) (capacity base : Z) :
  heap st = [] ->
  SIZEOF_BLOCK <= capacity < SIZE_MAX_PLUS_1 -> base <> SBRK_FAILED ->
  heap_start (snd (mm_init capacity base st)) = base /\
  heap_size (snd (mm_init capacity base st)) = capacity /\
  heap (snd (mm_init capacity base st)) = [base] /\
  block_size (mem (snd (mm_init capacity base st))) base = capacity - SIZEOF_BLOCK /\
  block_is_free (mem (snd (mm_init capacity base st))) base = true.
Proof.
  intros Hh Hcap Hb. rewrite mm_init_ok by (trivial; lia). cbn [fst snd].
  rewrite heap_insert_mem, heap_insert_heap_start, heap_insert_heap_size.
  cbn [mem heap_start heap_size].
  split; [reflexivity|]. split; [reflexivity|]. split; [|split].
  - unfold heap_insert, heap_count. cbn [heap]. rewrite Hh. reflexivity.
  - rewrite init_header_size; [|apply wrap_range].
    apply wrap_small. consts. lia.
  - apply init_header_free.
Qed.


(** A split allocation from a one-block index, as an equation. *)
Lemma malloc_step (s r : Z) (st : state) :
  0 < s -> request_ok s -> heap st = [r] -> 0 < r ->
  ALIGN s + SIZEOF_BLOCK + ALIGN_1 <= block_size (mem st) r ->
  exists st1,
    mm_malloc s st = (r + SIZEOF_BLOCK, st1) /\
    heap st1 = [r + SIZEOF_BLOCK + ALIGN s] /\
    block_size (mem st1) r = ALIGN s /\
    block_size (mem st1) (r + SIZEOF_BLOCK + ALIGN s)
      = block_size (mem st) r - ALIGN s - SIZEOF_BLOCK.
Proof.
  intros Hs Hreq Hh Hr Hfit. pose proof (ALIGN_range s) as Ha.
  destruct (mm_malloc_single s r st Hs Hreq Hh ltac:(consts; lia))
    as (_ & Hok & _ & Hsp). cbv zeta in Hok, Hsp.
  destruct (Hok ltac:(consts; lia)) as [Hp _].
  destruct (Hsp Hfit) as (Hh' & Hr' & HR' & _).
  destruct (mm_malloc s st) as [p st1]. cbn [fst snd] in *.
  exists st1. now rewrite Hp.
Qed.

Lemma malloc_asserted_carve (n : nat) (s : Z) (st : state) (r : Z) :
  heap st = [r] -> 0 < r ->
  all_split (block_size (mem st) r) (replicate n s) ->
  exists st', malloc_asserted n s st = Some (carve r (replicate n s), st').
Proof.
  revert st r. induction n as [|n IH]; intros st r Hh Hr Hall.
  { exists st. reflexivity. }
  cbn [replicate all_split] in Hall. destruct Hall as (Hs & Hreq & Hfit & Hrest).
  pose proof (ALIGN_range s) as Ha.
  destruct (malloc_step s r st Hs Hreq Hh Hr Hfit) as (st1 & E & Hh1 & _ & HR).
  rewrite <- HR in Hrest.
  destruct (IH st1 _ Hh1 ltac:(consts; lia) Hrest) as (st' & E').
  exists st'. cbn [malloc_asserted replicate carve]. rewrite E.
  destruct (Z.eqb_spec (r + SIZEOF_BLOCK) NULL) as [Hz|_]; [consts; lia|].
  now rewrite E'.
Qed.

Lemma pattern_holds_after_memset (m : memory) (ptr c : Z) (size : nat) :
  c mod 256 = 170 ->
  pattern_holds (memset m ptr c (Z.of_nat size)) ptr size = true.
Proof.
  intros Hc. unfold pattern_holds. apply forallb_forall. intros i Hi.
  apply in_seq in Hi. unfold load8. rewrite memset_in by lia.
  rewrite Hc. reflexivity.
Qed.

Lemma mm_realloc_fst_grow (p s : Z) (st : state) :
  p <> NULL -> s <> 0 -> block_size (mem st) (p - SIZEOF_BLOCK) < s ->
  fst (mm_realloc p s st) = fst (mm_malloc s st).
Proof.
  intros Hp Hs Hlt. rewrite mm_realloc_unfold by trivial.
  destruct (mm_malloc s st) as [q st1]. now destruct (negb _).
Qed.

Lemma requests_ok (s : Z) : 0 < s <= 1024 -> request_ok s.
Proof. intros Hs. unfold request_ok, SIZE_MAX_PLUS_1. consts. lia. Qed.

Lemma capacity_1024_ok : SIZEOF_BLOCK <= 1024 < SIZE_MAX_PLUS_1.
Proof. split; [discriminate | reflexivity]. Qed.

Lemma test_basic_allocation_passes (sbrk_ret : Z) (st : state) :
  heap st = [] -> 0 < sbrk_ret -> sbrk_ret <> SBRK_FAILED ->
  exists st', test_basic_allocation sbrk_ret st = Some st' /\ heap st' = [].
Proof.
  intros Hh Hb Hsbrk.
  destruct (mm_init_empty_index st 1024 sbrk_ret Hh capacity_1024_ok Hsbrk)
    as (_ & _ & Hh0 & Hsz0 & _).
  unfold test_basic_allocation. set (st0 := snd (mm_init 1024 sbrk_ret st)) in *.
  destruct (malloc_step 100 sbrk_ret st0 ltac:(reflexivity) (requests_ok 100 ltac:(lia))
              Hh0 Hb ltac:(rewrite Hsz0; discriminate))
    as (st1 & E & Hh1 & Hr1 & HR1).
  rewrite E. destruct (Z.eqb_spec (sbrk_ret + SIZEOF_BLOCK) NULL); [consts; lia|].
  rewrite Hsz0 in HR1. pose proof (ALIGN_range 100) as Ha.
  destruct (malloc_step 200 (sbrk_ret + SIZEOF_BLOCK + ALIGN 100) st1
              ltac:(reflexivity) (requests_ok 200 ltac:(lia)) Hh1 ltac:(consts; lia)
              ltac:(rewrite HR1; discriminate))
    as (st2 & E2 & _).
  rewrite E2.
  destruct (Z.eqb_spec (sbrk_ret + SIZEOF_BLOCK + ALIGN 100 + SIZEOF_BLOCK) NULL);
    [consts; lia|].
  eexists. split; reflexivity.
Qed.

Lemma test_realloc_passes (sbrk_ret : Z) (st : state) :
  heap st = [] -> 0 < sbrk_ret -> sbrk_ret <> SBRK_FAILED ->
  exists st', test_realloc sbrk_ret st = Some st' /\ heap st' = [].
Proof.
  intros Hh Hb Hsbrk.
  destruct (mm_init_empty_index st 1024 sbrk_ret Hh capacity_1024_ok Hsbrk)
    as (_ & _ & Hh0 & Hsz0 & _).
  unfold test_realloc. set (st0 := snd (mm_init 1024 sbrk_ret st)) in *.
  destruct (malloc_step 100 sbrk_ret st0 ltac:(reflexivity) (requests_ok 100 ltac:(lia))
              Hh0 Hb ltac:(rewrite Hsz0; discriminate))
    as (st1 & E & Hh1 & Hr1 & HR1).
  rewrite E. destruct (Z.eqb_spec (sbrk_ret + SIZEOF_BLOCK) NULL); [consts; lia|].
  rewrite Hsz0 in HR1. pose proof (ALIGN_range 100) as Ha.
  destruct (malloc_step 200 (sbrk_ret + SIZEOF_BLOCK + ALIGN 100) st1
              ltac:(reflexivity) (requests_ok 200 ltac:(lia)) Hh1 ltac:(consts; lia)
              ltac:(rewrite HR1; discriminate))
    as (st2 & E2 & _).
  assert (Hp : fst (mm_realloc (sbrk_ret + SIZEOF_BLOCK) 200 st1)
               = sbrk_ret + SIZEOF_BLOCK + ALIGN 100 + SIZEOF_BLOCK).
  { rewrite mm_realloc_fst_grow; [now rewrite E2 | consts; lia | discriminate |].
    replace (sbrk_ret + SIZEOF_BLOCK - SIZEOF_BLOCK) with sbrk_ret by lia.
    rewrite Hr1. reflexivity. }
  destruct (mm_realloc _ 200 st1) as [q st3]. cbn [fst] in Hp. subst q.
  destruct (Z.eqb_spec (sbrk_ret + SIZEOF_BLOCK + ALIGN 100 + SIZEOF_BLOCK) NULL);
    [consts; lia|].
  eexists. split; reflexivity.
Qed.

Lemma test_free_and_coalesce_passes (sbrk_ret : Z) (st : state) :
  exists st', test_free_and_coalesce sbrk_ret st = Some st' /\ heap st' = [].
Proof.
  unfold test_free_and_coalesce.
  destruct (mm_malloc 100 _) as [p1 st1].
  destruct (mm_malloc 200 st1) as [p2 st2].
  destruct (mm_malloc 100 st2) as [p3 st3].
  eexists. split; reflexivity.
Qed.

Lemma test_zero_allocation_passes (st : state) :
  test_zero_allocation st = Some st.
Proof. unfold test_zero_allocation. now rewrite mm_malloc_zero. Qed.

(** The test frees its block but does not call [mm_cleanup]: the arena stays
    in the index, unless its end is not below [2^64], in which case
    [mm_free] ignores the pointer and the index stays empty. *)
Lemma test_exact_size_allocation_passes (sbrk_ret : Z) (st : state) :
  heap st = [] -> 0 < sbrk_ret -> sbrk_ret <> SBRK_FAILED ->
  exists st', test_exact_size_allocation sbrk_ret st = Some st' /\
    (sbrk_ret + 1024 < SIZE_MAX_PLUS_1 ->
     heap st' = [sbrk_ret] /\ heap_start st' = sbrk_ret /\ heap_size st' = 1024 /\
     block_size (mem st') sbrk_ret = 1024 - SIZEOF_BLOCK) /\
    (SIZE_MAX_PLUS_1 <= sbrk_ret + 1024 -> heap st' = []).
Proof.
  intros Hh Hb Hsbrk.
  destruct (mm_init_empty_index st 1024 sbrk_ret Hh capacity_1024_ok Hsbrk)
    as (Hstart0 & Hsize0 & Hh0 & Hsz0 & _).
  unfold test_exact_size_allocation. set (st0 := snd (mm_init 1024 sbrk_ret st)) in *.
  set (s := wrap (1024 - mm_metadata_size)).
  destruct (mm_malloc_single s sbrk_ret st0 ltac:(reflexivity)
              (requests_ok s ltac:(split; [reflexivity | discriminate]))
              Hh0 ltac:(consts; lia))
    as (_ & Hok & Hwhole & _).
  cbv zeta in Hok, Hwhole. rewrite Hsz0 in Hok, Hwhole.
  destruct (Hok ltac:(discriminate)) as [Hp _].
  destruct (Hwhole ltac:(split; [discriminate | reflexivity])) as [Hh1 Hsz1].
  destruct (mm_malloc_bounds s st0) as [Hstart1 Hsize1].
  rewrite Hstart0 in Hstart1. rewrite Hsize0 in Hsize1.
  destruct (mm_malloc s st0) as [p st1]. cbn [fst snd] in *. subst p.
  destruct (Z.eqb_spec (sbrk_ret + SIZEOF_BLOCK) NULL); [consts; lia|].
  eexists. split; [reflexivity|]. split.
  - intros Hfits.
    destruct (free_whole st1 sbrk_ret Hh1 Hstart1 Hb) as [Hh2 Hm2].
    { rewrite Hsize1. reflexivity. }
    { rewrite Hstart1, Hsize1. exact Hfits. }
    { rewrite Hsz1, Hstart1, Hsize1. consts. lia. }
    split; [exact Hh2|].
    destruct (mm_free_bounds (sbrk_ret + SIZEOF_BLOCK) st1) as [Hs2 Hz2].
    split; [now rewrite Hs2|]. split; [now rewrite Hz2|].
    rewrite Hm2, <- Hsz1. apply block_size_ext. intros x Hx. consts. now frame.
  - intros Hwrap. rewrite mm_free_wrapping; [exact Hh1 | |].
    + rewrite Hsize1. discriminate.
    + rewrite Hstart1, Hsize1. exact Hwrap.
Qed.

Lemma test_memory_pattern_passes (sbrk_ret : Z) (st : state) :
  heap st = [] -> 0 < sbrk_ret -> sbrk_ret <> SBRK_FAILED ->
  is_Some (test_memory_pattern sbrk_ret st).
Proof.
  intros Hh Hb Hsbrk.
  destruct (mm_init_empty_index st 1024 sbrk_ret Hh capacity_1024_ok Hsbrk)
    as (_ & _ & Hh0 & Hsz0 & _).
  unfold test_memory_pattern. set (st0 := snd (mm_init 1024 sbrk_ret st)) in *.
  destruct (malloc_step 256 sbrk_ret st0 ltac:(reflexivity) (requests_ok 256 ltac:(lia))
              Hh0 Hb ltac:(rewrite Hsz0; discriminate)) as (st1 & E & _).
  rewrite E. destruct (Z.eqb_spec (sbrk_ret + SIZEOF_BLOCK) NULL); [consts; lia|].
  unfold client_memset. cbn [mem with_mem].
  rewrite (pattern_holds_after_memset (mem st1) _ 170 (Z.to_nat 256)); [|reflexivity].
  eexists. reflexivity.
Qed.



(** *** The seven tests in a row *)

(** A split allocation when the index holds the root [r] and one other block
    [o] that is not smaller: the remainder becomes the new root. *)
Lemma malloc_step_pair (s r o : Z) (st : state) :
  0 < s -> request_ok s -> heap st = [r; o] -> 0 < r ->
  ALIGN s + SIZEOF_BLOCK + ALIGN_1 <= block_size (mem st) r ->
  o + 8 <= r \/ r + SIZEOF_BLOCK + block_size (mem st) r <= o ->
  block_size (mem st) r <= block_size (mem st) o ->
  exists st1,
    mm_malloc s st = (r + SIZEOF_BLOCK, st1) /\
    heap st1 = [r + SIZEOF_BLOCK + ALIGN s; o] /\
    block_size (mem st1) (r + SIZEOF_BLOCK + ALIGN s)
      = block_size (mem st) r - ALIGN s - SIZEOF_BLOCK /\
    block_size (mem st1) o = block_size (mem st) o /\
    heap_start st1 = heap_start st /\ heap_size st1 = heap_size st.
Proof.
  intros Hs [Hs0 Hno] Hh Hr Hfit Hsep Hle.
  destruct (mm_malloc_bounds s st) as [Hstart Hsize].
  destruct (heap_extract_min_cons st r [o] Hh) as (_ & Hm & _ & _ & Hperm).
  apply perm_singleton_eq in Hperm.
  pose proof (ALIGN_bounds s Hs0 ltac:(consts; lia)) as Ha.
  pose proof (block_size_range (mem st) r) as Hold.
  pose proof (block_size_range (mem st) o) as Hoo.
  set (a := ALIGN s) in *. set (old := block_size (mem st) r) in *.
  pose proof (split_threshold_exact a ltac:(lia) ltac:(consts; lia)) as Hthr.
  pose proof (remainder_size_exact old a ltac:(consts; lia) ltac:(lia) ltac:(lia)) as Hrem.
  rewrite (mm_malloc_split s st r [o]) in * by (trivial; fold a old; consts; lia).
  fold a in Hstart, Hsize |- *. cbn [snd] in Hstart, Hsize.
  eexists. split; [reflexivity|].
  cbn [heap mem with_mem].
  set (mc := mem_after_carve (mem st) r a).
  assert (HR : block_size mc (r + SIZEOF_BLOCK + a) = old - a - SIZEOF_BLOCK).
  { unfold mc, mem_after_carve. fold old.
    rewrite (block_size_ext
               (set_size (mem st) (r + SIZEOF_BLOCK + a)
                  (wrap (wrap (old - a) - SIZEOF_BLOCK))))
      by (intros; consts; now frame).
    rewrite block_size_set_size, wrap_small by apply wrap_range. exact Hrem. }
  assert (Ho : block_size mc o = block_size (mem st) o).
  { apply block_size_ext. intros x Hx. unfold mc, mem_after_carve. consts. now frame. }
  split; [|split; [|split; [|split; [exact Hstart | exact Hsize]]]].
  - rewrite (heap_insert_second _ o (r + SIZEOF_BLOCK + a)) by exact Hperm.
    cbn [mem with_mem]. fold mc. rewrite HR, Ho.
    destruct (Z.ltb_spec (old - a - SIZEOF_BLOCK) (block_size (mem st) o));
      [reflexivity | consts; lia].
  - rewrite <- HR. apply block_size_ext. intros x Hx.
    unfold mem_after_take. fold mc. consts. now frame.
  - rewrite <- Ho. apply block_size_ext. intros x Hx.
    unfold mem_after_take. fold mc. consts. now frame.
Qed.

Lemma malloc_asserted_pair (n : nat) (s : Z) (st : state) (r o : Z) :
  heap st = [r; o] -> 0 < r ->
  o + 8 <= r \/ r + SIZEOF_BLOCK + block_size (mem st) r <= o ->
  block_size (mem st) r <= block_size (mem st) o ->
  all_split (block_size (mem st) r) (replicate n s) ->
  exists st', malloc_asserted n s st = Some (carve r (replicate n s), st') /\
    heap_start st' = heap_start st /\ heap_size st' = heap_size st.
Proof.
  revert st r. induction n as [|n IH]; intros st r Hh Hr Hsep Hle Hall.
  { exists st. now split. }
  cbn [replicate all_split] in Hall. destruct Hall as (Hs & Hreq & Hfit & Hrest).
  pose proof (ALIGN_range s) as Ha.
  pose proof (block_size_range (mem st) r) as Hold.
  destruct (malloc_step_pair s r o st Hs Hreq Hh Hr Hfit Hsep Hle)
    as (st1 & E & Hh1 & HR & Ho & Hstart & Hsize).
  rewrite <- HR in Hrest.
  destruct (IH st1 _ Hh1) as (st' & E' & Hstart' & Hsize').
  - consts. lia.
  - rewrite HR. consts. lia.
  - rewrite HR, Ho. consts. lia.
  - exact Hrest.
  - exists st'. cbn [malloc_asserted replicate carve]. rewrite E.
    destruct (Z.eqb_spec (r + SIZEOF_BLOCK) NULL) as [Hz|_]; [consts; lia|].
    rewrite E'. split; [reflexivity|]. now rewrite Hstart', Hsize'.
Qed.

(** Pointers outside the current arena: every [mm_free] is ignored. *)
Lemma frees_ignored (ptrs : list Z) (st : state) :
  (forall p, p ∈ ptrs -> p < heap_start st \/ heap_start st + heap_size st <= p) ->
  frees ptrs st = st.
Proof.
  unfold frees. induction ptrs as [|p ptrs IH]; intros Hout; [reflexivity|].
  cbn [fold_left]. rewrite mm_free_outside.
  - apply IH. intros q Hq. apply Hout. now apply elem_of_cons; right.
  - right. apply Hout. apply elem_of_cons. now left.
Qed.

Lemma carve_range (r : Z) (sizes : list Z) (sz : Z) (p : Z) :
  all_split sz sizes -> p ∈ carve r sizes -> r < p < r + SIZEOF_BLOCK + sz.
Proof.
  revert r sz. induction sizes as [|s sizes IH]; intros r sz Hall Hp.
  { now apply elem_of_nil in Hp. }
  cbn [all_split carve] in *. destruct Hall as (Hs & [Hs0 Hno] & Hfit & Hrest).
  pose proof (ALIGN_bounds s Hs0 ltac:(consts; lia)) as Ha.
  apply elem_of_cons in Hp. destruct Hp as [->|Hp]; [consts; lia|].
  specialize (IH _ _ Hrest Hp). consts. lia.
Qed.

(** In the run of all tests, [test_same_size_allocations] starts with the
    arena of [test_exact_size_allocation] still in the index: its five
    blocks are carved from that old arena, and its five [mm_free] calls are
    all ignored, the pointers lying outside the current arena. *)
Lemma test_same_size_after_exact (b5 b6 : Z) (st5 : state) :
  heap st5 = [b5] -> block_size (mem st5) b5 = 1024 - SIZEOF_BLOCK ->
  0 < b5 -> 0 < b6 -> b6 <> SBRK_FAILED ->
  b5 + 1024 <= b6 \/ b6 + 1024 <= b5 ->
  exists st',
    malloc_asserted 5 128 (snd (mm_init 1024 b6 st5))
      = Some (carve b5 (replicate 5 128), st') /\
    frees (carve b5 (replicate 5 128)) st' = st' /\
    test_same_size_allocations b6 st5 = Some (mm_cleanup st').
Proof.
  intros Hh Hsz Hb5 Hb6 Hsbrk Hapart.
  set (st6 := snd (mm_init 1024 b6 st5)).
  assert (H6 : heap st6 = [b5; b6] /\ heap_start st6 = b6 /\ heap_size st6 = 1024 /\
               block_size (mem st6) b5 = 1024 - SIZEOF_BLOCK /\
               block_size (mem st6) b6 = 1024 - SIZEOF_BLOCK).
  { unfold st6. rewrite mm_init_ok by (trivial; discriminate). cbn [snd].
    rewrite heap_insert_mem, heap_insert_heap_start, heap_insert_heap_size.
    cbn [mem heap_start heap_size].
    set (m6 := set_next _ _ _).
    assert (Hs6 : block_size m6 b6 = 1024 - SIZEOF_BLOCK).
    { unfold m6. rewrite init_header_size by apply wrap_range. reflexivity. }
    assert (Hs5 : block_size m6 b5 = 1024 - SIZEOF_BLOCK).
    { rewrite <- Hsz. apply block_size_ext. intros x Hx. unfold m6. consts. now frame. }
    split; [|tauto].
    rewrite (heap_insert_second _ b5 b6) by exact Hh. cbn [mem]. fold m6.
    rewrite Hs5, Hs6, Z.ltb_irrefl. reflexivity. }
  destruct H6 as (Hh6 & Hstart6 & Hsize6 & Hs5 & Hs6).
  assert (Hall : all_split (block_size (mem st6) b5) (replicate 5 128)).
  { rewrite Hs5. vm_compute. repeat split; discriminate. }
  destruct (malloc_asserted_pair 5 128 st6 b5 b6 Hh6 Hb5) as (st' & E & Hstart' & Hsize').
  - rewrite Hs5. consts. lia.
  - rewrite Hs5, Hs6. lia.
  - exact Hall.
  - exists st'. split; [exact E|].
    assert (Hfrees : frees (carve b5 (replicate 5 128)) st' = st').
    { apply frees_ignored. intros p Hp. rewrite Hstart', Hsize', Hstart6, Hsize6.
      pose proof (carve_range b5 _ _ p Hall Hp) as Hr. rewrite Hs5 in Hr.
      consts. lia. }
    split; [exact Hfrees|].
    unfold test_same_size_allocations. fold st6. now rewrite E, Hfrees.
Qed.

(** X14: [main] without arguments runs the seven tests in a row, and all
    their assertions pass provided every [sbrk] call succeeds with a
    non-null address and the arena of the sixth test does not overlap the
    arena of the fifth.  The fifth test, [test_exact_size_allocation], does
    not call [mm_cleanup]; when its arena ends below [2^64], the sixth,
    [test_same_size_allocations], then gets its five blocks from the fifth
    test's arena, and its five [mm_free] calls are ignored because those
    pointers lie outside the current arena.  (When the fifth arena does not
    end below [2^64], the fifth test's [mm_free] is ignored, its index stays
    empty, and the sixth test gets its blocks from its own arena.) *)
Theorem main_all_passes (b1 b2 b3 b5 b6 b7 : Z) (m : memory) :
  (forall b, b ∈ [b1; b2; b3; b5; b6; b7] -> 0 < b /\ b <> SBRK_FAILED) ->
  b5 + 1024 <= b6 \/ b6 + 1024 <= b5 ->
  is_Some (main_all b1 b2 b3 b5 b6 b7 m) /\
  (b5 + 1024 < SIZE_MAX_PLUS_1 ->
   exists st4 st5 st',
     test_exact_size_allocation b5 st4 = Some st5 /\
     malloc_asserted 5 128 (snd (mm_init 1024 b6 st5))
       = Some (carve b5 (replicate 5 128), st') /\
     frees (carve b5 (replicate 5 128)) st' = st' /\
     test_memory_pattern b7 (mm_cleanup st') = main_all b1 b2 b3 b5 b6 b7 m) /\
  (SIZE_MAX_PLUS_1 <= b5 + 1024 ->
   exists st4 st5 st',
     test_exact_size_allocation b5 st4 = Some st5 /\
     heap st5 = [] /\
     malloc_asserted 5 128 (snd (mm_init 1024 b6 st5))
       = Some (carve b6 (replicate 5 128), st') /\
     test_memory_pattern b7 (mm_cleanup (frees (carve b6 (replicate 5 128)) st'))
       = main_all b1 b2 b3 b5 b6 b7 m).
Proof.
  intros Hb Hapart.
  destruct (Hb b1) as [Hp1 Hf1]; [repeat constructor|].
  destruct (Hb b2) as [Hp2 Hf2]; [repeat constructor|].
  destruct (Hb b5) as [Hp5 Hf5]; [repeat constructor|].
  destruct (Hb b6) as [Hp6 Hf6]; [repeat constructor|].
  destruct (Hb b7) as [Hp7 Hf7]; [repeat constructor|].
  unfold main_all.
  destruct (test_basic_allocation_passes b1 (initial_state m) eq_refl Hp1 Hf1)
    as (st1 & -> & Hh1).
  cbn [mbind option_bind].
  destruct (test_realloc_passes b2 st1 Hh1 Hp2 Hf2) as (st2 & -> & Hh2).
  cbn [mbind option_bind].
  destruct (test_free_and_coalesce_passes b3 st2) as (st3 & -> & Hh3).
  cbn [mbind option_bind].
  rewrite test_zero_allocation_passes. cbn [mbind option_bind].
  destruct (test_exact_size_allocation_passes b5 st3 Hh3 Hp5 Hf5)
    as (st5 & E5 & Hfits5 & Hwrap5).
  rewrite E5. cbn [mbind option_bind].
  destruct (Z.lt_ge_cases (b5 + 1024) SIZE_MAX_PLUS_1) as [Hfits|Hwrap].
  - destruct (Hfits5 Hfits) as (Hh5 & _ & _ & Hs5).
    destruct (test_same_size_after_exact b5 b6 st5 Hh5 Hs5 Hp5 Hp6 Hf6 Hapart)
      as (st' & E6 & Hfrees & ->).
    cbn [mbind option_bind].
    split; [apply test_memory_pattern_passes; trivial|].
    split; [|intros; exfalso; lia].
    intros _. exists st3, st5, st'. repeat split; trivial.
  - pose proof (Hwrap5 Hwrap) as Hh5.
    destruct (mm_init_empty_index st5 1024 b6 Hh5 capacity_1024_ok Hf6)
      as (_ & _ & Hh6 & Hsz6 & _).
    destruct (malloc_asserted_carve 5 128 (snd (mm_init 1024 b6 st5)) b6 Hh6 Hp6)
      as (st' & E6).
    { rewrite Hsz6. vm_compute. repeat split; discriminate. }
    unfold test_same_size_allocations. rewrite E6. cbn [mbind option_bind].
    split; [apply test_memory_pattern_passes; trivial|].
    split; [intros; exfalso; lia|].
    intros _. exists st3, st5, st'. repeat split; trivial.
Qed.

Lemma main_all_passes_witness :
  is_Some (main_all 4096 8192 12288 16384 20480 24576 zero_mem).
Proof.
  apply (main_all_passes 4096 8192 12288 16384 20480 24576 zero_mem).
  - apply Forall_forall.
    repeat apply Forall_cons_2; try apply Forall_nil_2; split; reflexivity || discriminate.
  - left. discriminate.
Defined.

(** ** When [mm_malloc] fails *)

(** X15: [mm_malloc] looks at slot 0 of the index only.  For [s > 0] it
    returns NULL exactly when the index is empty or the block in slot 0 is
    smaller than the aligned request, whatever the other entries are.  As
    long as the index is an ordered heap, that block is a smallest one, so
    the call fails exactly when a smallest block is too small. *)
Theorem mm_malloc_fails_iff_root_too_small (s : Z) (st : state) :
  0 < s -> (forall b, b ∈ heap st -> 0 < b) ->
  (fst (mm_malloc s st) = NULL <->
   heap st = [] \/
   exists root rest, heap st = root :: rest /\ block_size (mem st) root < ALIGN s) /\
  (heap_ordered (mem st) (heap st) ->
   (fst (mm_malloc s st) = NULL <->
    heap st = [] \/
    exists b, b ∈ heap st /\ block_size (mem st) b < ALIGN s /\
              forall c, c ∈ heap st -> block_size (mem st) b <= block_size (mem st) c)).
Proof.
  intros Hs Hpos. split.
  - rewrite mm_malloc_null_iff_root by (trivial; intros b Hb; apply Hpos in Hb; lia).
    split; (intros [Hh|(root & rest & Hh & Hc)]; [now left|right]);
      exists root, rest; (split; [exact Hh|]).
    + destruct Hc as [->|Hc]; [|exact Hc].
      exfalso. specialize (Hpos NULL). rewrite Hh in Hpos.
      specialize (Hpos ltac:(apply elem_of_cons; now left)). unfold NULL in Hpos. lia.
    + now right.
  - intros Hord. now apply mm_malloc_null_iff_smallest.
Qed.

Lemma mm_malloc_fails_iff_root_too_small_witness :
  fst (mm_malloc 2000 arena_1024) = NULL <->
  heap arena_1024 = [] \/
  exists root rest, heap arena_1024 = root :: rest /\
    block_size (mem arena_1024) root < ALIGN 2000.
Proof.
  assert (Hh : heap arena_1024 = [4096]) by eval_eq.
  apply (mm_malloc_fails_iff_root_too_small 2000 arena_1024).
  - reflexivity.
  - apply (forall_evaluated _ _ _ Hh). apply Forall_cons_2; [reflexivity | apply Forall_nil_2].
Defined.

(** ** Freeing twice *)

(** Freeing a block whose right-hand neighbour is in use or past the end of
    the arena, with an index of at most that same block: the block is added
    once more, nothing is merged. *)
Lemma free_no_merge (st : state) (p : Z) (h : list Z) :
  heap st = h -> h = [] \/ h = [p - SIZEOF_BLOCK] ->
  p <> NULL -> heap_start st <= p < arena_end st ->
  p + block_size (mem st) (p - SIZEOF_BLOCK) < SIZE_MAX_PLUS_1 ->
  arena_end st <= p + block_size (mem st) (p - SIZEOF_BLOCK) \/
  block_is_free (mem st) (p + block_size (mem st) (p - SIZEOF_BLOCK)) = false ->
  heap (mm_free p st) = h ++ [p - SIZEOF_BLOCK] /\
  mem (mm_free p st) = set_is_free (mem st) (p - SIZEOF_BLOCK) true.
Proof.
  intros Hh Hcases Hp Hvalid Hspace Hnext.
  rewrite mm_free_valid by trivial. cbv zeta.
  set (B := p - SIZEOF_BLOCK) in *.
  pose proof (block_size_range (mem st) B) as HBr.
  set (m1 := set_is_free (mem st) B true).
  set (st1 := heap_insert (with_mem st m1) B).
  assert (Hm1 : mem st1 = m1) by (unfold st1; now rewrite heap_insert_mem).
  assert (Hs1 : block_size m1 B = block_size (mem st) B).
  { apply block_size_ext. intros x Hx. unfold m1. consts. now frame. }
  assert (Hh1 : heap st1 = h ++ [B]).
  { destruct Hcases as [->| ->].
    - unfold st1, heap_insert, heap_count. cbn [heap with_mem with_heap]. rewrite Hh.
      reflexivity.
    - unfold st1. rewrite (heap_insert_second _ B B) by exact Hh.
      now rewrite Z.ltb_irrefl. }
  assert (Hend1 : arena_end st1 = arena_end st).
  { unfold arena_end, st1. now rewrite heap_insert_heap_start, heap_insert_heap_size. }
  assert (Hn1 : next_block m1 B = p + block_size (mem st) B).
  { rewrite next_block_small; rewrite Hs1; unfold B in *; lia. }
  assert (Hno : forall i, heap st1 !!! i = B -> can_merge st1 i = false).
  { intros i Hi. rewrite (can_merge_at st1 i B Hi), Hm1, Hn1, Hend1.
    destruct Hnext as [Hend|Hused].
    - destruct (Z.ltb_spec (p + block_size (mem st) B) (arena_end st)); [lia|].
      now destruct (block_is_free m1 B).
    - assert (Hf : block_is_free m1 (p + block_size (mem st) B) = false).
      { rewrite <- Hused. apply block_is_free_ext. unfold m1, B in *. consts. now frame. }
      rewrite Hf. destruct (block_is_free m1 B); [|reflexivity].
      now rewrite andb_false_r. }
  assert (Hstop : coalesce (heap_count st1) st1 = st1).
  { destruct (heap_count st1) as [|n] eqn:Hn; [reflexivity|].
    cbn [coalesce]. rewrite Hn.
    destruct (find_merge (S n) st1 0) as [i|] eqn:Hf; [|reflexivity].
    apply find_merge_some in Hf. destruct Hf as [Hi Hc].
    rewrite Hno in Hc; [discriminate|].
    unfold heap_count in Hn. rewrite Hh1 in Hn |- *.
    destruct Hcases as [->| ->]; cbn [app length] in *.
    - replace i with 0%nat by lia. reflexivity.
    - destruct i as [|[|i]]; [reflexivity | reflexivity | lia]. }
  rewrite Hstop. now split.
Qed.

(** X16: a double free is not detected.  With an empty index and a block
    inside the arena whose right-hand neighbour is in use (or that ends the
    arena), calling [mm_free] twice on its pointer puts the block into the
    index twice; two following allocations that take the block whole then
    both return that same pointer.  ([arena_end] is the 64-bit sum
    [heap_start + heap_size]; the block ends below [2^64].) *)
Theorem double_free_duplicates (st : state) (p s : Z) :
  heap st = [] -> SIZEOF_BLOCK < p ->
  heap_start st <= p < arena_end st ->
  p + block_size (mem st) (p - SIZEOF_BLOCK) < SIZE_MAX_PLUS_1 ->
  arena_end st <= p + block_size (mem st) (p - SIZEOF_BLOCK) \/
  block_is_free (mem st) (p + block_size (mem st) (p - SIZEOF_BLOCK)) = false ->
  0 < s -> request_ok s ->
  ALIGN s <= block_size (mem st) (p - SIZEOF_BLOCK) < ALIGN s + SIZEOF_BLOCK + ALIGN_1 ->
  let st2 := mm_free p (mm_free p st) in
  heap (mm_free p st) = [p - SIZEOF_BLOCK] /\
  heap st2 = [p - SIZEOF_BLOCK; p - SIZEOF_BLOCK] /\
  fst (mm_malloc s st2) = p /\
  fst (mm_malloc s (snd (mm_malloc s st2))) = p.
Proof.
  intros Hh Hp Hvalid Hspace Hnext Hs Hreq Hfit st2. pose proof Hreq as [Hs0 Hno].
  set (B := p - SIZEOF_BLOCK) in *.
  pose proof (block_size_range (mem st) B) as HBr.
  pose proof (ALIGN_bounds s Hs0 ltac:(consts; lia)) as Ha.
  set (a := ALIGN s) in *.
  pose proof (split_threshold_exact a ltac:(lia) ltac:(consts; lia)) as Hthr.
  assert (Hpn : p <> NULL) by (consts; lia).
  destruct (free_no_merge st p [] Hh ltac:(now left) Hpn Hvalid Hspace Hnext)
    as [Hh1 Hm1].
  fold B in Hh1, Hm1. cbn [app] in Hh1.
  set (st1 := mm_free p st) in *.
  destruct (mm_free_bounds p st) as [Hstart1 Hsize1]. fold st1 in Hstart1, Hsize1.
  assert (Hend1 : arena_end st1 = arena_end st).
  { unfold arena_end. now rewrite Hstart1, Hsize1. }
  assert (Hsz1 : block_size (mem st1) B = block_size (mem st) B).
  { rewrite Hm1. apply block_size_ext. intros x Hx. consts. now frame. }
  destruct (free_no_merge st1 p [B] Hh1 ltac:(now right) Hpn) as [Hh2 Hm2].
  { rewrite Hstart1, Hend1. exact Hvalid. }
  { fold B. rewrite Hsz1. exact Hspace. }
  { fold B. rewrite Hend1, Hsz1.
    destruct Hnext as [Hend|Hused]; [now left|right].
    rewrite <- Hused, Hm1. apply block_is_free_ext. unfold B in *. consts. now frame. }
  fold B in Hh2, Hm2. cbn [app] in Hh2. fold st2 in Hh2, Hm2.
  assert (Hsz2 : block_size (mem st2) B = block_size (mem st) B).
  { rewrite Hm2, <- Hsz1. apply block_size_ext. intros x Hx. consts. now frame. }
  split; [exact Hh1|]. split; [exact Hh2|].
  assert (Hcall : mm_malloc s st2 =
            (B + SIZEOF_BLOCK,
             with_mem (snd (heap_extract_min st2)) (mem_after_take (mem st2) B a))).
  { apply (mm_malloc_no_split s st2 B [B]); trivial; fold a.
    - lia.
    - unfold B. consts. lia.
    - rewrite Hsz2. lia.
    - rewrite Hsz2, Hthr. lia. }
  rewrite Hcall. cbn [fst snd]. split; [unfold B; lia|].
  destruct (heap_extract_min_cons st2 B [B] Hh2) as (_ & _ & _ & _ & Hperm).
  apply perm_singleton_eq in Hperm.
  set (st3 := with_mem (snd (heap_extract_min st2)) (mem_after_take (mem st2) B a)).
  assert (Hh3 : heap st3 = [B]) by exact Hperm.
  assert (Hsz3 : block_size (mem st3) B = block_size (mem st) B).
  { rewrite <- Hsz2. apply block_size_ext. intros x Hx. cbn [st3 mem with_mem].
    unfold mem_after_take. consts. now frame. }
  destruct (mm_malloc_single s B st3 Hs Hreq Hh3 ltac:(unfold B; consts; lia))
    as (_ & Hok & _). cbv zeta in Hok. rewrite Hsz3 in Hok.
  destruct (Hok ltac:(fold a; lia)) as [-> _]. unfold B. lia.
Qed.

Lemma double_free_duplicates_witness :
  heap (mm_free 4120 (snd (mm_malloc 1000 arena_1024))) = [4120 - SIZEOF_BLOCK] /\
  heap (mm_free 4120 (mm_free 4120 (snd (mm_malloc 1000 arena_1024))))
    = [4120 - SIZEOF_BLOCK; 4120 - SIZEOF_BLOCK] /\
  fst (mm_malloc 1000 (mm_free 4120 (mm_free 4120 (snd (mm_malloc 1000 arena_1024)))))
    = 4120 /\
  fst (mm_malloc 1000
         (snd (mm_malloc 1000
                 (mm_free 4120 (mm_free 4120 (snd (mm_malloc 1000 arena_1024)))))))
    = 4120.
Proof.
  apply (double_free_duplicates (snd (mm_malloc 1000 arena_1024)) 4120 1000).
  - eval_eq.
  - reflexivity.
  - vm_compute. split; [discriminate | reflexivity].
  - vm_compute. reflexivity.
  - left. vm_compute. discriminate.
  - reflexivity.
  - split; [discriminate | reflexivity].
  - vm_compute. split; [discriminate | reflexivity].
Defined.

(** ** [mm_init] on any state *)

(** X17: [mm_init] on an allocator in any state.  A capacity below
    [sizeof(Block)] changes nothing.  When [sbrk] fails, memory, [heap_size]
    and the index are as before, but [heap_start] has already been
    overwritten with [(void* )-1], so every later [mm_free] of a pointer
    below that value is ignored.  When it succeeds, only the 24 header bytes
    at the new base are written, the bounds are those of the new arena, and
    [mm_free] ignores every pointer outside the new arena, such as the
    pointers into an arena set up by an earlier [mm_init]. *)
Theorem mm_init_contract (capacity base : Z) (st : state) :
  (capacity < SIZEOF_BLOCK -> mm_init capacity base st = (InitTooSmall, st)) /\
  (SIZEOF_BLOCK <= capacity ->
   fst (mm_init capacity SBRK_FAILED st) = InitSbrkFailed /\
   mem (snd (mm_init capacity SBRK_FAILED st)) = mem st /\
   heap (snd (mm_init capacity SBRK_FAILED st)) = heap st /\
   heap_size (snd (mm_init capacity SBRK_FAILED st)) = heap_size st /\
   heap_start (snd (mm_init capacity SBRK_FAILED st)) = SBRK_FAILED /\
   forall p, p < SBRK_FAILED ->
     mm_free p (snd (mm_init capacity SBRK_FAILED st))
     = snd (mm_init capacity SBRK_FAILED st)) /\
  (SIZEOF_BLOCK <= capacity -> base <> SBRK_FAILED ->
   fst (mm_init capacity base st) = InitOk /\
   heap_start (snd (mm_init capacity base st)) = base /\
   heap_size (snd (mm_init capacity base st)) = capacity /\
   (forall x, x < base \/ base + SIZEOF_BLOCK <= x ->
      mem (snd (mm_init capacity base st)) x = mem st x) /\
   block_size (mem (snd (mm_init capacity base st))) base = wrap (capacity - SIZEOF_BLOCK) /\
   block_is_free (mem (snd (mm_init capacity base st))) base = true /\
   forall p, p < base \/ base + capacity <= p ->
     mm_free p (snd (mm_init capacity base st)) = snd (mm_init capacity base st)).
Proof.
  split; [apply mm_init_too_small|]. split.
  - intros Hcap. rewrite mm_init_sbrk_failed by exact Hcap. cbn [fst snd].
    repeat split. intros p Hp. apply mm_free_outside. cbn [heap_start heap_size].
    tauto.
  - intros Hcap Hb. rewrite mm_init_ok by trivial. cbn [fst snd].
    rewrite heap_insert_mem. cbn [mem].
    split; [reflexivity|]. split; [now rewrite heap_insert_heap_start|].
    split; [now rewrite heap_insert_heap_size|]. split; [|split; [|split]].
    + intros x Hx. consts. now frame.
    + now rewrite init_header_size by apply wrap_range.
    + apply init_header_free.
    + intros p Hp. apply mm_free_outside.
      rewrite heap_insert_heap_start, heap_insert_heap_size.
      cbn [heap_start heap_size]. tauto.
Qed.

(** ** One arena: every index block lies inside it *)










(** A [mm_cleanup] puts the allocator back into its uninitialised state, so
    an [mm_init] after it starts a single arena again. *)
Lemma single_arena_after_cleanup (st : state) (capacity base : Z) :
  SIZEOF_BLOCK <= capacity < SIZE_MAX_PLUS_1 -> 0 < base -> base <> SBRK_FAILED ->
  single_arena (snd (mm_init capacity base (mm_cleanup st))).
Proof. intros Hcap Hbase Hsbrk. now apply (sa_init (mem st)). Qed.



